(** * Twinkle Lisp: a verification development over [src/lisp.c]

    The development embeds the parts of the Lisp virtual machine of
    [lisp.c] that the specification makes promises about: UTF-8 aware
    [substring], the dictionary with its open-addressing index, the
    mark-and-sweep collector, the printer and the reader, and the
    tree-walking evaluator with its tail-call trampoline and
    [catch]/[throw].

    Conventions.  A C [int] or [size_t] is a [Z] (or a [nat] where it is a
    count); a byte is a [Z] in [0, 255]; a C string is the list of its
    bytes, the terminating NUL being added by [cbuf] where the code reads
    it; a pointer to a heap object is an address, and the objects live in
    a finite map from addresses. *)

From Stdlib Require Import ZArith List Lia Bool Floats.
From stdpp Require Import gmap list strings.

Open Scope Z_scope.

(** ** Results of fallible code

    [lisp_err] leaves the primitive by a non-local jump.  A fallible
    function of the model returns [Ok v] or [Err msg], [msg] being the
    message [lisp_err] formats. *)

Inductive result (A : Type) : Type :=
| Ok (v : A)
| Err (msg : string).

Arguments Ok {A} v.
Arguments Err {A} msg.

(** * UTF-8 strings and [substring] *)

Module Utf8.

(** The bytes of a [Lisp_String]: [length] of them, the buffer holding one
    more byte, the NUL that [lisp_string_new] writes at [t[length]]. *)
Definition Lisp_String := list Z.

Definition string_length (s : Lisp_String) : Z := Z.of_nat (length s).

(** The buffer as C reads it: the bytes and the terminator. *)
Definition cbuf (s : Lisp_String) : list Z := s ++ [0].

(** [s->buf[i]]. *)
Definition byte_at (s : Lisp_String) (i : Z) : Z :=
  nth (Z.to_nat i) (cbuf s) 0.

(** A byte of the form [10xxxxxx]: the test [(c & 0xc0) == 0x80].  For a
    [char] that is signed the low eight bits decide, so the unsigned byte
    is what is masked. *)
Definition is_continuation (c : Z) : bool := Z.land c 192 =? 128.

(** The loop of [check_utf8], at index [i] with [remain] continuation
    bytes still owed.  The result is the index of the first bad byte, or
    [-1]. *)
Fixpoint check_utf8_loop (bs : list Z) (i : Z) (remain : Z) : Z :=
  match bs with
  | [] => if remain =? 0 then -1 else i
  | c :: bs' =>
      if 0 <? remain then
        if negb (Z.land c (Z.lnot 63) =? 128) then i
        else check_utf8_loop bs' (i + 1) (remain - 1)
      else if Z.shiftr c 7 =? 0 then check_utf8_loop bs' (i + 1) remain
      else if Z.shiftr c 6 =? 2 then i
      else if Z.shiftr c 5 =? 6 then check_utf8_loop bs' (i + 1) 1
      else if Z.shiftr c 4 =? 14 then check_utf8_loop bs' (i + 1) 2
      else if Z.shiftr c 3 =? 30 then check_utf8_loop bs' (i + 1) 3
      else i
  end.

Definition check_utf8 (s : list Z) : Z := check_utf8_loop s 0 0.

(** The strings the code calls valid. *)
Definition valid_utf8 (s : Lisp_String) : Prop := check_utf8 s = -1.

(** [strncpy (t, src, n)]: bytes are copied up to a NUL, and the rest of
    the [n] bytes is filled with NUL. *)
Fixpoint strncpy (src : list Z) (n : nat) {struct n} : list Z :=
  match n with
  | O => []
  | S n' =>
      match src with
      | [] => repeat 0 n
      | c :: src' => if c =? 0 then repeat 0 n else c :: strncpy src' n'
      end
  end.

(** [lisp_string_new (vm, buf, length)] as far as the bytes go. *)
Definition lisp_string_new (src : list Z) (len : nat) : Lisp_String :=
  strncpy src len.

(** The loop [while ((s->buf[end] & 0xc0) == 0x80) end++], run over the
    bytes from [end] on; the NUL that ends the buffer stops it. *)
Fixpoint advance_end (from_end : list Z) (e : Z) : Z :=
  match from_end with
  | [] => e
  | c :: rest => if is_continuation c then advance_end rest (e + 1) else e
  end.

(** The case [S_SUBSTRING] of [apply_primitive], after [safe_ptr] and
    [safe_int] have read the arguments: [end_arg] is [None] when the
    optional third argument is absent. *)
Definition substring (s : Lisp_String) (start : Z) (end_arg : option Z)
  : result Lisp_String :=
  let e := match end_arg with Some e => e | None => string_length s end in
  if (0 <=? start) && (start <=? e) then
    let e := if string_length s <? e then string_length s else e in
    let e := advance_end (drop (Z.to_nat e) (cbuf s)) e in
    if (start <? string_length s) && is_continuation (byte_at s start) then
      Err "bad first byte"
    else if e <? start then
      (* a length below zero, read as a [size_t]: no such block *)
      Err "memory allocation failure"
    else
      Ok (lisp_string_new (drop (Z.to_nat start) (cbuf s)) (Z.to_nat (e - start)))
  else Err "bad range".

(** A position of [s] that is no interior of a multi-byte sequence. *)
Definition boundary (s : Lisp_String) (i : Z) : Prop :=
  0 <= i <= string_length s /\ is_continuation (byte_at s i) = false.


(** ** Theory of [check_utf8] *)

(** One step of the loop of [check_utf8]: the count of continuation bytes
    owed after byte [c], or [None] where the loop returns the index. *)
Definition utf8_step (remain c : Z) : option Z :=
  if 0 <? remain then
    if negb (Z.land c (Z.lnot 63) =? 128) then None else Some (remain - 1)
  else if Z.shiftr c 7 =? 0 then Some remain
  else if Z.shiftr c 6 =? 2 then None
  else if Z.shiftr c 5 =? 6 then Some 1
  else if Z.shiftr c 4 =? 14 then Some 2
  else if Z.shiftr c 3 =? 30 then Some 3
  else None.

Fixpoint scan (remain : Z) (bs : list Z) : option Z :=
  match bs with
  | [] => Some remain
  | c :: bs' =>
      match utf8_step remain c with
      | Some r => scan r bs'
      | None => None
      end
  end.

Definition is_byte (c : Z) : Prop := 0 <= c < 256.

Lemma check_utf8_loop_scan bs : forall i remain,
  0 <= i ->
  (check_utf8_loop bs i remain = -1 <-> scan remain bs = Some 0).
Proof.
  induction bs as [|c bs IH]; intros i remain Hi; simpl.
  - destruct (Z.eqb_spec remain 0); split; intros H;
      first [congruence | lia | (injection H; lia)].
  - unfold utf8_step.
    repeat match goal with
    | |- context [if ?b then _ else _] => destruct b; simpl
    end; try (apply IH; lia); split; intros H; try discriminate; lia.
Qed.

Lemma valid_utf8_scan s : valid_utf8 s <-> scan 0 s = Some 0.
Proof. unfold valid_utf8, check_utf8. apply check_utf8_loop_scan. lia. Qed.

Lemma scan_app a : forall r b,
  scan r (a ++ b) = match scan r a with Some r' => scan r' b | None => None end.
Proof.
  induction a as [|c a IH]; intros r b; simpl; [reflexivity|].
  destruct (utf8_step r c); [apply IH | reflexivity].
Qed.

Lemma utf8_step_nonneg r c r' : 0 <= r -> utf8_step r c = Some r' -> 0 <= r'.
Proof.
  unfold utf8_step. intros Hr.
  repeat match goal with
  | |- context [if ?b then _ else _] => destruct b eqn:?; simpl
  end; intros H; inversion H; subst; lia.
Qed.

Lemma scan_nonneg bs : forall r r', 0 <= r -> scan r bs = Some r' -> 0 <= r'.
Proof.
  induction bs as [|c bs IH]; simpl; intros r r' Hr H.
  - inversion H; subst; exact Hr.
  - destruct (utf8_step r c) as [r1|] eqn:E; [|discriminate].
    eapply IH; [|exact H]. eapply utf8_step_nonneg; eauto.
Qed.

(** Facts about single bytes are settled by running through the 256 of
    them. *)
Lemma byte_cases (P : Z -> bool) :
  forallb P (map Z.of_nat (seq 0 256)) = true ->
  forall c, is_byte c -> P c = true.
Proof.
  intros H c [H0 H1].
  rewrite forallb_forall in H. apply H.
  apply in_map_iff. exists (Z.to_nat c). split; [lia|].
  apply in_seq. lia.
Qed.

Lemma continuation_mask c :
  is_byte c -> (Z.land c (Z.lnot 63) =? 128) = is_continuation c.
Proof.
  intros Hc.
  apply (byte_cases (fun c => Bool.eqb (Z.land c (Z.lnot 63) =? 128) (is_continuation c)))
    in Hc; [|vm_compute; reflexivity].
  apply Bool.eqb_prop in Hc. exact Hc.
Qed.

Lemma continuation_shift c :
  is_byte c -> is_continuation c = true ->
  (Z.shiftr c 7 =? 0) = false /\ (Z.shiftr c 6 =? 2) = true.
Proof.
  intros Hc Hk.
  apply (byte_cases (fun c => implb (is_continuation c)
    (negb (Z.shiftr c 7 =? 0) && (Z.shiftr c 6 =? 2)))) in Hc;
    [|vm_compute; reflexivity].
  rewrite Hk in Hc. simpl in Hc. apply andb_true_iff in Hc as [H1 H2].
  apply negb_true_iff in H1. auto.
Qed.

(** While the loop goes on, a byte is a continuation byte exactly when
    one is owed. *)
Lemma utf8_step_owed r c r' :
  0 <= r -> is_byte c -> utf8_step r c = Some r' ->
  (is_continuation c = true <-> 0 < r).
Proof.
  intros Hr Hc. unfold utf8_step.
  destruct (Z.ltb_spec 0 r) as [Hlt|Hge].
  - rewrite continuation_mask by assumption.
    destruct (is_continuation c); simpl; [tauto | discriminate].
  - destruct (is_continuation c) eqn:Hk.
    + destruct (continuation_shift c Hc Hk) as [-> ->]. discriminate.
    + intros _. split; [discriminate | lia].
Qed.

Lemma utf8_step_nul r : 0 <= r -> utf8_step r 0 = Some 0 -> r = 0.
Proof.
  intros Hr H. destruct (Z.ltb_spec 0 r) as [Hlt|Hge]; [|lia].
  unfold utf8_step in H. destruct (0 <? r) eqn:E; [|apply Z.ltb_ge in E; lia].
  simpl in H. discriminate.
Qed.

Lemma scan_zeros n : scan 0 (repeat 0 n) = Some 0.
Proof. induction n; simpl; auto. Qed.

(** A valid string cut where no continuation byte follows gives two valid
    strings. *)
Lemma scan_split a b :
  Forall is_byte b ->
  scan 0 (a ++ b) = Some 0 ->
  is_continuation (hd 0 b) = false ->
  scan 0 a = Some 0 /\ scan 0 b = Some 0.
Proof.
  intros Hb H Hhd. rewrite scan_app in H.
  destruct (scan 0 a) as [r|] eqn:Ea; [|discriminate].
  assert (Hr : 0 <= r) by (eapply scan_nonneg; [|exact Ea]; lia).
  assert (r = 0); [|subst; auto].
  destruct b as [|c b]; simpl in *.
  - inversion H; auto.
  - destruct (utf8_step r c) as [r1|] eqn:Es; [|discriminate].
    inversion Hb; subst.
    pose proof (utf8_step_owed r c r1 Hr H2 Es) as Ho.
    destruct (Z.ltb_spec 0 r) as [Hlt|Hge]; [|lia].
    apply Ho in Hlt. congruence.
Qed.

Lemma advance_end_spec l : forall e,
  exists k : nat,
    advance_end l e = e + Z.of_nat k /\ (k <= length l)%nat /\
    Forall (fun c => is_continuation c = true) (take k l) /\
    is_continuation (hd 0 (drop k l)) = false.
Proof.
  induction l as [|c l IH]; intros e; simpl.
  - exists O. simpl. repeat split; auto; lia.
  - destruct (is_continuation c) eqn:Hc.
    + destruct (IH (e + 1)) as (k & He & Hk & Hall & Hhd).
      exists (S k). simpl. repeat split; auto; try lia.
    + exists O. simpl. repeat split; auto; lia.
Qed.

Lemma continuation_run_stops (x : list Z) k :
  Forall (fun c => is_continuation c = true) (take k (x ++ [0])) ->
  (k <= length x)%nat.
Proof.
  revert k. induction x as [|c x IH]; intros k H.
  - destruct k; [lia|]. simpl in H. inversion H; subst. discriminate.
  - destruct k; simpl in *; [lia|]. inversion H; subst.
    apply IH in H3. lia.
Qed.

Lemma hd_drop_nth (l : list Z) k : hd 0 (drop k l) = nth k l 0.
Proof.
  revert k. induction l as [|c l IH]; intros [|k]; simpl; auto.
Qed.

Lemma strncpy_length src : forall n, length (strncpy src n) = n.
Proof.
  intros n. revert src. induction n as [|n IH]; intros src; [reflexivity|].
  change (strncpy src (S n)) with
    (match src with
     | [] => repeat 0 (S n)
     | c :: src' => if c =? 0 then repeat 0 (S n) else c :: strncpy src' n
     end).
  destruct src as [|c src]; [apply repeat_length|].
  destruct (c =? 0); [apply repeat_length|]. simpl. f_equal. apply IH.
Qed.

Lemma strncpy_valid n : forall src r,
  0 <= r -> (n <= length src)%nat ->
  scan r (take n src) = Some 0 -> scan r (strncpy src n) = Some 0.
Proof.
  induction n as [|n IH]; intros src r Hr Hn H; simpl in *.
  - exact H.
  - destruct src as [|c src]; simpl in *; [lia|].
    destruct (Z.eqb_spec c 0) as [->|Hc].
    + destruct (utf8_step r 0) as [r1|] eqn:Es; [|discriminate].
      assert (r = 0).
      { destruct (Z.ltb_spec 0 r) as [Hlt|Hge]; [|lia].
        unfold utf8_step in Es. destruct (0 <? r) eqn:E; [discriminate|].
        apply Z.ltb_ge in E. lia. }
      subst r. change (scan 0 (repeat 0 (S n)) = Some 0). apply scan_zeros.
    + simpl. destruct (utf8_step r c) as [r1|] eqn:Es; [|discriminate].
      apply IH; [eapply utf8_step_nonneg; eauto | lia | exact H].
Qed.

Lemma strncpy_no_nul n : forall src,
  (n <= length src)%nat -> Forall (fun c => c <> 0) (take n src) ->
  strncpy src n = take n src.
Proof.
  induction n as [|n IH]; intros src Hn H; simpl.
  - reflexivity.
  - destruct src as [|c src]; simpl in *; [lia|].
    inversion H; subst.
    destruct (Z.eqb_spec c 0); [contradiction|].
    f_equal. apply IH; [lia | assumption].
Qed.

Lemma byte_at_nul (s : Lisp_String) : byte_at s (string_length s) = 0.
Proof.
  unfold byte_at, string_length, cbuf. rewrite Nat2Z.id.
  rewrite app_nth2 by lia. rewrite Nat.sub_diag. reflexivity.
Qed.

Lemma byte_at_hd (s : Lisp_String) (i : nat) :
  byte_at s (Z.of_nat i) = hd 0 (drop i (cbuf s)).
Proof. unfold byte_at. rewrite Nat2Z.id. symmetry. apply hd_drop_nth. Qed.

Lemma byte_at_inside (s : Lisp_String) (i : nat) :
  (i <= length s)%nat -> byte_at s (Z.of_nat i) = hd 0 (drop i s).
Proof.
  intros Hi. rewrite byte_at_hd. unfold cbuf.
  rewrite drop_app_le by lia.
  destruct (drop i s) eqn:E; simpl; auto.
Qed.

(** The slice of a valid string between two boundaries is valid. *)
Lemma slice_valid (s : Lisp_String) (a b : nat) :
  Forall is_byte s -> scan 0 s = Some 0 ->
  (a <= b)%nat -> (b <= length s)%nat ->
  is_continuation (byte_at s (Z.of_nat a)) = false ->
  is_continuation (byte_at s (Z.of_nat b)) = false ->
  scan 0 (take (b - a) (drop a s)) = Some 0.
Proof.
  intros Hs Hv Hab Hb Ha Hbb.
  rewrite byte_at_inside in Ha by lia. rewrite byte_at_inside in Hbb by lia.
  rewrite <- (take_drop b s) in Hv.
  apply scan_split in Hv as [Hv _]; [| apply Forall_drop; exact Hs | exact Hbb].
  rewrite <- (take_drop a (take b s)) in Hv.
  assert (Hd : drop a (take b s) = take (b - a) (drop a s)).
  { rewrite take_drop_commute. f_equal. f_equal. lia. }
  apply scan_split in Hv as [_ Hv].
  - rewrite <- Hd. exact Hv.
  - apply Forall_drop, Forall_take. exact Hs.
  - destruct (Nat.eq_dec a b) as [->|Hne].
    + rewrite drop_ge by (rewrite length_take; lia). reflexivity.
    + rewrite Hd. destruct (drop a s) as [|c l] eqn:E; simpl in *.
      * rewrite take_nil. reflexivity.
      * replace (b - a)%nat with (S (b - a - 1)) by lia. simpl. exact Ha.
Qed.

(** What [substring] does on a valid string, for a start and an end in
    range. *)
Lemma substring_spec (s : Lisp_String) (start e : Z) :
  Forall is_byte s -> valid_utf8 s ->
  0 <= start <= e -> e <= string_length s ->
  if is_continuation (byte_at s start)
  then substring s start (Some e) = Err "bad first byte"
  else exists (e' : Z) (r : Lisp_String),
      substring s start (Some e) = Ok r /\
      e <= e' /\ boundary s e' /\
      (forall i, e <= i < e' -> is_continuation (byte_at s i) = true) /\
      r = lisp_string_new (drop (Z.to_nat start) (cbuf s)) (Z.to_nat (e' - start)) /\
      string_length r = e' - start /\
      valid_utf8 r /\
      (Forall (fun c => c <> 0) s ->
       r = take (Z.to_nat (e' - start)) (drop (Z.to_nat start) s)).
Proof.
  intros Hs Hv [Hs0 Hse] Hel.
  apply valid_utf8_scan in Hv.
  unfold substring, string_length in *.
  replace ((0 <=? start) && (start <=? e)) with true
    by (symmetry; apply andb_true_iff; split; [apply Z.leb_le | apply Z.leb_le]; lia).
  replace (Z.of_nat (length s) <? e) with false by (symmetry; apply Z.ltb_ge; lia).
  destruct (advance_end_spec (drop (Z.to_nat e) (cbuf s)) e)
    as (k & He' & Hk & Hall & Hhd).
  rewrite He'.
  assert (Hdrop : drop (Z.to_nat e) (cbuf s) = drop (Z.to_nat e) s ++ [0])
    by (unfold cbuf; apply drop_app_le; lia).
  assert (Hke : (k <= length s - Z.to_nat e)%nat).
  { rewrite Hdrop in Hall. apply continuation_run_stops in Hall.
    rewrite length_drop in Hall. exact Hall. }
  destruct (is_continuation (byte_at s start)) eqn:Hst.
  - assert (start <> Z.of_nat (length s)).
    { intros ->. pose proof (byte_at_nul s) as Hn. unfold string_length in Hn.
      rewrite Hn in Hst. discriminate. }
    replace (start <? Z.of_nat (length s)) with true
      by (symmetry; apply Z.ltb_lt; lia).
    reflexivity.
  - rewrite andb_false_r.
    replace (e + Z.of_nat k <? start) with false by (symmetry; apply Z.ltb_ge; lia).
    set (e' := e + Z.of_nat k).
    assert (He'n : e' = Z.of_nat (Z.to_nat e + k)) by (unfold e'; lia).
    assert (Hbe : is_continuation (byte_at s e') = false).
    { rewrite He'n, byte_at_hd. rewrite <- drop_drop. exact Hhd. }
    exists e', (lisp_string_new (drop (Z.to_nat start) (cbuf s)) (Z.to_nat (e' - start))).
    split; [reflexivity|].
    split; [unfold e'; lia|].
    split; [split; [unfold string_length; lia | exact Hbe]|].
    split.
    { intros i [Hi1 Hi2].
      replace i with (Z.of_nat (Z.to_nat e + Z.to_nat (i - e))) by lia.
      rewrite byte_at_hd, <- drop_drop, hd_drop_nth.
      rewrite Forall_forall in Hall. apply Hall.
      rewrite <- (take_drop k (drop (Z.to_nat e) (cbuf s))) at 1.
      rewrite app_nth1 by (rewrite length_take; unfold e' in Hi2; lia).
      apply list_elem_of_In. apply nth_In. rewrite length_take.
      unfold e' in Hi2. lia. }
    split; [reflexivity|].
    assert (Hlen : (Z.to_nat (e' - start) <= length (drop (Z.to_nat start) s))%nat)
      by (rewrite length_drop; lia).
    assert (Hsrc : drop (Z.to_nat start) (cbuf s) = drop (Z.to_nat start) s ++ [0])
      by (unfold cbuf; apply drop_app_le; lia).
    assert (Htake : take (Z.to_nat (e' - start)) (drop (Z.to_nat start) (cbuf s))
                    = take (Z.to_nat (e' - start)) (drop (Z.to_nat start) s))
      by (rewrite Hsrc; apply take_app_le; exact Hlen).
    split; [unfold lisp_string_new; rewrite strncpy_length; lia|].
    split.
    { apply valid_utf8_scan. unfold lisp_string_new.
      apply strncpy_valid; [lia | rewrite Hsrc, length_app; simpl; lia |].
      rewrite Htake.
      replace (Z.to_nat (e' - start)) with (Z.to_nat e' - Z.to_nat start)%nat by lia.
      apply slice_valid; auto; try lia.
      - rewrite Z2Nat.id by lia. exact Hst.
      - rewrite Z2Nat.id by lia. exact Hbe. }
    { intros Hnz. unfold lisp_string_new. rewrite <- Htake.
      apply strncpy_no_nul; [rewrite Hsrc, length_app; simpl; lia|].
      rewrite Htake. apply Forall_take, Forall_drop. exact Hnz. }
Qed.

(** C8 (as amended).  For every valid UTF-8 string [s] and indices
    [0 <= start <= e <= length s]: when [start] points at a continuation
    byte, [substring] fails with "bad first byte"; otherwise it returns a
    string [r] that is valid UTF-8, namely the bytes of [s] from [start] up
    to [e'], the first boundary at or after [e] (every byte skipped between
    [e] and [e'] is a continuation byte). *)
Theorem substring_valid_utf8 (s : Lisp_String) (start e : Z) :
  Forall is_byte s -> valid_utf8 s ->
  0 <= start <= e -> e <= string_length s ->
  if is_continuation (byte_at s start)
  then substring s start (Some e) = Err "bad first byte"
  else exists (e' : Z) (r : Lisp_String),
      substring s start (Some e) = Ok r /\
      e <= e' /\ boundary s e' /\
      (forall i, e <= i < e' -> is_continuation (byte_at s i) = true) /\
      r = lisp_string_new (drop (Z.to_nat start) (cbuf s)) (Z.to_nat (e' - start)) /\
      string_length r = e' - start /\
      valid_utf8 r /\
      (Forall (fun c => c <> 0) s ->
       r = take (Z.to_nat (e' - start)) (drop (Z.to_nat start) s)).
Proof. apply substring_spec. Qed.

(** The string a, e-acute, b (bytes 61 C3 A9 62), cut from 0 to 2: the end
    lies inside the two-byte sequence and is moved to 3. *)
Lemma substring_valid_utf8_witness :
  Forall is_byte [97; 195; 169; 98] /\ valid_utf8 [97; 195; 169; 98] /\
  exists (e' : Z) (r : Lisp_String),
    substring [97; 195; 169; 98] 0 (Some 2) = Ok r /\
    2 <= e' /\ boundary [97; 195; 169; 98] e' /\
    (forall i, 2 <= i < e' -> is_continuation (byte_at [97; 195; 169; 98] i) = true) /\
    r = lisp_string_new (drop (Z.to_nat 0) (cbuf [97; 195; 169; 98])) (Z.to_nat (e' - 0)) /\
    string_length r = e' - 0 /\
    valid_utf8 r /\
    (Forall (fun c => c <> 0) [97; 195; 169; 98] ->
     r = take (Z.to_nat (e' - 0)) (drop (Z.to_nat 0) [97; 195; 169; 98])).
Proof.
  assert (Hb : Forall is_byte [97; 195; 169; 98])
    by (repeat constructor; unfold is_byte; lia).
  assert (Hv : valid_utf8 [97; 195; 169; 98]) by reflexivity.
  split; [exact Hb|]. split; [exact Hv|].
  refine (substring_valid_utf8 [97; 195; 169; 98] 0 2 Hb Hv _ _).
  - lia.
  - unfold string_length. simpl. lia.
Defined.

Example substring_moves_end :
  substring [97; 195; 169; 98] 0 (Some 2) = Ok [97; 195; 169].
Proof. reflexivity. Qed.

(** C8 as it is worded promises a string for every start and end in
    range.  With the start inside the two-byte sequence of e-acute the
    primitive raises an error and returns no string. *)
Lemma substring_interior_start_fails :
  valid_utf8 [195; 169] /\ 0 <= 1 <= 2 /\ 2 <= string_length [195; 169] /\
  substring [195; 169] 1 (Some 2) = Err "bad first byte" /\
  ~ exists r, substring [195; 169] 1 (Some 2) = Ok r /\ valid_utf8 r.
Proof.
  split; [reflexivity|]. split; [lia|]. split; [unfold string_length; simpl; lia|].
  split; [reflexivity|]. intros (r & H & _). discriminate H.
Qed.

(** A string that is no valid UTF-8 (such as [slice] cuts out of one)
    comes back as it is. *)
Example substring_of_invalid_string :
  substring [195] 0 (Some 1) = Ok [195] /\ check_utf8 [195] = 1.
Proof. split; reflexivity. Qed.

End Utf8.

(** * Dictionaries: the linear list and its open-addressing index *)

Module Dict.

Abbreviation addr := positive (only parsing).

(** A cons cell as far as a dictionary reads it: [car] is the key, a
    pointer to a symbol, and [cdr] the value. *)
Record Lisp_Pair := { car : addr; cdr : addr }.

Abbreviation heap := (gmap addr Lisp_Pair) (only parsing).

(** The address of the interned symbol [undefined]. *)
Definition LISP_UNDEF : addr := 1%positive.

(** The lookup array that sits in slot 0: an array whose [count] stays 0
    and whose [cap] slots are written by [add_to_lookup_table]. *)
Record Lisp_Array := { cap : nat; items : list (option addr) }.

(** A dictionary: [d_cap] is [cap], [d_table] is [items[0]] and
    [d_entries] are [items[1]] to [items[count - 1]]. *)
Record Lisp_Dict := {
  d_cap : nat;
  d_table : option Lisp_Array;
  d_entries : list addr
}.

Definition d_count (d : Lisp_Dict) : nat := S (length (d_entries d)).

Definition DICT_LOOKUP_COUNT : nat := 8.

(** [hash_cstr]: [hash = c + (hash << 6) + (hash << 16) - hash] in
    [uint32_t]; the list holds the characters as the loop reads them. *)
Definition hash_cstr (s : list Z) : Z :=
  fold_left (fun hash c =>
    (c + Z.shiftl hash 6 + Z.shiftl hash 16 - hash) mod 2 ^ 32) s 0.

Section WithSymbols.

(** The bytes of the symbol stored at an address.  Symbols are immutable,
    so the cached [hash] field always equals [hash_cstr] of them. *)
Variable symbol_buf : addr -> list Z.

Definition lisp_string_hash (name : addr) : Z := hash_cstr (symbol_buf name).

(** [lisp_array_new (vm, cap)]: zeroed slots, [cap] at least 4. *)
Definition lisp_array_new (n : nat) : Lisp_Array :=
  {| cap := if decide (4 < n)%nat then n else 4%nat; items := replicate n None |}.

(** [lisp_dict_new (vm, n)]: [count] is 1, slot 0 is empty. *)
Definition lisp_dict_new (n : nat) : Lisp_Dict :=
  {| d_cap := if decide (4 < n)%nat then n else 4%nat;
     d_table := None; d_entries := [] |}.

(** [if (++i >= a->cap) i = 0]. *)
Definition next_slot (a : Lisp_Array) (i : nat) : nat :=
  if decide (cap a <= S i)%nat then O else S i.

(** [h % (a->cap - 1)]. *)
Definition first_slot (a : Lisp_Array) (name : addr) : nat :=
  Z.to_nat (lisp_string_hash name mod (Z.of_nat (cap a) - 1)).

(** The loop of [lookup], with [n] iterations left. *)
Fixpoint lookup_loop (h : heap) (a : Lisp_Array) (name : addr)
    (i n : nat) : option addr :=
  match n with
  | O => None
  | S n' =>
      match items a !! i with
      | Some (Some p) =>
          match h !! p with
          | Some pr =>
              if decide (car pr = name) then Some p
              else lookup_loop h a name (next_slot a i) n'
          | None => None
          end
      | _ => None
      end
  end.

Definition lookup (h : heap) (a : Lisp_Array) (name : addr) : option addr :=
  lookup_loop h a name (first_slot a name) (cap a).

(** The loop of [add_to_lookup_table]; [None] is the [assert (0)] after
    it. *)
Fixpoint add_loop (a : Lisp_Array) (p : addr) (i n : nat) : option Lisp_Array :=
  match n with
  | O => None
  | S n' =>
      match items a !! i with
      | Some None => Some {| cap := cap a; items := <[i := Some p]> (items a) |}
      | _ => add_loop a p (next_slot a i) n'
      end
  end.

Definition add_to_lookup_table (h : heap) (a : Lisp_Array) (p : addr)
  : option Lisp_Array :=
  match h !! p with
  | Some pr => add_loop a p (first_slot a (car pr)) (cap a)
  | None => None
  end.

(** The linear scan of [lisp_dict_assoc], over entries 1 to [count - 1]. *)
Fixpoint linear_scan (h : heap) (entries : list addr) (name : addr)
  : option addr :=
  match entries with
  | [] => None
  | p :: rest =>
      match h !! p with
      | Some pr =>
          if decide (name = car pr) then Some p else linear_scan h rest name
      | None => None
      end
  end.

(** [lisp_dict_assoc]: the outer [None] is the failed
    [assert (dict->items[0])], the inner one is [NULL]. *)
Definition lisp_dict_assoc (h : heap) (d : Lisp_Dict) (name : addr)
  : option (option addr) :=
  if decide (DICT_LOOKUP_COUNT < d_count d)%nat then
    match d_table d with
    | Some table => Some (lookup h table name)
    | None => None
    end
  else Some (linear_scan h (d_entries d) name).

(** [lisp_array_push] on the dictionary: [lisp_array_grow] doubles [cap]
    when the array is full.  (Its [assert] on the pushed object is
    checked by [lisp_dict_add_item] below, which has the heap.) *)
Definition lisp_array_push (d : Lisp_Dict) (p : addr) : Lisp_Dict :=
  {| d_cap := if decide (d_count d = d_cap d) then (d_cap d * 2)%nat else d_cap d;
     d_table := d_table d;
     d_entries := d_entries d ++ [p] |}.

(** The loop that fills a fresh table with entries 1 to [count - 1]. *)
Fixpoint fill_table (h : heap) (a : Lisp_Array) (entries : list addr)
  : option Lisp_Array :=
  match entries with
  | [] => Some a
  | p :: rest =>
      match add_to_lookup_table h a p with
      | Some a' => fill_table h a' rest
      | None => None
      end
  end.

Definition lisp_dict_add_item (h : heap) (d : Lisp_Dict) (p : addr)
  : option Lisp_Dict :=
  if decide (h !! p = None) then None else
  let d := lisp_array_push d p in
  if decide (DICT_LOOKUP_COUNT < d_count d)%nat then
    let rebuild :=
      match d_table d with
      | None => true
      | Some table => bool_decide (cap table < d_cap d * 2)%nat
      end in
    let table' :=
      if rebuild then fill_table h (lisp_array_new (d_cap d * 2)) (d_entries d)
      else match d_table d with
           | Some table => add_to_lookup_table h table p
           | None => None
           end in
    match table' with
    | Some t => Some {| d_cap := d_cap d; d_table := Some t; d_entries := d_entries d |}
    | None => None
    end
  else Some d.

(** [lisp_pair_new]: a fresh address receives the cell. *)
Definition lisp_pair_new (h : heap) (a b : addr) : addr * heap :=
  let p := fresh (dom h) in (p, <[p := {| car := a; cdr := b |}]> h).

(** [lisp_dict_add]. *)
Definition lisp_dict_add (h : heap) (d : Lisp_Dict) (name val : addr)
  : option (heap * Lisp_Dict) :=
  let '(p, h') := lisp_pair_new h name val in
  match lisp_dict_add_item h' d p with
  | Some d' => Some (h', d')
  | None => None
  end.

(** [p->cdr = value]. *)
Definition set_cdr (h : heap) (p : addr) (v : addr) : heap :=
  match h !! p with
  | Some pr => <[p := {| car := car pr; cdr := v |}]> h
  | None => h
  end.

(** [lisp_dict_remove]: the value becomes [undefined], the entry stays. *)
Definition lisp_dict_remove (h : heap) (d : Lisp_Dict) (name : addr)
  : option heap :=
  match lisp_dict_assoc h d name with
  | Some (Some p) => Some (set_cdr h p LISP_UNDEF)
  | Some None => Some h
  | None => None
  end.

(** [lisp_dict_clear]. *)
Definition lisp_dict_clear (d : Lisp_Dict) : Lisp_Dict :=
  {| d_cap := d_cap d; d_table := None; d_entries := [] |}.

(** The case [S_DICT_SET] of [apply_primitive]. *)
Definition dict_set (h : heap) (d : Lisp_Dict) (name val : addr)
  : option (heap * Lisp_Dict) :=
  match lisp_dict_assoc h d name with
  | Some (Some p) => Some (set_cdr h p val, d)
  | Some None => lisp_dict_add h d name val
  | None => None
  end.

(** The operations that build and change a dictionary. *)
Inductive dict_op :=
| OpAdd (name val : addr)
| OpAddItem (p : addr)
| OpSet (name val : addr)
| OpRemove (name : addr)
| OpClear.

Definition run_op (st : heap * Lisp_Dict) (op : dict_op)
  : option (heap * Lisp_Dict) :=
  let '(h, d) := st in
  match op with
  | OpAdd name val => lisp_dict_add h d name val
  | OpAddItem p =>
      match lisp_dict_add_item h d p with
      | Some d' => Some (h, d')
      | None => None
      end
  | OpSet name val => dict_set h d name val
  | OpRemove name =>
      match lisp_dict_remove h d name with
      | Some h' => Some (h', d)
      | None => None
      end
  | OpClear => Some (h, lisp_dict_clear d)
  end.

Fixpoint run_ops (st : heap * Lisp_Dict) (ops : list dict_op)
  : option (heap * Lisp_Dict) :=
  match ops with
  | [] => Some st
  | op :: rest =>
      match run_op st op with
      | Some st' => run_ops st' rest
      | None => None
      end
  end.

(** ** The index read as a list

    A probe that starts at slot [i] and wraps around visits the slots in
    the order of the table rotated by [i]. *)

Fixpoint probe (h : heap) (name : addr) (l : list (option addr)) : option addr :=
  match l with
  | Some p :: l' =>
      match h !! p with
      | Some pr => if decide (car pr = name) then Some p else probe h name l'
      | None => None
      end
  | _ => None
  end.

(** The offset of the first empty slot. *)
Fixpoint first_free (l : list (option addr)) : option nat :=
  match l with
  | [] => None
  | None :: _ => Some O
  | Some _ :: l' => S <$> first_free l'
  end.

Lemma next_slot_rotate (a : Lisp_Array) (i0 o : nat) :
  (0 < cap a)%nat ->
  next_slot a (rotate_nat_add i0 o (cap a)) = rotate_nat_add i0 (S o) (cap a).
Proof.
  intros Hc. rewrite rotate_nat_add_S by exact Hc.
  pose proof (rotate_nat_add_lt i0 o (cap a) Hc) as Hlt.
  unfold next_slot. destruct (decide (cap a <= S (rotate_nat_add i0 o (cap a)))%nat).
  - replace (S (rotate_nat_add i0 o (cap a))) with (cap a) by lia.
    symmetry. apply Nat.Div0.mod_same.
  - symmetry. apply Nat.mod_small. lia.
Qed.

Lemma lookup_loop_probe (h : heap) (a : Lisp_Array) (name : addr) (i0 : nat) :
  length (items a) = cap a ->
  forall n o, (o + n = cap a)%nat ->
  lookup_loop h a name (rotate_nat_add i0 o (cap a)) n
  = probe h name (drop o (rotate i0 (items a))).
Proof.
  intros Hlen. induction n as [|n IH]; intros o Ho; simpl.
  - rewrite drop_ge by (rewrite length_rotate; lia). reflexivity.
  - assert (Hc : (0 < cap a)%nat) by lia.
    assert (Hol : (o < length (items a))%nat) by lia.
    pose proof (lookup_rotate_r (items a) i0 o Hol) as Hr.
    rewrite Hlen in Hr. rewrite <- Hr.
    destruct (rotate i0 (items a) !! o) as [x|] eqn:Ex.
    + rewrite (drop_S _ _ _ Ex). destruct x as [p|]; simpl; [|reflexivity].
      destruct (h !! p) as [pr|]; [|reflexivity].
      destruct (decide (car pr = name)); [reflexivity|].
      rewrite next_slot_rotate by exact Hc. apply IH. lia.
    + apply lookup_ge_None in Ex. rewrite length_rotate in Ex. lia.
Qed.

Lemma first_slot_lt (a : Lisp_Array) (name : addr) :
  (2 <= cap a)%nat -> (first_slot a name < cap a)%nat.
Proof.
  intros Hc. unfold first_slot.
  pose proof (Z.mod_pos_bound (lisp_string_hash name) (Z.of_nat (cap a) - 1)).
  lia.
Qed.

Lemma lookup_probe (h : heap) (a : Lisp_Array) (name : addr) :
  length (items a) = cap a -> (2 <= cap a)%nat ->
  lookup h a name = probe h name (rotate (first_slot a name) (items a)).
Proof.
  intros Hlen Hc. unfold lookup.
  pose proof (first_slot_lt a name Hc) as Hlt.
  rewrite <- (rotate_nat_add_0 (first_slot a name) (cap a) Hlt) at 1.
  rewrite (lookup_loop_probe h a name (first_slot a name) Hlen (cap a) 0) by lia.
  reflexivity.
Qed.

Lemma add_loop_first_free (a : Lisp_Array) (p : addr) (i0 : nat) :
  length (items a) = cap a ->
  forall n o, (o + n = cap a)%nat ->
  add_loop a p (rotate_nat_add i0 o (cap a)) n
  = (fun k => {| cap := cap a;
                 items := <[rotate_nat_add i0 (o + k) (cap a) := Some p]> (items a) |})
    <$> first_free (drop o (rotate i0 (items a))).
Proof.
  intros Hlen. induction n as [|n IH]; intros o Ho; simpl.
  - rewrite drop_ge by (rewrite length_rotate; lia). reflexivity.
  - assert (Hc : (0 < cap a)%nat) by lia.
    assert (Hol : (o < length (items a))%nat) by lia.
    pose proof (lookup_rotate_r (items a) i0 o Hol) as Hr.
    rewrite Hlen in Hr. rewrite <- Hr.
    destruct (rotate i0 (items a) !! o) as [x|] eqn:Ex.
    + rewrite (drop_S _ _ _ Ex). destruct x as [q|]; simpl.
      * rewrite next_slot_rotate by exact Hc. rewrite IH by lia.
        destruct (first_free (drop (S o) (rotate i0 (items a)))) as [k|]; simpl;
          [|reflexivity].
        replace (S (o + k))%nat with (o + S k)%nat by lia. reflexivity.
      * rewrite Nat.add_0_r. reflexivity.
    + apply lookup_ge_None in Ex. rewrite length_rotate in Ex. lia.
Qed.

(** ** Free slots *)

Fixpoint free_count (l : list (option addr)) : nat :=
  match l with
  | [] => O
  | None :: l' => S (free_count l')
  | Some _ :: l' => free_count l'
  end.

Lemma free_count_app (l k : list (option addr)) :
  free_count (l ++ k) = (free_count l + free_count k)%nat.
Proof. induction l as [|[x|] l IH]; simpl; auto. Qed.

Lemma free_count_rotate (n : nat) (l : list (option addr)) :
  free_count (rotate n l) = free_count l.
Proof.
  unfold rotate. rewrite free_count_app, Nat.add_comm, <- free_count_app.
  rewrite take_drop. reflexivity.
Qed.

Lemma free_count_replicate (n : nat) : free_count (replicate n None) = n.
Proof. induction n; simpl; auto. Qed.

Lemma free_count_insert (l : list (option addr)) (k : nat) (p : addr) :
  l !! k = Some None ->
  S (free_count (<[k := Some p]> l)) = free_count l.
Proof.
  revert k. induction l as [|x l IH]; intros [|k] H; simpl in *; try discriminate.
  - inversion H; subst. reflexivity.
  - destruct x; simpl; [apply IH; exact H|]. f_equal. apply IH. exact H.
Qed.

Lemma first_free_exists (l : list (option addr)) :
  (0 < free_count l)%nat -> exists k, first_free l = Some k.
Proof.
  induction l as [|[x|] l IH]; simpl; intros H; [lia| |eauto].
  destruct (IH H) as [k ->]. eauto.
Qed.

Lemma first_free_spec (l : list (option addr)) (k : nat) :
  first_free l = Some k ->
  l !! k = Some None /\ Forall is_Some (take k l).
Proof.
  revert k. induction l as [|[x|] l IH]; simpl; intros k H; try discriminate.
  - destruct (first_free l) as [k'|]; simpl in H; [|discriminate].
    inversion H; subst. destruct (IH k' eq_refl) as [H1 H2].
    split; [exact H1|]. simpl. constructor; [eauto | exact H2].
  - inversion H; subst. split; [reflexivity | constructor].
Qed.

(** ** Probing a list of slots *)

Definition allocated (h : heap) (x : option addr) : Prop :=
  forall p, x = Some p -> is_Some (h !! p).

Lemma probe_app_cases (h : heap) (name : addr) (A : list (option addr)) :
  Forall (allocated h) A ->
  (Forall is_Some A /\ forall X, probe h name (A ++ X) = probe h name X)
  \/ (exists p, forall X, probe h name (A ++ X) = Some p)
  \/ (~ Forall is_Some A /\ forall X, probe h name (A ++ X) = None).
Proof.
  induction A as [|x A IH]; intros HA.
  - left. split; [constructor | reflexivity].
  - inversion HA as [|? ? Hx HA']; subst.
    destruct x as [p|].
    + destruct (Hx p eq_refl) as [pr Hp]. simpl. rewrite Hp.
      destruct (decide (car pr = name)).
      * right. left. exists p. reflexivity.
      * destruct (IH HA') as [[H1 H2]|[[q H]|[H1 H2]]].
        -- left. split; [constructor; eauto | exact H2].
        -- right. left. exists q. exact H.
        -- right. right. split; [|exact H2].
           intros HF. inversion HF; subst. contradiction.
    + right. right. split; [|reflexivity].
      intros HF. inversion HF as [|? ? [? Hn] ?]. discriminate.
Qed.

Lemma probe_Some_inv (h : heap) (name : addr) (l : list (option addr)) (x : addr) :
  probe h name l = Some x ->
  exists i pr, l !! i = Some (Some x) /\ h !! x = Some pr /\ car pr = name.
Proof.
  induction l as [|[p|] l IH]; simpl; intros H; try discriminate.
  destruct (h !! p) as [pr|] eqn:Hp; [|discriminate].
  destruct (decide (car pr = name)).
  - inversion H; subst. exists O, pr. auto.
  - destruct (IH H) as (i & pr' & H1 & H2 & H3). exists (S i), pr'. auto.
Qed.

(** ** Heaps that only grow and keep the keys *)

Definition heap_le (h h' : heap) : Prop :=
  forall p pr, h !! p = Some pr ->
    exists pr', h' !! p = Some pr' /\ car pr' = car pr.

Lemma heap_le_refl (h : heap) : heap_le h h.
Proof. intros p pr H. eauto. Qed.

Lemma heap_le_trans (h1 h2 h3 : heap) :
  heap_le h1 h2 -> heap_le h2 h3 -> heap_le h1 h3.
Proof.
  intros H12 H23 p pr H. destruct (H12 p pr H) as (pr2 & H2 & E2).
  destruct (H23 p pr2 H2) as (pr3 & H3 & E3). exists pr3. split; congruence.
Qed.

Lemma heap_le_set_cdr (h : heap) (p v : addr) : heap_le h (set_cdr h p v).
Proof.
  unfold set_cdr. destruct (h !! p) as [pr|] eqn:Hp; [|apply heap_le_refl].
  intros q prq Hq. destruct (decide (p = q)) as [->|Hne].
  - rewrite Hp in Hq. inversion Hq; subst.
    eexists. rewrite lookup_insert_eq. split; reflexivity.
  - exists prq. rewrite lookup_insert_ne by exact Hne. auto.
Qed.

Lemma heap_le_pair_new (h : heap) (a b : addr) :
  heap_le h (snd (lisp_pair_new h a b)).
Proof.
  unfold lisp_pair_new. simpl. intros q prq Hq.
  assert (fresh (dom h) <> q).
  { intros <-. pose proof (is_fresh (dom h)) as Hf.
    apply Hf. apply elem_of_dom. eauto. }
  exists prq. rewrite lookup_insert_ne by assumption. auto.
Qed.

Lemma allocated_heap_le (h h' : heap) (x : option addr) :
  heap_le h h' -> allocated h x -> allocated h' x.
Proof.
  intros Hle Hx p ->. destruct (Hx p eq_refl) as [pr Hp].
  destruct (Hle p pr Hp) as (pr' & Hp' & _). eauto.
Qed.

Lemma probe_heap_le (h h' : heap) (name : addr) (l : list (option addr)) :
  heap_le h h' -> Forall (allocated h) l ->
  probe h' name l = probe h name l.
Proof.
  intros Hle. induction l as [|[p|] l IH]; intros Hl; simpl; auto.
  inversion Hl as [|? ? Hx Hl']; subst.
  destruct (Hx p eq_refl) as [pr Hp].
  destruct (Hle p pr Hp) as (pr' & Hp' & E).
  rewrite Hp, Hp', E. destruct (decide (car pr = name)); auto.
Qed.

Lemma linear_scan_heap_le (h h' : heap) (name : addr) (es : list addr) :
  heap_le h h' -> Forall (fun p => is_Some (h !! p)) es ->
  linear_scan h' es name = linear_scan h es name.
Proof.
  intros Hle. induction es as [|p es IH]; intros Hes; simpl; auto.
  inversion Hes as [|? ? [pr Hp] Hes']; subst.
  destruct (Hle p pr Hp) as (pr' & Hp' & E).
  rewrite Hp, Hp', E. destruct (decide (name = car pr)); auto.
Qed.

Lemma linear_scan_app (h : heap) (name : addr) (es : list addr) (e : addr) :
  Forall (fun p => is_Some (h !! p)) es ->
  linear_scan h (es ++ [e]) name =
  match linear_scan h es name with
  | Some p => Some p
  | None => linear_scan h [e] name
  end.
Proof.
  induction es as [|p es IH]; intros Hes; [reflexivity|].
  inversion Hes as [|? ? [pr Hp] Hes']; subst.
  simpl. rewrite Hp. destruct (decide (name = car pr)); auto.
Qed.

(** ** The invariant of the index

    Against the entries [es] in insertion order: every slot holds an
    allocated pair that a probe for its key reaches without crossing an
    empty slot, a probe finds what the linear scan finds, and the free
    slots and the entries add up to the capacity. *)

Record table_inv (h : heap) (a : Lisp_Array) (es : list addr) : Prop := {
  ti_len : length (items a) = cap a;
  ti_cap : (2 <= cap a)%nat;
  ti_alloc : Forall (allocated h) (items a);
  ti_es : Forall (fun p => is_Some (h !! p)) es;
  ti_reach : forall j x pr,
    items a !! j = Some (Some x) -> h !! x = Some pr ->
    Forall is_Some
      (take (rotate_nat_sub (first_slot a (car pr)) j (cap a))
            (rotate (first_slot a (car pr)) (items a)));
  ti_lookup : forall name,
    probe h name (rotate (first_slot a name) (items a)) = linear_scan h es name;
  ti_free : (free_count (items a) + length es = cap a)%nat
}.

Lemma Forall_take_insert {A} (P : A -> Prop) (l : list A) (o q : nat) (v : A) :
  Forall P (take o l) -> P v -> Forall P (take o (<[q := v]> l)).
Proof.
  intros H Hv. destruct (decide (q < o)%nat).
  - rewrite take_insert_lt by assumption. apply Forall_insert; assumption.
  - rewrite take_insert_ge by lia. exact H.
Qed.

Lemma Forall_rotate_1 {A} (P : A -> Prop) (n : nat) (l : list A) :
  Forall P l -> Forall P (rotate n l).
Proof.
  rewrite !Forall_forall. intros H x Hx. apply H.
  apply elem_of_rotate in Hx. exact Hx.
Qed.

Lemma table_add (h : heap) (a : Lisp_Array) (es : list addr) (e : addr)
    (pr : Lisp_Pair) :
  table_inv h a es -> (length es < cap a)%nat -> h !! e = Some pr ->
  exists a', add_to_lookup_table h a e = Some a' /\ cap a' = cap a /\
             table_inv h a' (es ++ [e]).
Proof.
  intros [Hlen Hcap Halloc Hes Hreach Hlook Hfree] Hlt He.
  set (i0 := first_slot a (car pr)).
  assert (Hi0 : (i0 < cap a)%nat) by (apply first_slot_lt; exact Hcap).
  destruct (first_free_exists (rotate i0 (items a))) as [k Hk].
  { rewrite free_count_rotate. lia. }
  destruct (first_free_spec _ _ Hk) as [HkNone HkSome].
  assert (Hk_lt : (k < cap a)%nat).
  { apply lookup_lt_Some in HkNone. rewrite length_rotate in HkNone. lia. }
  set (s := rotate_nat_add i0 k (cap a)).
  assert (Hs_lt : (s < cap a)%nat) by (apply rotate_nat_add_lt; lia).
  assert (Hs : items a !! s = Some None).
  { unfold s. rewrite <- Hlen. rewrite <- lookup_rotate_r by lia. exact HkNone. }
  assert (Hsub : rotate_nat_sub i0 s (cap a) = k)
    by (apply rotate_nat_sub_add; exact Hk_lt).
  exists {| cap := cap a; items := <[s := Some e]> (items a) |}.
  split.
  { unfold add_to_lookup_table. rewrite He. fold i0.
    rewrite <- (rotate_nat_add_0 i0 (cap a) Hi0) at 1.
    rewrite (add_loop_first_free a e i0 Hlen (cap a) 0) by lia.
    rewrite drop_0, Hk. reflexivity. }
  split; [reflexivity|].
  constructor; simpl.
  - rewrite length_insert. exact Hlen.
  - exact Hcap.
  - apply Forall_insert; [exact Halloc|]. intros p [= <-]. eauto.
  - apply Forall_app. split; [exact Hes|]. constructor; [eauto | constructor].
  - intros j x prx Hj Hx.
    change (first_slot {| cap := cap a; items := <[s:=Some e]> (items a) |} (car prx))
      with (first_slot a (car prx)).
    rewrite rotate_insert_r by lia.
    apply list_lookup_insert_Some in Hj as [(-> & Hex & _)|(Hne & Hj)].
    + inversion Hex; subst x. rewrite He in Hx. inversion Hx; subst prx.
      fold i0. rewrite Hlen, Hsub.
      rewrite take_insert_ge by lia. exact HkSome.
    + apply Forall_take_insert; [|eauto]. eapply Hreach; eauto.
  - intros name.
    change (first_slot {| cap := cap a; items := <[s:=Some e]> (items a) |} name)
      with (first_slot a name).
    set (i := first_slot a name).
    assert (Hi : (i < cap a)%nat) by (apply first_slot_lt; exact Hcap).
    rewrite rotate_insert_r by lia. rewrite Hlen.
    set (q := rotate_nat_sub i s (cap a)).
    set (L := rotate i (items a)).
    assert (HLq : L !! q = Some None).
    { unfold L, q. rewrite <- Hlen. rewrite lookup_rotate_l by lia. exact Hs. }
    assert (Hq : (q < length L)%nat) by (eapply lookup_lt_Some; exact HLq).
    rewrite linear_scan_app by exact Hes. rewrite <- Hlook. fold i. fold L.
    simpl (linear_scan h [e] name). rewrite He.
    rewrite insert_take_drop by exact Hq.
    replace (probe h name L) with (probe h name (take q L ++ None :: drop (S q) L))
      by (rewrite take_drop_middle by exact HLq; reflexivity).
    assert (HA : Forall (allocated h) (take q L))
      by (apply Forall_take, Forall_rotate_1; exact Halloc).
    destruct (probe_app_cases h name (take q L) HA)
      as [[HAs HAX]|[[p HAp]|[HAn HAX]]].
    + rewrite !HAX. simpl. rewrite He.
      destruct (decide (car pr = name)) as [E|NE].
      * rewrite decide_True by (symmetry; exact E). reflexivity.
      * rewrite decide_False by (intros E; apply NE; symmetry; exact E).
        destruct (probe h name (drop (S q) L)) as [x|] eqn:EB; [|reflexivity].
        exfalso. apply probe_Some_inv in EB as (idx & prx & HB & Hx & Hcar).
        rewrite lookup_drop in HB.
        assert (Ho : (S q + idx < length (items a))%nat).
        { apply lookup_lt_Some in HB. unfold L in HB.
          rewrite length_rotate in HB. exact HB. }
        unfold L in HB. rewrite lookup_rotate_r in HB by exact Ho.
        pose proof (Hreach _ _ _ HB Hx) as HF.
        rewrite Hcar in HF. fold i in HF. rewrite Hlen in HF.
        rewrite rotate_nat_sub_add in HF by lia. fold L in HF.
        assert (HF' : is_Some (None : option addr)).
        { eapply (Forall_lookup_1 _ _ q) in HF; [exact HF|].
          rewrite lookup_take_lt by lia. exact HLq. }
        destruct HF' as [? HF']. discriminate.
    + rewrite !HAp. reflexivity.
    + rewrite !HAX.
      destruct (decide (name = car pr)) as [E|NE]; [|reflexivity].
      exfalso. apply HAn. unfold q, L, i. rewrite E. fold i0. rewrite Hsub.
      exact HkSome.
  - rewrite length_app. simpl.
    pose proof (free_count_insert (items a) s e Hs). lia.
Qed.

Lemma probe_replicate_None (h : heap) (name : addr) (n : nat) :
  probe h name (replicate n None) = None.
Proof. destruct n; reflexivity. Qed.

Lemma table_inv_empty (h : heap) (n : nat) :
  (4 < n)%nat -> table_inv h (lisp_array_new n) [].
Proof.
  intros Hn. unfold lisp_array_new. rewrite decide_True by exact Hn.
  constructor; simpl.
  - apply length_replicate.
  - lia.
  - apply Forall_replicate. intros p Hp. discriminate.
  - constructor.
  - intros j x pr Hj _. apply lookup_replicate in Hj as [Hj _]. discriminate.
  - intros name. rewrite rotate_replicate. apply probe_replicate_None.
  - rewrite free_count_replicate. lia.
Qed.

Lemma fill_table_inv (h : heap) (rest : list addr) :
  forall (done : list addr) (a : Lisp_Array),
  table_inv h a done ->
  (length done + length rest < cap a)%nat ->
  Forall (fun p => is_Some (h !! p)) rest ->
  exists a', fill_table h a rest = Some a' /\ cap a' = cap a /\
             table_inv h a' (done ++ rest).
Proof.
  induction rest as [|e rest IH]; intros done a Hinv Hlen Hrest; simpl.
  - exists a. rewrite app_nil_r. auto.
  - inversion Hrest as [|? ? [pr He] Hrest']; subst. simpl in Hlen.
    destruct (table_add h a done e pr Hinv) as (a1 & Ha1 & Hc1 & Hinv1);
      [lia | exact He |].
    rewrite Ha1.
    destruct (IH (done ++ [e]) a1 Hinv1) as (a2 & Ha2 & Hc2 & Hinv2).
    + rewrite length_app. simpl. lia.
    + exact Hrest'.
    + exists a2. rewrite <- app_assoc in Hinv2. simpl in Hinv2.
      split; [exact Ha2|]. split; [congruence | exact Hinv2].
Qed.

Lemma table_inv_heap_le (h h' : heap) (a : Lisp_Array) (es : list addr) :
  table_inv h a es -> heap_le h h' -> table_inv h' a es.
Proof.
  intros [Hlen Hcap Halloc Hes Hreach Hlook Hfree] Hle.
  constructor; auto.
  - eapply Forall_impl; [exact Halloc|]. intros x. apply allocated_heap_le, Hle.
  - eapply Forall_impl; [exact Hes|]. intros p [pr Hp].
    destruct (Hle p pr Hp) as (pr' & Hp' & _). eauto.
  - intros j x pr' Hj Hx.
    assert (Hax : allocated h (Some x))
      by (eapply Forall_lookup_1 in Halloc; [exact Halloc | exact Hj]).
    destruct (Hax x eq_refl) as [pr Hp].
    destruct (Hle x pr Hp) as (pr'' & Hp'' & E).
    rewrite Hx in Hp''. inversion Hp''; subst pr''. rewrite E.
    eapply Hreach; eauto.
  - intros name. rewrite probe_heap_le with (h := h);
      [| exact Hle | apply Forall_rotate_1; exact Halloc].
    rewrite linear_scan_heap_le with (h := h); auto.
Qed.

(** ** The invariant of a dictionary *)

Definition dict_inv (h : heap) (d : Lisp_Dict) : Prop :=
  (d_count d <= d_cap d)%nat /\ (4 <= d_cap d)%nat /\
  Forall (fun p => is_Some (h !! p)) (d_entries d) /\
  if decide (DICT_LOOKUP_COUNT < d_count d)%nat
  then exists a, d_table d = Some a /\ table_inv h a (d_entries d) /\
                 (d_cap d * 2 <= cap a)%nat
  else d_table d = None.

Lemma dict_inv_new (h : heap) (n : nat) : dict_inv h (lisp_dict_new n).
Proof.
  unfold dict_inv, lisp_dict_new, d_count, DICT_LOOKUP_COUNT. simpl.
  destruct (decide (4 < n)%nat); repeat split; try lia; constructor.
Qed.

Lemma dict_inv_heap_le (h h' : heap) (d : Lisp_Dict) :
  dict_inv h d -> heap_le h h' -> dict_inv h' d.
Proof.
  intros (Hc & Hcap & Hes & Ht) Hle. refine (conj Hc (conj Hcap (conj _ _))).
  - eapply Forall_impl; [exact Hes|]. intros p [pr Hp].
    destruct (Hle p pr Hp) as (pr' & Hp' & _). eauto.
  - destruct (decide (DICT_LOOKUP_COUNT < d_count d)%nat); [|exact Ht].
    destruct Ht as (a & Ha & Hinv & Hca). exists a.
    split; [exact Ha|]. split; [|exact Hca].
    eapply table_inv_heap_le; eauto.
Qed.

Lemma dict_inv_clear (h : heap) (d : Lisp_Dict) :
  dict_inv h d -> dict_inv h (lisp_dict_clear d).
Proof.
  intros (Hc & Hcap & Hes & Ht).
  unfold dict_inv, lisp_dict_clear, d_count, DICT_LOOKUP_COUNT. simpl.
  repeat split; try lia; constructor.
Qed.

(** On a dictionary that satisfies the invariant, [lisp_dict_assoc] is
    the linear scan, whichever branch it takes. *)
Lemma dict_assoc_linear (h : heap) (d : Lisp_Dict) (name : addr) :
  dict_inv h d ->
  lisp_dict_assoc h d name = Some (linear_scan h (d_entries d) name).
Proof.
  intros (Hc & Hcap & Hes & Ht). unfold lisp_dict_assoc.
  destruct (decide (DICT_LOOKUP_COUNT < d_count d)%nat); [|reflexivity].
  destruct Ht as (a & -> & Hinv & Hca). f_equal.
  rewrite lookup_probe by (apply Hinv). apply Hinv.
Qed.

Lemma lisp_array_push_inv (h : heap) (d : Lisp_Dict) (p : addr) :
  (d_count d <= d_cap d)%nat -> (4 <= d_cap d)%nat ->
  Forall (fun p => is_Some (h !! p)) (d_entries d) -> is_Some (h !! p) ->
  let d1 := lisp_array_push d p in
  d_count d1 = S (d_count d) /\ (d_count d1 <= d_cap d1)%nat /\
  (4 <= d_cap d1)%nat /\ Forall (fun p => is_Some (h !! p)) (d_entries d1) /\
  d_table d1 = d_table d /\ d_entries d1 = d_entries d ++ [p].
Proof.
  intros Hc Hcap Hes Hp. unfold lisp_array_push, d_count in *. simpl.
  rewrite length_app. simpl.
  destruct (decide (S (length (d_entries d)) = d_cap d));
    (split; [lia|]); (split; [lia|]); (split; [lia|]);
    (split; [|split; reflexivity]); apply Forall_app; split; auto.
Qed.

Lemma fresh_table_inv (h : heap) (es : list addr) (c : nat) :
  (4 <= c)%nat -> (length es < c)%nat ->
  Forall (fun p => is_Some (h !! p)) es ->
  exists t, fill_table h (lisp_array_new (c * 2)) es = Some t /\
            cap t = (c * 2)%nat /\ table_inv h t es.
Proof.
  intros Hc Hlen Hes.
  assert (Hcap : cap (lisp_array_new (c * 2)) = (c * 2)%nat)
    by (unfold lisp_array_new; simpl; rewrite decide_True by lia; reflexivity).
  destruct (fill_table_inv h es [] (lisp_array_new (c * 2)))
    as (t & Ht1 & Ht2 & Ht3).
  - apply table_inv_empty. lia.
  - rewrite Hcap. simpl. lia.
  - exact Hes.
  - exists t. split; [exact Ht1|]. split; [congruence | exact Ht3].
Qed.

Lemma dict_add_item_inv (h : heap) (d : Lisp_Dict) (p : addr) :
  dict_inv h d -> is_Some (h !! p) ->
  exists d', lisp_dict_add_item h d p = Some d' /\ dict_inv h d'.
Proof.
  intros (Hc & Hcap & Hes & Ht) Hp.
  unfold lisp_dict_add_item.
  rewrite decide_False by (destruct Hp; congruence).
  destruct (lisp_array_push_inv h d p Hc Hcap Hes Hp)
    as (Hcount1 & Hc1 & Hcap1 & Hes1 & Htab1 & Hent1).
  remember (lisp_array_push d p) as d1 eqn:Ed1. clear Ed1.
  assert (Hlen1 : (length (d_entries d1) < d_cap d1)%nat)
    by (unfold d_count in Hc1; lia).
  destruct (fresh_table_inv h (d_entries d1) (d_cap d1) Hcap1 Hlen1 Hes1)
    as (t & Hfill & Hct & Hinv).
  assert (Hbuilt : (DICT_LOOKUP_COUNT < d_count d1)%nat ->
    dict_inv h {| d_cap := d_cap d1; d_table := Some t; d_entries := d_entries d1 |}).
  { intros Hbig. unfold dict_inv, d_count in *. simpl.
    refine (conj Hc1 (conj Hcap1 (conj Hes1 _))).
    rewrite decide_True by exact Hbig.
    exists t. split; [reflexivity|]. split; [exact Hinv | lia]. }
  destruct (decide (DICT_LOOKUP_COUNT < d_count d1)%nat) as [Hbig|Hsmall].
  - destruct (d_table d1) as [table|] eqn:Etab.
    + destruct (bool_decide (cap table < d_cap d1 * 2)%nat) eqn:Ereb.
      * rewrite Hfill. eexists. split; [reflexivity | auto].
      * apply bool_decide_eq_false in Ereb.
        destruct (decide (DICT_LOOKUP_COUNT < d_count d)%nat) as [Hb|Hs];
          [|congruence].
        destruct Ht as (a & Ha & Hinva & Hca).
        assert (table = a) by congruence. subst table.
        destruct Hp as [pr Hp].
        destruct (table_add h a (d_entries d) p pr Hinva) as (a' & Ha' & Hc' & Hinv');
          [unfold d_count in Hc; lia | exact Hp |].
        rewrite Ha'. eexists. split; [reflexivity|].
        unfold dict_inv, d_count in *. simpl.
        refine (conj Hc1 (conj Hcap1 (conj Hes1 _))).
        rewrite decide_True by exact Hbig.
        exists a'. split; [reflexivity|]. split; [|lia].
        rewrite Hent1. exact Hinv'.
    + rewrite Hfill. eexists. split; [reflexivity | auto].
  - exists d1. split; [reflexivity|]. unfold dict_inv.
    refine (conj Hc1 (conj Hcap1 (conj Hes1 _))).
    rewrite decide_False by exact Hsmall.
    rewrite decide_False in Ht by lia. congruence.
Qed.

Lemma lisp_dict_add_inv (h : heap) (d : Lisp_Dict) (name val : addr) :
  dict_inv h d ->
  exists h' d', lisp_dict_add h d name val = Some (h', d') /\ dict_inv h' d'.
Proof.
  intros Hinv. unfold lisp_dict_add.
  pose proof (heap_le_pair_new h name val) as Hle.
  destruct (lisp_pair_new h name val) as [p h'] eqn:Enew. simpl in Hle.
  assert (Hp : is_Some (h' !! p)).
  { unfold lisp_pair_new in Enew. inversion Enew; subst.
    rewrite lookup_insert_eq. eauto. }
  destruct (dict_add_item_inv h' d p (dict_inv_heap_le h h' d Hinv Hle) Hp)
    as (d' & Hadd & Hinv').
  rewrite Hadd. eauto.
Qed.

(** Every operation keeps the invariant, and the only one that can stop
    is [lisp_dict_add_item] on a pointer to no object. *)
Lemma run_op_inv (h : heap) (d : Lisp_Dict) (op : dict_op) :
  dict_inv h d ->
  match run_op (h, d) op with
  | Some (h', d') => dict_inv h' d'
  | None => exists p, op = OpAddItem p /\ h !! p = None
  end.
Proof.
  intros Hinv. destruct op as [name val|p|name val|name|]; simpl.
  - destruct (lisp_dict_add_inv h d name val Hinv) as (h' & d' & -> & H). exact H.
  - destruct (h !! p) as [pr|] eqn:Hp.
    + destruct (dict_add_item_inv h d p Hinv (mk_is_Some _ _ Hp)) as (d' & -> & H).
      exact H.
    + unfold lisp_dict_add_item. rewrite decide_True by exact Hp. eauto.
  - unfold dict_set. rewrite dict_assoc_linear by exact Hinv.
    destruct (linear_scan h (d_entries d) name) as [p|].
    + eapply dict_inv_heap_le; [exact Hinv | apply heap_le_set_cdr].
    + destruct (lisp_dict_add_inv h d name val Hinv) as (h' & d' & -> & H). exact H.
  - unfold lisp_dict_remove. rewrite dict_assoc_linear by exact Hinv.
    destruct (linear_scan h (d_entries d) name) as [p|].
    + eapply dict_inv_heap_le; [exact Hinv | apply heap_le_set_cdr].
    + exact Hinv.
  - apply dict_inv_clear. exact Hinv.
Qed.

Lemma run_ops_inv (ops : list dict_op) :
  forall (h : heap) (d : Lisp_Dict) (h' : heap) (d' : Lisp_Dict),
  dict_inv h d -> run_ops (h, d) ops = Some (h', d') -> dict_inv h' d'.
Proof.
  induction ops as [|op ops IH]; intros h d h' d' Hinv Hrun; cbn [run_ops] in Hrun.
  - inversion Hrun; subst. exact Hinv.
  - pose proof (run_op_inv h d op Hinv) as Hop.
    destruct (run_op (h, d) op) as [[h1 d1]|]; [|discriminate Hrun].
    eapply IH; eauto.
Qed.


(** The asserts of the dictionary code never fire: a sequence of
    operations stops only at [lisp_dict_add_item] with a pointer to no
    object. *)
Lemma run_ops_defined (ops : list dict_op) :
  forall (h : heap) (d : Lisp_Dict),
  dict_inv h d ->
  Forall (fun op => forall p, op <> OpAddItem p) ops ->
  is_Some (run_ops (h, d) ops).
Proof.
  induction ops as [|op ops IH]; intros h d Hinv Hops; cbn [run_ops]; [eauto|].
  inversion Hops as [|? ? Hop Hops']; subst.
  pose proof (run_op_inv h d op Hinv) as H.
  destruct (run_op (h, d) op) as [[h1 d1]|].
  - apply IH; assumption.
  - destruct H as (p & -> & _). exfalso. eapply Hop. reflexivity.
Qed.

(** ** Reading and writing entries *)

(** The case [S_DICT_GET] of [apply_primitive]: the value of the pair
    that [lisp_dict_assoc] finds, or [undefined]. *)
Definition dict_get (h : heap) (d : Lisp_Dict) (name : addr) : option addr :=
  match lisp_dict_assoc h d name with
  | Some (Some p) => cdr <$> h !! p
  | Some None => Some LISP_UNDEF
  | None => None
  end.

(** The dictionaries that the operations build. *)
Definition built (h : heap) (d : Lisp_Dict) : Prop :=
  exists h0 n ops, run_ops (h0, lisp_dict_new n) ops = Some (h, d).

Lemma built_inv (h : heap) (d : Lisp_Dict) : built h d -> dict_inv h d.
Proof.
  intros (h0 & n & ops & Hrun).
  eapply run_ops_inv; [apply dict_inv_new | exact Hrun].
Qed.

Lemma linear_scan_Some (h : heap) (es : list addr) (name p : addr) :
  linear_scan h es name = Some p ->
  p ∈ es /\ exists pr, h !! p = Some pr /\ car pr = name.
Proof.
  induction es as [|q es IH]; simpl; [discriminate|].
  destruct (h !! q) as [pr|] eqn:Hq; [|discriminate].
  destruct (decide (name = car pr)) as [->|Hne]; intros H.
  - inversion H; subst. split; [left | eauto].
  - destruct (IH H) as [Hin Hpr]. split; [right; exact Hin | exact Hpr].
Qed.

Lemma linear_scan_None (h : heap) (es : list addr) (name : addr) :
  Forall (fun p => exists pr, h !! p = Some pr /\ car pr <> name) es ->
  linear_scan h es name = None.
Proof.
  induction 1 as [|p es (pr & Hp & Hne) _ IH]; simpl; [reflexivity|].
  rewrite Hp. rewrite decide_False by congruence. exact IH.
Qed.

Lemma dict_add_item_entries (h : heap) (d d' : Lisp_Dict) (p : addr) :
  lisp_dict_add_item h d p = Some d' -> d_entries d' = d_entries d ++ [p].
Proof.
  unfold lisp_dict_add_item.
  destruct (decide (h !! p = None)); [discriminate|].
  destruct (decide (DICT_LOOKUP_COUNT < d_count (lisp_array_push d p))%nat).
  - destruct (if match d_table (lisp_array_push d p) with
                 | Some table =>
                     bool_decide (cap table < d_cap (lisp_array_push d p) * 2)%nat
                 | None => true
                 end
              then _ else _); intros H; inversion H; reflexivity.
  - intros H; inversion H; reflexivity.
Qed.

(** What [lisp_dict_add] does to a dictionary that was built: the new
    pair comes last. *)
Lemma lisp_dict_add_spec (h : heap) (d : Lisp_Dict) (name val : addr) :
  dict_inv h d ->
  exists d',
    let p := fresh (dom h) in
    let h' := <[p := {| car := name; cdr := val |}]> h in
    lisp_dict_add h d name val = Some (h', d') /\ dict_inv h' d' /\
    d_entries d' = d_entries d ++ [p] /\ h !! p = None /\ heap_le h h'.
Proof.
  intros Hinv.
  destruct (lisp_dict_add_inv h d name val Hinv) as (h' & d' & Hadd & Hinv').
  pose proof (heap_le_pair_new h name val) as Hle.
  unfold lisp_dict_add, lisp_pair_new in *. simpl in Hle.
  destruct (lisp_dict_add_item _ d (fresh (dom h))) as [d1|] eqn:Hitem;
    [|discriminate].
  inversion Hadd; subst. exists d'. cbv zeta.
  split; [reflexivity|]. split; [exact Hinv'|].
  split; [eapply dict_add_item_entries; exact Hitem|].
  split; [|exact Hle].
  apply not_elem_of_dom. apply is_fresh.
Qed.

(** [dict_get] on a dictionary that was built reads the first entry with
    the key, in the order of insertion. *)
Lemma dict_get_scan (h : heap) (d : Lisp_Dict) (name : addr) :
  dict_inv h d ->
  dict_get h d name =
  match linear_scan h (d_entries d) name with
  | Some p => cdr <$> h !! p
  | None => Some LISP_UNDEF
  end.
Proof.
  intros Hinv. unfold dict_get. rewrite dict_assoc_linear by exact Hinv.
  reflexivity.
Qed.

Lemma set_cdr_lookup (h : heap) (p v q : addr) :
  set_cdr h p v !! q =
  if decide (p = q)
  then (fun pr => {| car := car pr; cdr := v |}) <$> h !! p
  else h !! q.
Proof.
  unfold set_cdr. destruct (decide (p = q)) as [<-|Hne].
  - destruct (h !! p) as [pr|] eqn:Hp.
    + rewrite lookup_insert_eq. reflexivity.
    + rewrite Hp. reflexivity.
  - destruct (h !! p) as [pr|]; [|reflexivity].
    rewrite lookup_insert_ne by exact Hne. reflexivity.
Qed.

Lemma dict_inv_entries (h : heap) (d : Lisp_Dict) :
  dict_inv h d -> Forall (fun p => is_Some (h !! p)) (d_entries d).
Proof. intros (_ & _ & H & _). exact H. Qed.


Lemma built_step (h : heap) (d : Lisp_Dict) (op : dict_op) (h' : heap)
    (d' : Lisp_Dict) :
  built h d -> run_op (h, d) op = Some (h', d') -> built h' d'.
Proof.
  intros (h0 & n & ops & Hrun) Hop. exists h0, n, (ops ++ [op]).
  revert Hrun. generalize (h0, lisp_dict_new n).
  induction ops as [|o ops IH]; intros st Hrun; cbn [run_ops app] in *.
  - inversion Hrun; subst. rewrite Hop. reflexivity.
  - destruct (run_op st o) as [st'|]; [|discriminate]. apply IH. exact Hrun.
Qed.





End WithSymbols.

(** Twelve insertions under five keys, the first key removed: the index
    is in use and answers as the scan does. *)
Definition example_symbol_buf (a : addr) : list Z := [Zpos a; 65].

Definition example_ops : list dict_op :=
  map (fun k => OpAdd (Pos.of_nat (100 + k mod 5)) (Pos.of_nat (200 + k))) (seq 0 12)
  ++ [OpRemove 100%positive].

Definition example_state : option (gmap positive Lisp_Pair * Lisp_Dict) :=
  run_ops example_symbol_buf (∅, lisp_dict_new 8) example_ops.


Lemma example_built :
  forall h d, example_state = Some (h, d) -> built example_symbol_buf h d.
Proof. intros h d E. exists ∅, 8%nat, example_ops. exact E. Qed.






End Dict.


(** * The collector: [mark], [gc] and the sweep *)

(** What a run of the model can end in: a value, a stop of the process (a
    failed [assert], or a pointer to no object), or no fuel left. *)
Inductive outcome (A : Type) : Type :=
| Ret (v : A)
| Crash
| Timeout.

Arguments Ret {A} v.
Arguments Crash {A}.
Arguments Timeout {A}.

Definition obind {A B} (m : outcome A) (k : A -> outcome B) : outcome B :=
  match m with
  | Ret v => k v
  | Crash => Crash
  | Timeout => Timeout
  end.

Module GC.

Abbreviation addr := positive (only parsing).

(** The objects of the heap, by their type tag, with the pointers that
    each [struct] holds; [None] is [NULL].  An array carries [items[0]] to
    [items[count - 1]]; a dictionary is an array whose [items[0]] is the
    lookup array.  The [mark] callback of an extension class or of a
    stream class is the list of objects it passes to [lisp_mark], [None]
    where [ptr] (or [context]), the class or its callback is missing. *)
Inductive payload :=
| Buffer
| Symbol
| String
| Number
| Pair (mapping : option addr) (car cdr : option addr)
| Array (items : list (option addr))
| Dict (items : list (option addr))
| Env (bindings parent : option addr)
| Proc (is_macro : bool) (env lambda : option addr)
| NativeProc (env name : option addr)
| ObjectEx (mark_callback : option (list addr))
| Port (iobuf name stream src_file : option addr)
| Stream (cls : bool) (mark_callback : option (list addr))
| SourceFile (mappings path : option addr)
| SourceMapping (file expr : option addr).

Record Lisp_Object := { marked : bool; body : payload }.

Abbreviation heap := (gmap positive Lisp_Object) (only parsing).

(** The roots and the pool of a VM. *)
Record Lisp_VM := {
  pool : list addr;
  stack : option addr;
  env : option addr;
  root_env : option addr;
  input : option addr;
  output : option addr;
  error : option addr;
  token : option addr;
  last_eval : option addr;
  symbols : option addr;
  source_files : option addr;
  keep_alive_pool : option addr
}.

Definition set_marked (b : bool) (o : Lisp_Object) : Lisp_Object :=
  {| marked := b; body := body o |}.

(** A pointer handed to [mark (x)], which asserts that it is not [NULL],
    and one guarded by [if (x)] or taken around the loop, which may be. *)
Definition strict (x : option addr) : bool * option addr := (true, x).
Definition if_set (x : option addr) : bool * option addr := (false, x).

(** A run of calls of [mark], in order. *)
Fixpoint mark_seq (mark : gmap positive Lisp_Object -> option addr ->
                          outcome (gmap positive Lisp_Object))
    (h : gmap positive Lisp_Object) (l : list (bool * option addr))
  : outcome (gmap positive Lisp_Object) :=
  match l with
  | [] => Ret h
  | (must, x) :: rest =>
      match must, x with
      | true, None => Crash
      | _, _ => obind (mark h x) (fun h' => mark_seq mark h' rest)
      end
  end.

(** [a->items[0]->marked = 1]: the lookup array is marked and not
    entered. *)
Definition mark_shallow (h : gmap positive Lisp_Object) (t : addr)
  : outcome (gmap positive Lisp_Object) :=
  match h !! t with
  | Some o => Ret (<[t := set_marked true o]> h)
  | None => Crash
  end.

(** [mark] from its label [Loop] on: [NULL] and a marked object return at
    once.  [fuel] bounds the depth of the calls. *)
Fixpoint mark_loop (fuel : nat) (h : gmap positive Lisp_Object) (x : option addr)
  : outcome (gmap positive Lisp_Object) :=
  match fuel with
  | O => Timeout
  | S f =>
      match x with
      | None => Ret h
      | Some a =>
          match h !! a with
          | None => Crash
          | Some obj =>
              if marked obj then Ret h else
              let h := <[a := set_marked true obj]> h in
              let mark := mark_seq (mark_loop f) in
              match body obj with
              | Dict items =>
                  match items with
                  | [] => Crash
                  | slot0 :: entries =>
                      obind (match slot0 with
                             | Some t => mark_shallow h t
                             | None => Ret h
                             end)
                            (fun h => mark h (strict <$> entries))
                  end
              | Array items => mark h (strict <$> items)
              | NativeProc env name => mark h [strict env; strict name]
              | Proc _ env lambda => mark h [strict env; strict lambda]
              | Pair mapping car cdr =>
                  mark h [if_set mapping; strict car; if_set cdr]
              | Env bindings parent => mark h [if_set bindings; if_set parent]
              | ObjectEx callback =>
                  match callback with
                  | Some l => mark h (((fun y => strict (Some y)) <$> l))
                  | None => Ret h
                  end
              | Port iobuf name stream _ =>
                  mark h [if_set iobuf; if_set name; if_set stream]
              | Stream cls callback =>
                  if cls then
                    match callback with
                    | Some l => mark h (((fun y => strict (Some y)) <$> l))
                    | None => Ret h
                    end
                  else Crash
              | SourceFile mappings path => mark h [if_set mappings; if_set path]
              | SourceMapping file expr => mark h [strict file; if_set expr]
              | Buffer | Symbol | String | Number => Ret h
              end
          end
      end
  end.

(** [mark]: the [assert (_obj)], then the loop. *)
Definition mark (fuel : nat) (h : gmap positive Lisp_Object) (x : option addr)
  : outcome (gmap positive Lisp_Object) :=
  match x with
  | None => Crash
  | Some _ => mark_loop fuel h x
  end.

(** The first loop of [gc]: [vm->pool->items[i]->marked = 0]. *)
Fixpoint clear_marks (h : gmap positive Lisp_Object) (l : list addr)
  : outcome (gmap positive Lisp_Object) :=
  match l with
  | [] => Ret h
  | a :: rest =>
      match h !! a with
      | Some o => clear_marks (<[a := set_marked false o]> h) rest
      | None => Crash
      end
  end.

(** [lisp_stream_close]: [assert(stream->cls)], then the context is
    released and set to [NULL], so no [mark] callback runs for the stream
    any more. *)
Definition lisp_stream_close (o : Lisp_Object) : outcome Lisp_Object :=
  match body o with
  | Stream true _ => Ret {| marked := marked o; body := Stream true None |}
  | Stream false _ => Crash
  | _ => Ret o
  end.

(** [delete_obj]: a port closes its stream ([lisp_port_close]), which
    has to be allocated still; a stream is closed; and the block of the
    object is freed. *)
Definition delete_obj (h : gmap positive Lisp_Object) (a : addr) (o : Lisp_Object)
  : outcome (gmap positive Lisp_Object) :=
  obind
    match body o with
    | Port _ _ (Some s) _ =>
        match h !! s with
        | Some so => obind (lisp_stream_close so) (fun so' => Ret (<[s := so']> h))
        | None => Crash
        end
    | Stream false _ => Crash
    | _ => Ret h
    end
    (fun h => Ret (delete a h)).

(** The second loop of [gc]: unmarked objects are deleted, the others are
    moved down in the pool. *)
Fixpoint sweep (h : gmap positive Lisp_Object) (l : list addr)
  : outcome (list addr * gmap positive Lisp_Object) :=
  match l with
  | [] => Ret ([], h)
  | a :: rest =>
      match h !! a with
      | None => Crash
      | Some o =>
          if marked o then
            obind (sweep h rest) (fun '(kept, h') => Ret (a :: kept, h'))
          else obind (delete_obj h a o) (fun h' => sweep h' rest)
      end
  end.

(** The roots, in the order [gc] marks them. *)
Definition roots (vm : Lisp_VM) : list (option addr) :=
  [stack vm; env vm; root_env vm; input vm; output vm; error vm; token vm;
   last_eval vm; symbols vm; source_files vm; keep_alive_pool vm].

Definition with_pool (vm : Lisp_VM) (p : list addr) : Lisp_VM :=
  {| pool := p; stack := stack vm; env := env vm; root_env := root_env vm;
     input := input vm; output := output vm; error := error vm;
     token := token vm; last_eval := last_eval vm; symbols := symbols vm;
     source_files := source_files vm; keep_alive_pool := keep_alive_pool vm |}.

Definition gc (fuel : nat) (vm : Lisp_VM) (h : gmap positive Lisp_Object)
  : outcome (Lisp_VM * gmap positive Lisp_Object) :=
  obind (clear_marks h (pool vm)) (fun h =>
  obind (mark_seq (mark_loop fuel) h (strict <$> roots vm)) (fun h =>
  obind (sweep h (pool vm)) (fun '(kept, h) =>
  Ret (with_pool vm kept, h)))).

(** ** Reachability *)

(** The objects [mark] goes to from an object: every object pointer of
    the [struct], [src_file] of a port apart (a source file is held by the
    table [source_files] of the VM). *)
Definition children (o : Lisp_Object) : list addr :=
  match body o with
  | Pair mapping car cdr => omap id [mapping; car; cdr]
  | Array items => omap id items
  | Dict items => omap id items
  | Env bindings parent => omap id [bindings; parent]
  | Proc _ env lambda => omap id [env; lambda]
  | NativeProc env name => omap id [env; name]
  | ObjectEx callback => default [] callback
  | Port iobuf name stream _ => omap id [iobuf; name; stream]
  | Stream _ callback => default [] callback
  | SourceFile mappings path => omap id [mappings; path]
  | SourceMapping file expr => omap id [file; expr]
  | Buffer | Symbol | String | Number => []
  end.

Definition child (h : gmap positive Lisp_Object) (a c : addr) : Prop :=
  exists o, h !! a = Some o /\ c ∈ children o.

(** Reachable from one of the roots [rs]. *)
Definition reachable (h : gmap positive Lisp_Object) (rs : list (option addr))
    (x : addr) : Prop :=
  exists r, Some r ∈ rs /\ rtc (child h) r x.

(** ** What [mark] changes *)

Definition is_marked (h : gmap positive Lisp_Object) (a : addr) : Prop :=
  exists o, h !! a = Some o /\ marked o = true.

(** [h'] has the objects of [h], with their pointers, and marks that [h]
    has stay. *)
Definition same_bodies (h h' : gmap positive Lisp_Object) : Prop :=
  forall a,
    match h !! a, h' !! a with
    | Some o, Some o' => body o = body o' /\ (marked o = true -> marked o' = true)
    | None, None => True
    | _, _ => False
    end.

Lemma same_bodies_refl h : same_bodies h h.
Proof. intros a. destruct (h !! a); auto. Qed.

Lemma same_bodies_trans h1 h2 h3 :
  same_bodies h1 h2 -> same_bodies h2 h3 -> same_bodies h1 h3.
Proof.
  intros H12 H23 a. specialize (H12 a). specialize (H23 a).
  destruct (h1 !! a), (h2 !! a), (h3 !! a); try tauto.
  destruct H12, H23. split; [congruence | auto].
Qed.

Lemma same_bodies_set_marked h a o :
  h !! a = Some o -> same_bodies h (<[a := set_marked true o]> h).
Proof.
  intros Ha b. destruct (decide (a = b)) as [->|Hne].
  - rewrite lookup_insert_eq, Ha. simpl. auto.
  - rewrite lookup_insert_ne by exact Hne. destruct (h !! b); auto.
Qed.

Lemma same_bodies_lookup h h' a o :
  same_bodies h h' -> h !! a = Some o ->
  exists o', h' !! a = Some o' /\ body o' = body o /\
             (marked o = true -> marked o' = true).
Proof.
  intros H Ha. specialize (H a). rewrite Ha in H.
  destruct (h' !! a) as [o'|]; [|contradiction].
  destruct H. exists o'. auto.
Qed.

Lemma same_bodies_lookup_rev h h' a o' :
  same_bodies h h' -> h' !! a = Some o' ->
  exists o, h !! a = Some o /\ body o' = body o.
Proof.
  intros H Ha. specialize (H a). rewrite Ha in H.
  destruct (h !! a) as [o|]; [|contradiction].
  destruct H. exists o. auto.
Qed.

Lemma children_body o o' : body o = body o' -> children o = children o'.
Proof. unfold children. intros ->. reflexivity. Qed.

Lemma child_same_bodies h h' a c :
  same_bodies h h' -> (child h a c <-> child h' a c).
Proof.
  intros H. split; intros (o & Ho & Hc).
  - destruct (same_bodies_lookup _ _ _ _ H Ho) as (o' & Ho' & Hb & _).
    exists o'. split; [exact Ho'|]. rewrite (children_body o' o Hb). exact Hc.
  - destruct (same_bodies_lookup_rev _ _ _ _ H Ho) as (o0 & Ho0 & Hb).
    exists o0. split; [exact Ho0|]. rewrite <- (children_body o o0 Hb). exact Hc.
Qed.

Lemma rtc_child_same_bodies h h' a c :
  same_bodies h h' -> (rtc (child h) a c <-> rtc (child h') a c).
Proof.
  intros H. split; intros Hr; induction Hr as [|x y z Hxy _ IH].
  - apply rtc_refl.
  - eapply rtc_l; [|exact IH]. apply (child_same_bodies h h'); assumption.
  - apply rtc_refl.
  - eapply rtc_l; [|exact IH]. apply (child_same_bodies h h'); assumption.
Qed.

Lemma is_marked_same_bodies h h' a :
  same_bodies h h' -> is_marked h a -> is_marked h' a.
Proof.
  intros H (o & Ho & Hm).
  destruct (same_bodies_lookup _ _ _ _ H Ho) as (o' & Ho' & _ & Hm').
  exists o'. auto.
Qed.

(** ** [mark_loop], one level unfolded *)

(** What [mark] does before it goes to the pointers of an object. *)
Definition pre_step (h : gmap positive Lisp_Object) (b : payload)
  : outcome (gmap positive Lisp_Object) :=
  match b with
  | Dict [] => Crash
  | Dict (Some t :: _) => mark_shallow h t
  | Stream false _ => Crash
  | _ => Ret h
  end.

(** The pointers [mark] goes to, in order. *)
Definition targets (b : payload) : list (bool * option addr) :=
  match b with
  | Dict items => strict <$> tail items
  | Array items => strict <$> items
  | NativeProc env name => [strict env; strict name]
  | Proc _ env lambda => [strict env; strict lambda]
  | Pair mapping car cdr => [if_set mapping; strict car; if_set cdr]
  | Env bindings parent => [if_set bindings; if_set parent]
  | ObjectEx callback => (fun y => strict (Some y)) <$> default [] callback
  | Port iobuf name stream _ => [if_set iobuf; if_set name; if_set stream]
  | Stream _ callback => (fun y => strict (Some y)) <$> default [] callback
  | SourceFile mappings path => [if_set mappings; if_set path]
  | SourceMapping file expr => [strict file; if_set expr]
  | Buffer | Symbol | String | Number => []
  end.

Lemma mark_loop_S f h a :
  mark_loop (S f) h (Some a) =
  match h !! a with
  | None => Crash
  | Some obj =>
      if marked obj then Ret h else
      obind (pre_step (<[a := set_marked true obj]> h) (body obj))
            (fun h2 => mark_seq (mark_loop f) h2 (targets (body obj)))
  end.
Proof.
  simpl. destruct (h !! a) as [obj|]; [|reflexivity].
  destruct (marked obj); [reflexivity|].
  destruct (body obj) as [| | | | m ca cd | items | items | b pa | mac e l | e n
                          | cb | io na st sf | cls cb | mp pa | fi ex];
    try reflexivity.
  - destruct items as [|[t|] entries]; reflexivity.
  - destruct cb; reflexivity.
  - destruct cls, cb; reflexivity.
Qed.

Lemma elem_of_omap_id (l : list (option addr)) (c : addr) :
  c ∈ omap id l <-> Some c ∈ l.
Proof.
  rewrite list_elem_of_omap. split.
  - intros (x & Hx & Hc). destruct x; simpl in Hc; [|discriminate].
    inversion Hc; subst. exact Hx.
  - intros H. exists (Some c). auto.
Qed.

Ltac pick_elem :=
  repeat first [apply list_elem_of_here | apply list_elem_of_further].

(** The children of an object are the pointers [mark] goes to, and the
    lookup array of a dictionary. *)
Lemma targets_children o s c :
  (s, Some c) ∈ targets (body o) -> c ∈ children o.
Proof.
  unfold children, targets, strict, if_set.
  destruct (body o) as [| | | | m ca cd | items | items | b pa | mac e l | e n
                        | cb | io na st sf | cls cb | mp pa | fi ex];
    intros H; rewrite ?elem_of_omap_id;
    try (apply elem_of_nil in H; contradiction);
    try (apply list_elem_of_fmap in H as (x & Hx & Hin); inversion Hx; subst;
         first [exact Hin | destruct items; [apply elem_of_nil in Hin; contradiction
                                            | apply elem_of_cons; right; exact Hin]]);
    repeat (apply elem_of_cons in H as [H|H];
            [inversion H; subst; pick_elem|]);
    try (apply elem_of_nil in H; contradiction).
Qed.

Lemma children_targets o c :
  c ∈ children o ->
  (exists s, (s, Some c) ∈ targets (body o)) \/
  (exists rest, body o = Dict (Some c :: rest)).
Proof.
  unfold children, targets, strict, if_set.
  destruct (body o) as [| | | | m ca cd | items | items | b pa | mac e l | e n
                        | cb | io na st sf | cls cb | mp pa | fi ex];
    rewrite ?elem_of_omap_id; intros H;
    try (apply elem_of_nil in H; contradiction).
  - left. repeat (apply elem_of_cons in H as [H|H];
                  [rewrite <- H; eexists; pick_elem|]).
    apply elem_of_nil in H; contradiction.
  - left. exists true. apply list_elem_of_fmap. exists (Some c). auto.
  - destruct items as [|x entries]; [apply elem_of_nil in H; contradiction|].
    apply elem_of_cons in H as [H|H].
    + right. exists entries. subst. reflexivity.
    + left. exists true. simpl. apply list_elem_of_fmap. exists (Some c). auto.
  - left. repeat (apply elem_of_cons in H as [H|H];
                  [rewrite <- H; eexists; pick_elem|]).
    apply elem_of_nil in H; contradiction.
  - left. repeat (apply elem_of_cons in H as [H|H];
                  [rewrite <- H; eexists; pick_elem|]).
    apply elem_of_nil in H; contradiction.
  - left. repeat (apply elem_of_cons in H as [H|H];
                  [rewrite <- H; eexists; pick_elem|]).
    apply elem_of_nil in H; contradiction.
  - left. exists true. apply list_elem_of_fmap. exists c. auto.
  - left. repeat (apply elem_of_cons in H as [H|H];
                  [rewrite <- H; eexists; pick_elem|]).
    apply elem_of_nil in H; contradiction.
  - left. exists true. apply list_elem_of_fmap. exists c. auto.
  - left. repeat (apply elem_of_cons in H as [H|H];
                  [rewrite <- H; eexists; pick_elem|]).
    apply elem_of_nil in H; contradiction.
  - left. repeat (apply elem_of_cons in H as [H|H];
                  [rewrite <- H; eexists; pick_elem|]).
    apply elem_of_nil in H; contradiction.
Qed.

Lemma slot0_child o c rest : body o = Dict (Some c :: rest) -> c ∈ children o.
Proof.
  unfold children. intros ->. apply elem_of_omap_id. apply elem_of_cons. auto.
Qed.

(** ** The invariant of marking

    Among the objects of the pool, every marked object that is not grey
    (entered and not yet left) has all its children marked.  The lookup
    array of a dictionary is marked without being entered; this is sound
    because it has no children ([dict_ok]). *)

Section MarkSpec.

Variable in_pool : addr -> Prop.

Definition inv (G : addr -> Prop) (h : gmap positive Lisp_Object) : Prop :=
  forall a o c,
    in_pool a -> ~ G a -> h !! a = Some o -> marked o = true ->
    c ∈ children o -> is_marked h c.

Definition dict_ok (h : gmap positive Lisp_Object) : Prop :=
  forall a o t rest,
    h !! a = Some o -> body o = Dict (Some t :: rest) ->
    exists ot, h !! t = Some ot /\ children ot = [].

Lemma dict_ok_same_bodies h h' : same_bodies h h' -> dict_ok h -> dict_ok h'.
Proof.
  intros Hs Hd a o' t rest Ha Hb.
  destruct (same_bodies_lookup_rev _ _ _ _ Hs Ha) as (o & Ho & Hbo).
  destruct (Hd a o t rest Ho) as (ot & Hot & Hc); [congruence|].
  destruct (same_bodies_lookup _ _ _ _ Hs Hot) as (ot' & Hot' & Hbt & _).
  exists ot'. split; [exact Hot'|]. rewrite (children_body ot' ot Hbt). exact Hc.
Qed.

Lemma is_marked_set_marked h t ot : is_marked (<[t := set_marked true ot]> h) t.
Proof. exists (set_marked true ot). rewrite lookup_insert_eq. auto. Qed.

Lemma is_marked_insert_inv h t ot y :
  is_marked (<[t := set_marked true ot]> h) y -> is_marked h y \/ y = t.
Proof.
  intros (o & Ho & Hm). destruct (decide (t = y)) as [->|Hne]; [auto|].
  rewrite lookup_insert_ne in Ho by exact Hne. left. exists o. auto.
Qed.

Lemma inv_set_marked (G : addr -> Prop) h t ot :
  h !! t = Some ot -> children ot = [] \/ G t ->
  inv G h -> inv G (<[t := set_marked true ot]> h).
Proof.
  intros Ht Hcase Hinv a o c Hp HG Ha Hm Hc.
  pose proof (same_bodies_set_marked h t ot Ht) as Hsb.
  destruct (decide (t = a)) as [->|Hne].
  - rewrite lookup_insert_eq in Ha. inversion Ha; subst o.
    destruct Hcase as [Hnil|HGt]; [|contradiction].
    rewrite (children_body (set_marked true ot) ot eq_refl), Hnil in Hc.
    apply elem_of_nil in Hc. contradiction.
  - rewrite lookup_insert_ne in Ha by exact Hne.
    eapply is_marked_same_bodies; [exact Hsb|]. eapply Hinv; eauto.
Qed.

(** What a call of [mark] (or a run of calls) from the pointers [srcs]
    guarantees. *)
Record mark_post (h : gmap positive Lisp_Object) (srcs : addr -> Prop)
    (h' : gmap positive Lisp_Object) : Prop := {
  mp_bodies : same_bodies h h';
  mp_marked : forall a, srcs a -> is_marked h' a;
  mp_inv : forall G, inv G h -> inv G h';
  mp_sound : forall y, is_marked h' y ->
    is_marked h y \/ exists a, srcs a /\ rtc (child h) a y
}.

Definition mark_spec (rec : gmap positive Lisp_Object -> option addr ->
                            outcome (gmap positive Lisp_Object)) : Prop :=
  forall h x h', dict_ok h -> rec h x = Ret h' ->
    mark_post h (fun a => x = Some a) h'.

Lemma mark_seq_spec rec :
  mark_spec rec ->
  forall l h h', dict_ok h -> mark_seq rec h l = Ret h' ->
    mark_post h (fun a => exists s, (s, Some a) ∈ l) h'.
Proof.
  intros Hrec. induction l as [|[must x] rest IH]; intros h h' Hd Hrun; simpl in Hrun.
  - inversion Hrun; subst. constructor.
    + apply same_bodies_refl.
    + intros a [s Hs]. apply elem_of_nil in Hs. contradiction.
    + auto.
    + auto.
  - assert (Hrun' : obind (rec h x) (fun h1 => mark_seq rec h1 rest) = Ret h')
      by (destruct must, x; first [exact Hrun | discriminate Hrun]).
    destruct (rec h x) as [h1| |] eqn:E1; simpl in Hrun'; try discriminate.
    destruct (Hrec h x h1 Hd E1) as [B1 M1 I1 S1].
    assert (Hd1 : dict_ok h1) by (eapply dict_ok_same_bodies; eauto).
    destruct (IH h1 h' Hd1 Hrun') as [B2 M2 I2 S2].
    constructor.
    + eapply same_bodies_trans; eauto.
    + intros a [s Hs]. apply elem_of_cons in Hs as [Hs|Hs].
      * inversion Hs; subst. eapply is_marked_same_bodies; [exact B2|]. auto.
      * apply M2. eauto.
    + auto.
    + intros y Hy. destruct (S2 y Hy) as [Hy1|(a & [s Hs] & Hr)].
      * destruct (S1 y Hy1) as [Hy0|(a & -> & Hr)]; [auto|].
        right. exists a. split; [|exact Hr]. exists must. apply elem_of_cons. auto.
      * right. exists a. split; [exists s; apply elem_of_cons; auto|].
        apply (rtc_child_same_bodies h h1); assumption.
Qed.

Lemma pre_step_spec h a obj h2 :
  dict_ok h -> h !! a = Some obj ->
  pre_step (<[a := set_marked true obj]> h) (body obj) = Ret h2 ->
  same_bodies (<[a := set_marked true obj]> h) h2 /\
  (forall G, inv G (<[a := set_marked true obj]> h) -> inv G h2) /\
  (forall y, is_marked h2 y ->
     is_marked (<[a := set_marked true obj]> h) y \/
     exists rest, body obj = Dict (Some y :: rest)) /\
  (forall t rest, body obj = Dict (Some t :: rest) -> is_marked h2 t).
Proof.
  intros Hd Ha Hpre.
  set (h1 := <[a := set_marked true obj]> h) in *.
  assert (Hsame : pre_step h1 (body obj) = Ret h1 ->
          (forall t rest, body obj <> Dict (Some t :: rest)) ->
          h2 = h1 -> same_bodies h1 h2 /\ (forall G, inv G h1 -> inv G h2) /\
          (forall y, is_marked h2 y -> is_marked h1 y \/
             exists rest, body obj = Dict (Some y :: rest)) /\
          (forall t rest, body obj = Dict (Some t :: rest) -> is_marked h2 t)).
  { intros _ Hno ->. split; [apply same_bodies_refl|]. split; [auto|].
    split; [auto|]. intros t rest Hb. exfalso. eapply Hno; eauto. }
  destruct (body obj) as [| | | | m ca cd | items | items | b pa | mac e l | e n
                          | cb | io na st sf | cls cb | mp pa | fi ex] eqn:Eb;
    simpl in Hpre;
    try (inversion Hpre; subst h2; apply Hsame; [reflexivity | discriminate | reflexivity]).
  - destruct items as [|[t|] entries]; try discriminate.
    + unfold mark_shallow in Hpre.
      destruct (h1 !! t) as [ot|] eqn:Et; [|discriminate].
      inversion Hpre; subst h2; clear Hpre.
      assert (Hchild : children ot = []).
      { pose proof (same_bodies_set_marked h a obj Ha) as Hsb. fold h1 in Hsb.
        destruct (same_bodies_lookup_rev _ _ _ _ Hsb Et) as (ot0 & Hot0 & Hb0).
        destruct (Hd a obj t entries Ha Eb) as (ot1 & Hot1 & Hc1).
        rewrite Hot0 in Hot1. inversion Hot1; subst ot1.
        rewrite (children_body ot ot0 Hb0). exact Hc1. }
      split; [apply same_bodies_set_marked; exact Et|].
      split; [intros G; apply inv_set_marked; auto|].
      split.
      * intros y Hy. apply is_marked_insert_inv in Hy as [Hy| ->]; [auto|].
        right. exists entries. reflexivity.
      * intros t' rest Hb. inversion Hb; subst. apply is_marked_set_marked.
    + inversion Hpre; subst h2. apply Hsame; [reflexivity | discriminate | reflexivity].
  - destruct cls; [|discriminate].
    inversion Hpre; subst h2. apply Hsame; [reflexivity | discriminate | reflexivity].
Qed.

Lemma mark_loop_spec f : mark_spec (mark_loop f).
Proof.
  induction f as [|f IH]; intros h x h' Hd Hrun; [discriminate|].
  destruct x as [a|].
  - rewrite mark_loop_S in Hrun.
    destruct (h !! a) as [obj|] eqn:Ha; [|discriminate].
    destruct (marked obj) eqn:Hm.
    + inversion Hrun; subst h'. constructor.
      * apply same_bodies_refl.
      * intros b [= <-]. exists obj. auto.
      * auto.
      * auto.
    + set (h1 := <[a := set_marked true obj]> h) in *.
      destruct (pre_step h1 (body obj)) as [h2| |] eqn:Epre; simpl in Hrun;
        try discriminate.
      destruct (pre_step_spec h a obj h2 Hd Ha Epre) as (B12 & I12 & S12 & M12).
      fold h1 in B12, I12, S12.
      pose proof (same_bodies_set_marked h a obj Ha) as B01. fold h1 in B01.
      assert (Hd2 : dict_ok h2)
        by (eapply dict_ok_same_bodies; [|exact Hd]; eapply same_bodies_trans; eauto).
      destruct (mark_seq_spec (mark_loop f) IH _ h2 h' Hd2 Hrun) as [B2 M2 I2 S2].
      assert (B02 : same_bodies h h2) by (eapply same_bodies_trans; eauto).
      assert (Ma1 : is_marked h1 a) by apply is_marked_set_marked.
      constructor.
      * eapply same_bodies_trans; eauto.
      * intros b [= <-].
        eapply is_marked_same_bodies; [exact B2|].
        eapply is_marked_same_bodies; [exact B12|]. exact Ma1.
      * intros G HG.
        assert (HG1 : inv (fun z => G z \/ z = a) h1).
        { apply inv_set_marked; [exact Ha | auto |].
          intros a0 o c Hp Hn. apply HG; [exact Hp | tauto]. }
        pose proof (I2 _ (I12 _ HG1)) as HG'.
        intros a0 o' c Hp Hn Ha0 Hm0 Hc.
        destruct (decide (a0 = a)) as [->|Hne].
        -- destruct (same_bodies_lookup _ _ _ _
                      (same_bodies_trans _ _ _ B02 B2) Ha) as (o2 & Ho2 & Hb2 & _).
           rewrite Ha0 in Ho2. inversion Ho2; subst o2.
           rewrite (children_body o' obj Hb2) in Hc.
           apply children_targets in Hc as [[s Hs]|[rest Hb]].
           ++ apply M2. eauto.
           ++ eapply is_marked_same_bodies; [exact B2|]. eapply M12; eauto.
        -- eapply HG'; eauto. tauto.
      * intros y Hy.
        destruct (S2 y Hy) as [Hy2|(t & [s Hs] & Hr)].
        -- destruct (S12 y Hy2) as [Hy1|[rest Hb]].
           ++ apply is_marked_insert_inv in Hy1 as [Hy0| ->]; [left; exact Hy0|].
              right. exists a. split; [reflexivity | apply rtc_refl].
           ++ right. exists a. split; [reflexivity|].
              apply rtc_once. exists obj. split; [exact Ha|].
              eapply slot0_child; eauto.
        -- right. exists a. split; [reflexivity|]. eapply rtc_l.
           ++ exists obj. split; [exact Ha|]. eapply targets_children; eauto.
           ++ apply (rtc_child_same_bodies h h2); assumption.
  - simpl in Hrun. inversion Hrun; subst h'. constructor.
    + apply same_bodies_refl.
    + intros b Hb. discriminate.
    + auto.
    + auto.
Qed.

End MarkSpec.

(** ** Heaps with the same objects and pointers *)

Definition bodies_eq (h h' : gmap positive Lisp_Object) : Prop :=
  forall a,
    match h !! a, h' !! a with
    | Some o, Some o' => body o = body o'
    | None, None => True
    | _, _ => False
    end.

Lemma same_bodies_eq h h' : same_bodies h h' -> bodies_eq h h'.
Proof.
  intros H a. specialize (H a). destruct (h !! a), (h' !! a); tauto.
Qed.

Lemma bodies_eq_refl h : bodies_eq h h.
Proof. intros a. destruct (h !! a); auto. Qed.

Lemma bodies_eq_sym h h' : bodies_eq h h' -> bodies_eq h' h.
Proof.
  intros H a. specialize (H a). destruct (h !! a), (h' !! a); auto.
Qed.

Lemma bodies_eq_trans h1 h2 h3 :
  bodies_eq h1 h2 -> bodies_eq h2 h3 -> bodies_eq h1 h3.
Proof.
  intros H12 H23 a. specialize (H12 a). specialize (H23 a).
  destruct (h1 !! a), (h2 !! a), (h3 !! a); try tauto. congruence.
Qed.

Lemma bodies_eq_lookup h h' a o :
  bodies_eq h h' -> h !! a = Some o ->
  exists o', h' !! a = Some o' /\ body o' = body o.
Proof.
  intros H Ha. specialize (H a). rewrite Ha in H.
  destruct (h' !! a) as [o'|]; [|contradiction]. eauto.
Qed.

Lemma bodies_eq_is_Some h h' a :
  bodies_eq h h' -> is_Some (h !! a) -> is_Some (h' !! a).
Proof.
  intros H [o Ha]. destruct (bodies_eq_lookup _ _ _ _ H Ha) as (o' & Ho' & _). eauto.
Qed.

Lemma child_bodies_eq h h' a c : bodies_eq h h' -> child h a c -> child h' a c.
Proof.
  intros H (o & Ho & Hc).
  destruct (bodies_eq_lookup _ _ _ _ H Ho) as (o' & Ho' & Hb).
  exists o'. split; [exact Ho'|]. rewrite (children_body o' o Hb). exact Hc.
Qed.

Lemma rtc_child_bodies_eq h h' a c :
  bodies_eq h h' -> rtc (child h) a c -> rtc (child h') a c.
Proof.
  intros H Hr. induction Hr as [|x y z Hxy _ IH]; [apply rtc_refl|].
  eapply rtc_l; [|exact IH]. eapply child_bodies_eq; eauto.
Qed.

Lemma reachable_bodies_eq h h' rs x :
  bodies_eq h h' -> reachable h rs x -> reachable h' rs x.
Proof.
  intros H (r & Hr & Hp). exists r. split; [exact Hr|].
  eapply rtc_child_bodies_eq; eauto.
Qed.

(** ** Marking ends

    A heap in which [mark] meets no wild pointer and no failing [assert]:
    every pointer of every object leads to an object, the pointers that
    [mark] asserts are set, a dictionary has its slot 0, and a stream its
    class. *)

Definition pre_ok (h : gmap positive Lisp_Object) (b : payload) : Prop :=
  match b with
  | Dict [] => False
  | Dict (Some t :: _) => is_Some (h !! t)
  | Stream false _ => False
  | _ => True
  end.

Definition target_ok (h : gmap positive Lisp_Object) (t : bool * option addr)
  : Prop :=
  match snd t with
  | Some c => is_Some (h !! c)
  | None => fst t = false
  end.

Definition heap_ok (h : gmap positive Lisp_Object) : Prop :=
  forall a o, h !! a = Some o ->
    pre_ok h (body o) /\ Forall (target_ok h) (targets (body o)).

Lemma pre_ok_bodies_eq h h' b : bodies_eq h h' -> pre_ok h b -> pre_ok h' b.
Proof.
  intros H. destruct b as [| | | | m ca cd | items | items | b pa | mac e l | e n
                           | cb | io na st sf | cls cb | mp pa | fi ex]; simpl; auto.
  destruct items as [|[t|] ?]; auto. apply bodies_eq_is_Some. exact H.
Qed.

Lemma target_ok_bodies_eq h h' t : bodies_eq h h' -> target_ok h t -> target_ok h' t.
Proof.
  intros H. unfold target_ok. destruct (snd t); auto.
  apply bodies_eq_is_Some. exact H.
Qed.

Lemma heap_ok_bodies_eq h h' : bodies_eq h h' -> heap_ok h -> heap_ok h'.
Proof.
  intros H Hok a o' Ha.
  destruct (bodies_eq_lookup _ _ _ _ (bodies_eq_sym _ _ H) Ha) as (o & Ho & Hb).
  destruct (Hok a o Ho) as [H1 H2]. rewrite <- Hb.
  split; [eapply pre_ok_bodies_eq; eauto|].
  eapply Forall_impl; [exact H2|]. intros t. apply target_ok_bodies_eq. exact H.
Qed.

(** The objects that are not marked: the measure of [mark]. *)
Definition unmarked (h : gmap positive Lisp_Object) : gset positive :=
  dom (filter (fun kv => marked (snd kv) = false) h).

Lemma elem_of_unmarked h a :
  a ∈ unmarked h <-> exists o, h !! a = Some o /\ marked o = false.
Proof.
  unfold unmarked. rewrite elem_of_dom. split.
  - intros [o Ho]. apply map_lookup_filter_Some in Ho as [Ho Hm]. eauto.
  - intros (o & Ho & Hm). exists o. apply map_lookup_filter_Some. auto.
Qed.

Lemma unmarked_same_bodies h h' : same_bodies h h' -> unmarked h' ⊆ unmarked h.
Proof.
  intros H a Ha. apply elem_of_unmarked in Ha as (o' & Ho' & Hm').
  apply elem_of_unmarked.
  specialize (H a). rewrite Ho' in H. destruct (h !! a) as [o|]; [|contradiction].
  exists o. split; [reflexivity|]. destruct H as [_ H].
  destruct (marked o); [|reflexivity]. rewrite H in Hm'; [discriminate | reflexivity].
Qed.

Lemma unmarked_set_marked h a obj :
  h !! a = Some obj -> marked obj = false ->
  (size (unmarked (<[a := set_marked true obj]> h)) < size (unmarked h))%nat.
Proof.
  intros Ha Hm. apply subset_size. split.
  - apply unmarked_same_bodies, same_bodies_set_marked. exact Ha.
  - intros Hsub. assert (Hin : a ∈ unmarked h) by (apply elem_of_unmarked; eauto).
    apply Hsub in Hin. apply elem_of_unmarked in Hin as (o & Ho & Hmo).
    rewrite lookup_insert_eq in Ho. inversion Ho; subst. discriminate.
Qed.

Lemma unmarked_size_le h : (size (unmarked h) <= size h)%nat.
Proof.
  rewrite <- (size_dom (D := gset positive) h). apply subseteq_size.
  intros a Ha. apply elem_of_unmarked in Ha as (o & Ho & _).
  apply elem_of_dom. eauto.
Qed.

Definition mark_total (f : nat)
    (rec : gmap positive Lisp_Object -> option addr ->
           outcome (gmap positive Lisp_Object)) : Prop :=
  forall h x, heap_ok h -> dict_ok h ->
    (forall a, x = Some a -> is_Some (h !! a)) ->
    (size (unmarked h) < f)%nat ->
    exists h', rec h x = Ret h'.

Lemma mark_seq_total f rec :
  mark_total f rec -> mark_spec (fun _ => False) rec ->
  forall l h, heap_ok h -> dict_ok h -> Forall (target_ok h) l ->
    (size (unmarked h) < f)%nat ->
    exists h', mark_seq rec h l = Ret h'.
Proof.
  intros Htot Hspec. induction l as [|[must x] rest IH]; intros h Hok Hd Hl Hsz; simpl.
  - eauto.
  - inversion Hl as [|? ? Hx Hrest]; subst.
    assert (Hptr : forall a, x = Some a -> is_Some (h !! a)).
    { intros a ->. exact Hx. }
    destruct (Htot h x Hok Hd Hptr Hsz) as [h1 E1].
    destruct (Hspec h x h1 Hd E1) as [B1 _ _ _].
    assert (Hrest1 : exists h', mark_seq rec h1 rest = Ret h').
    { apply IH.
      - eapply heap_ok_bodies_eq; [apply same_bodies_eq; exact B1 | exact Hok].
      - eapply dict_ok_same_bodies; eauto.
      - eapply Forall_impl; [exact Hrest|]. intros t.
        apply target_ok_bodies_eq, same_bodies_eq. exact B1.
      - pose proof (subseteq_size _ _ (unmarked_same_bodies h h1 B1)). lia. }
    destruct Hrest1 as [h' E2].
    exists h'. destruct must, x; simpl; rewrite ?E1; simpl; try exact E2.
    unfold target_ok in Hx. simpl in Hx. discriminate.
Qed.

Lemma mark_loop_total f : mark_total f (mark_loop f).
Proof.
  induction f as [|f IH]; intros h x Hok Hd Hptr Hsz; [lia|].
  destruct x as [a|]; [|simpl; eauto].
  rewrite mark_loop_S.
  destruct (Hptr a eq_refl) as [obj Ha]. rewrite Ha.
  destruct (marked obj) eqn:Hm; [eauto|].
  pose proof (same_bodies_set_marked h a obj Ha) as B01.
  pose proof (unmarked_set_marked h a obj Ha Hm) as Hsz1.
  set (h1 := <[a := set_marked true obj]> h) in *.
  destruct (Hok a obj Ha) as [Hpre Htg].
  assert (Hpre1 : exists h2, pre_step h1 (body obj) = Ret h2).
  { apply (pre_ok_bodies_eq h h1) in Hpre; [|apply same_bodies_eq; exact B01].
    destruct (body obj) as [| | | | m ca cd | items | items | b pa | mac e l | e n
                            | cb | io na st sf | cls cb | mp pa | fi ex]; simpl; eauto.
    - destruct items as [|[t|] ?]; simpl in Hpre; try contradiction; eauto.
      unfold mark_shallow. destruct Hpre as [ot ->]. eauto.
    - destruct cls; simpl in Hpre; [eauto | contradiction]. }
  destruct Hpre1 as [h2 Epre]. rewrite Epre. simpl.
  destruct (pre_step_spec (fun _ => False) h a obj h2 Hd Ha Epre) as (B12 & _).
  fold h1 in B12.
  assert (B02 : same_bodies h h2) by (eapply same_bodies_trans; eauto).
  apply (mark_seq_total f (mark_loop f) IH (mark_loop_spec _ f)).
  - eapply heap_ok_bodies_eq; [apply same_bodies_eq; exact B02 | exact Hok].
  - eapply dict_ok_same_bodies; eauto.
  - eapply Forall_impl; [exact Htg|]. intros t.
    apply target_ok_bodies_eq, same_bodies_eq. exact B02.
  - pose proof (subseteq_size _ _ (unmarked_same_bodies h1 h2 B12)). lia.
Qed.

(** ** The two loops over the pool *)

Definition marked_b (h : gmap positive Lisp_Object) (a : addr) : bool :=
  match h !! a with
  | Some o => marked o
  | None => false
  end.

Lemma marked_b_is_marked h a : marked_b h a = true <-> is_marked h a.
Proof.
  unfold marked_b, is_marked. split.
  - destruct (h !! a) as [o|]; [eauto | discriminate].
  - intros (o & -> & Hm). exact Hm.
Qed.

Lemma clear_marks_spec l : forall h,
  (forall a, a ∈ l -> is_Some (h !! a)) ->
  exists h', clear_marks h l = Ret h' /\ bodies_eq h h' /\
    (forall a, a ∈ l -> marked_b h' a = false) /\
    (forall a, a ∉ l -> h' !! a = h !! a).
Proof.
  induction l as [|a l IH]; intros h Hall; simpl.
  - exists h. split; [reflexivity|]. split; [apply bodies_eq_refl|].
    split; [|reflexivity]. intros a Ha. apply elem_of_nil in Ha. contradiction.
  - destruct (Hall a) as [o Ho]; [apply list_elem_of_here|]. rewrite Ho.
    set (h1 := <[a := set_marked false o]> h).
    assert (B1 : bodies_eq h h1).
    { intros x. unfold h1. destruct (decide (x = a)) as [->|Hne].
      - rewrite lookup_insert_eq, Ho. reflexivity.
      - rewrite lookup_insert_ne by auto. destruct (h !! x); auto. }
    destruct (IH h1) as (h' & E & B & Hl & Hout).
    { intros x Hx. eapply bodies_eq_is_Some; [exact B1|].
      apply Hall. apply list_elem_of_further. exact Hx. }
    exists h'. split; [exact E|]. split; [eapply bodies_eq_trans; eauto|]. split.
    + intros x Hx. destruct (decide (x ∈ l)) as [Hin|Hnin]; [auto|].
      apply elem_of_cons in Hx as [->|Hx]; [|contradiction].
      unfold marked_b. rewrite (Hout a Hnin). unfold h1.
      rewrite lookup_insert_eq. reflexivity.
    + intros x Hx. rewrite Hout.
      * unfold h1. apply lookup_insert_ne. intros ->. apply Hx, list_elem_of_here.
      * intros Hin. apply Hx, list_elem_of_further, Hin.
Qed.

(** What the sweep may do to an object it keeps: close it, if it is the
    stream of a dead port. *)
Definition closed_or_same (o o' : Lisp_Object) : Prop :=
  marked o' = marked o /\
  (body o' = body o \/
   exists cb, body o = Stream true cb /\ body o' = Stream true None).

(** The heap [h] in the middle of the sweep of [h0], the objects [D] of
    the pool being done. *)
Definition swept (h0 h : gmap positive Lisp_Object) (D : list addr) : Prop :=
  forall a,
    match h !! a with
    | Some o' => exists o, h0 !! a = Some o /\ closed_or_same o o'
    | None => h0 !! a = None \/ (a ∈ D /\ marked_b h0 a = false)
    end.

(** A stream that comes before its port in the pool is marked: the sweep
    does not close a stream it has freed. *)
Definition ports_ok (h0 : gmap positive Lisp_Object) (l : list addr) : Prop :=
  forall l1 a l2 o io na s sf,
    l = l1 ++ a :: l2 -> h0 !! a = Some o -> body o = Port io na (Some s) sf ->
    s ∈ l1 -> marked_b h0 s = true.

Lemma closed_or_same_refl o : closed_or_same o o.
Proof. split; auto. Qed.

Lemma swept_refl h : swept h h [].
Proof.
  intros a. destruct (h !! a) as [o|]; [|auto].
  exists o. split; [reflexivity | apply closed_or_same_refl].
Qed.

Lemma swept_mono h0 h D D' :
  (forall x, x ∈ D -> x ∈ D') -> swept h0 h D -> swept h0 h D'.
Proof.
  intros Hsub Hsw a. specialize (Hsw a). destruct (h !! a); [exact Hsw|].
  destruct Hsw as [?|[? ?]]; auto.
Qed.

Lemma swept_delete h0 h l1 a :
  swept h0 h l1 -> marked_b h0 a = false -> swept h0 (delete a h) (l1 ++ [a]).
Proof.
  intros Hsw Hm x. destruct (decide (x = a)) as [->|Hne].
  - rewrite lookup_delete_eq. right. split; [|exact Hm].
    apply elem_of_app. right. apply list_elem_of_here.
  - rewrite lookup_delete_ne by auto. specialize (Hsw x).
    destruct (h !! x); [exact Hsw|].
    destruct Hsw as [?|[? ?]]; [left | right; split]; auto.
    apply elem_of_app. auto.
Qed.

Lemma swept_close h0 h l1 s o_s so' :
  swept h0 h l1 -> h0 !! s = Some o_s -> closed_or_same o_s so' ->
  swept h0 (<[s := so']> h) l1.
Proof.
  intros Hsw Hs Hc x. destruct (decide (x = s)) as [->|Hne].
  - rewrite lookup_insert_eq. eauto.
  - rewrite lookup_insert_ne by auto. apply Hsw.
Qed.

Lemma lisp_stream_close_ok h0 o o' :
  pre_ok h0 (body o) -> closed_or_same o o' ->
  exists o'', lisp_stream_close o' = Ret o'' /\ closed_or_same o o''.
Proof.
  intros Hpre [Hm Hb]. unfold lisp_stream_close.
  destruct Hb as [Hb|(cb & Hb & Hb')].
  - destruct (body o') as [| | | | m ca cd | items | items | b pa | mac e l | e n
                           | cb | io na st sf | cls cb | mp pa | fi ex] eqn:E;
      try (exists o'; split; [reflexivity|]; split; [exact Hm | left; congruence]).
    rewrite <- Hb in Hpre. simpl in Hpre. destruct cls; [|contradiction].
    eexists. split; [reflexivity|]. split; [exact Hm|].
    right. exists cb. split; [congruence | reflexivity].
  - rewrite Hb'. eexists. split; [reflexivity|]. split; [exact Hm|].
    right. exists cb. auto.
Qed.

Lemma delete_obj_swept h0 h l1 a l2 o o' :
  heap_ok h0 -> ports_ok h0 (l1 ++ a :: l2) -> swept h0 h l1 ->
  h0 !! a = Some o -> h !! a = Some o' -> closed_or_same o o' ->
  marked o' = false ->
  exists hd, delete_obj h a o' = Ret hd /\ swept h0 hd (l1 ++ [a]) /\
    hd !! a = None /\ (forall x, h !! x = None -> hd !! x = None).
Proof.
  intros Hok Hports Hsw Ho Ho' Hc Hm.
  assert (Hmb : marked_b h0 a = false).
  { unfold marked_b. rewrite Ho. destruct Hc as [<- _]. exact Hm. }
  assert (Hplain : exists hd, Ret (A := gmap positive Lisp_Object) (delete a h) = Ret hd /\
            swept h0 hd (l1 ++ [a]) /\ hd !! a = None /\
            (forall x, h !! x = None -> hd !! x = None)).
  { exists (delete a h). split; [reflexivity|].
    split; [apply swept_delete; assumption|].
    split; [apply lookup_delete_eq|].
    intros x Hx. destruct (decide (x = a)) as [->|Hne];
      [apply lookup_delete_eq | rewrite lookup_delete_ne by auto; exact Hx]. }
  destruct (Hok a o Ho) as [Hpre Htg].
  unfold delete_obj.
  destruct (body o') as [| | | | m ca cd | items | items | b pa | mac e l | e n
                         | cb | io na st sf | cls cb | mp pa | fi ex] eqn:E;
    try exact Hplain.
  - (* a port *)
    destruct st as [s|]; [|exact Hplain].
    assert (Hbo : body o = Port io na (Some s) sf).
    { destruct Hc as [_ [Hb|(cb & _ & Hb)]]; congruence. }
    rewrite Hbo in Htg. simpl in Htg.
    assert (Hs0 : is_Some (h0 !! s)).
    { inversion Htg as [|? ? _ H1]; subst. inversion H1 as [|? ? _ H2]; subst.
      inversion H2 as [|? ? H3 _]; subst. exact H3. }
    destruct Hs0 as [o_s Hs0].
    pose proof (Hsw s) as Hs. destruct (h !! s) as [so|] eqn:Hhs.
    + destruct Hs as (o_s' & Hs' & Hcs). assert (o_s' = o_s) by congruence. subst o_s'.
      destruct (lisp_stream_close_ok h0 o_s so) as (so' & Ecl & Hcs').
      { apply (Hok s o_s Hs0). }
      { exact Hcs. }
      rewrite Ecl. simpl.
      exists (delete a (<[s := so']> h)). split; [reflexivity|].
      split; [apply swept_delete; [eapply swept_close; eauto | exact Hmb]|].
      split; [apply lookup_delete_eq|].
      intros x Hx. destruct (decide (x = a)) as [->|Hne]; [apply lookup_delete_eq|].
      rewrite lookup_delete_ne by auto. rewrite lookup_insert_ne; [exact Hx|].
      intros <-. congruence.
    + exfalso. destruct Hs as [Hs|[Hin Hms]]; [congruence|].
      rewrite (Hports l1 a l2 o io na s sf eq_refl Ho Hbo Hin) in Hms. discriminate.
  - (* a stream *)
    destruct cls; [exact Hplain|]. exfalso.
    destruct Hc as [_ [Hb|(cb' & _ & Hb)]]; [|congruence].
    rewrite <- Hb, E in Hpre. exact Hpre.
Qed.

Lemma sweep_spec h0 :
  heap_ok h0 ->
  forall l2 l1 h,
    NoDup (l1 ++ l2) -> ports_ok h0 (l1 ++ l2) ->
    (forall a, a ∈ l2 -> is_Some (h0 !! a)) ->
    swept h0 h l1 ->
    exists kept h', sweep h l2 = Ret (kept, h') /\
      kept = List.filter (marked_b h0) l2 /\
      swept h0 h' (l1 ++ l2) /\
      (forall a, a ∈ l2 -> marked_b h0 a = false -> h' !! a = None) /\
      (forall x, h !! x = None -> h' !! x = None).
Proof.
  intros Hok. induction l2 as [|a l2 IH]; intros l1 h Hnd Hports Hall Hsw.
  - exists [], h. rewrite app_nil_r. simpl. repeat split; auto.
    intros a Ha. apply elem_of_nil in Ha. contradiction.
  - assert (Hnd' : NoDup ((l1 ++ [a]) ++ l2)) by (rewrite <- app_assoc; exact Hnd).
    assert (Hports' : ports_ok h0 ((l1 ++ [a]) ++ l2))
      by (rewrite <- app_assoc; exact Hports).
    assert (Hall' : forall x, x ∈ l2 -> is_Some (h0 !! x))
      by (intros x Hx; apply Hall, list_elem_of_further, Hx).
    assert (Ha1 : a ∉ l1).
    { apply NoDup_app in Hnd as (_ & Hdis & _). intros Hin.
      apply (Hdis a Hin), list_elem_of_here. }
    destruct (Hall a) as [o Ho0]; [apply list_elem_of_here|].
    pose proof (Hsw a) as Hswa. destruct (h !! a) as [o'|] eqn:Ha.
    2: { destruct Hswa as [E|[Hin _]]; [congruence | contradiction]. }
    destruct Hswa as (o1 & Ho1 & Hc). assert (o1 = o) by congruence. subst o1.
    assert (Hmb : marked_b h0 a = marked o').
    { unfold marked_b. rewrite Ho0. destruct Hc as [-> _]. reflexivity. }
    cbn [sweep List.filter]. rewrite Ha, Hmb.
    destruct (marked o') eqn:Hm.
    + destruct (IH (l1 ++ [a]) h Hnd' Hports' Hall') as (kept & h' & E & Hk & Hsw2 & Hdel & Hnone).
      { eapply swept_mono; [|exact Hsw]. intros x Hx. apply elem_of_app. auto. }
      rewrite E. simpl. exists (a :: kept), h'.
      split; [reflexivity|]. split; [congruence|].
      split; [rewrite <- app_assoc in Hsw2; exact Hsw2|].
      split; [|exact Hnone].
      intros x Hx Hxm. apply elem_of_cons in Hx as [->|Hx]; [congruence | auto].
    + destruct (delete_obj_swept h0 h l1 a l2 o o' Hok Hports Hsw Ho0 Ha Hc Hm)
        as (hd & Ed & Hswd & Hda & Hdn).
      rewrite Ed. simpl.
      destruct (IH (l1 ++ [a]) hd Hnd' Hports' Hall' Hswd)
        as (kept & h' & E & Hk & Hsw2 & Hdel & Hnone).
      exists kept, h'. split; [exact E|]. split; [exact Hk|].
      split; [rewrite <- app_assoc in Hsw2; exact Hsw2|].
      split; [|auto].
      intros x Hx Hxm. apply elem_of_cons in Hx as [->|Hx]; auto.
Qed.

(** ** A cycle of [gc] *)

Lemma dict_ok_bodies_eq h h' : bodies_eq h h' -> dict_ok h -> dict_ok h'.
Proof.
  intros Hs Hd a o' t rest Ha Hb.
  destruct (bodies_eq_lookup _ _ _ _ (bodies_eq_sym _ _ Hs) Ha) as (o & Ho & Hbo).
  destruct (Hd a o t rest Ho) as (ot & Hot & Hc); [congruence|].
  destruct (bodies_eq_lookup _ _ _ _ Hs Hot) as (ot' & Hot' & Hbt).
  exists ot'. split; [exact Hot'|]. rewrite (children_body ot' ot Hbt). exact Hc.
Qed.

Lemma bodies_eq_size h h' : bodies_eq h h' -> size h = size h'.
Proof.
  intros H. rewrite <- !(size_dom (D := gset positive)). f_equal.
  apply set_eq. intros a. rewrite !elem_of_dom. split.
  - apply bodies_eq_is_Some. exact H.
  - apply bodies_eq_is_Some, bodies_eq_sym. exact H.
Qed.

Lemma child_allocated h a c : heap_ok h -> child h a c -> is_Some (h !! c).
Proof.
  intros Hok (o & Ho & Hc). destruct (Hok a o Ho) as [Hpre Htg].
  destruct (children_targets o c Hc) as [[s Hs]|[rest Hb]].
  - rewrite Forall_forall in Htg. apply (Htg _ Hs).
  - rewrite Hb in Hpre. exact Hpre.
Qed.

(** The states in which [gc] runs: the pool holds allocated objects, each
    once; no root is [NULL] and every pointer leads to an object; objects
    outside the pool (the interned constants) do not point into it; and a
    stream that comes before its port in the pool is in use. *)
Record gc_ready (vm : Lisp_VM) (h : gmap positive Lisp_Object) : Prop := {
  gr_nodup : NoDup (pool vm);
  gr_pool : forall a, a ∈ pool vm -> is_Some (h !! a);
  gr_roots : Forall (target_ok h) (strict <$> roots vm);
  gr_heap : heap_ok h;
  gr_dict : dict_ok h;
  gr_outside : forall a o c,
    a ∉ pool vm -> h !! a = Some o -> c ∈ children o -> c ∉ pool vm;
  gr_ports : forall l1 a l2 o io na s sf,
    pool vm = l1 ++ a :: l2 -> h !! a = Some o ->
    body o = Port io na (Some s) sf -> s ∈ l1 -> reachable h (roots vm) s
}.

Lemma root_allocated vm h r :
  gc_ready vm h -> Some r ∈ roots vm -> is_Some (h !! r).
Proof.
  intros Hr Hin. pose proof (gr_roots vm h Hr) as HF.
  rewrite Forall_forall in HF.
  apply (HF (strict (Some r))). apply list_elem_of_fmap. eauto.
Qed.

Lemma reachable_allocated vm h a :
  gc_ready vm h -> reachable h (roots vm) a -> is_Some (h !! a).
Proof.
  intros Hr (r & Hin & Hp). pose proof (root_allocated vm h r Hr Hin) as Hroot.
  clear Hin. induction Hp as [|x y z Hxy _ IH]; [exact Hroot|].
  apply IH. eapply child_allocated; [apply (gr_heap vm h Hr) | exact Hxy].
Qed.

(** When marking has ended, with no object left grey, the marked objects
    of the pool are closed under [child]: every object of the pool that
    the roots reach is marked. *)
Lemma reachable_marked vm h hm a :
  gc_ready vm h -> bodies_eq h hm ->
  inv (fun x => x ∈ pool vm) (fun _ => False) hm ->
  (forall r, Some r ∈ roots vm -> is_marked hm r) ->
  reachable h (roots vm) a -> a ∈ pool vm -> is_marked hm a.
Proof.
  intros Hr Hb Hinv Hroots (r & Hin & Hp).
  pose proof (Hroots r Hin) as Hroot. clear Hin.
  revert a Hp. apply (rtc_ind_r (fun a => a ∈ pool vm -> is_marked hm a));
    [intros _; exact Hroot|].
  intros y z Hp Hyz IH Hpool.
  destruct (decide (y ∈ pool vm)) as [Hy|Hy].
  - destruct (IH Hy) as (o & Ho & Hm).
    apply (child_bodies_eq h hm) in Hyz; [|exact Hb].
    destruct Hyz as (o' & Ho' & Hc). assert (o' = o) by congruence. subst o'.
    apply (Hinv y o z Hy (fun F => F) Ho Hm Hc).
  - exfalso. destruct Hyz as (o & Ho & Hc).
    apply (gr_outside vm h Hr y o z Hy Ho Hc Hpool).
Qed.

(** C2.  A cycle of [gc], run with enough fuel in a state that is
    [gc_ready], ends, and leaves the roots as they were.  The pool keeps,
    in their order, exactly its objects that the roots reach (value
    stack, current and root environment, input, output and error port,
    token buffer, [last_eval], symbol table, source-file table, keep-alive
    pool).  Every object the roots reach is allocated still; every object
    of the pool they do not reach is freed and out of the pool.  What is
    left has the pointers it had, a stream that a freed port has closed
    apart.  An object outside the pool, such as an interned constant, is
    never freed and keeps its mark. *)
Theorem gc_keeps_reachable_sweeps_rest fuel vm h :
  gc_ready vm h -> (size h < fuel)%nat ->
  exists vm' h' (keep : addr -> bool),
    gc fuel vm h = Ret (vm', h') /\
    roots vm' = roots vm /\
    pool vm' = List.filter keep (pool vm) /\
    (forall a, a ∈ pool vm -> (keep a = true <-> reachable h (roots vm) a)) /\
    (forall a, reachable h (roots vm) a -> is_Some (h' !! a)) /\
    (forall a, a ∈ pool vm -> ~ reachable h (roots vm) a ->
       h' !! a = None /\ a ∉ pool vm') /\
    (forall a o', h' !! a = Some o' ->
       exists o, h !! a = Some o /\
         (body o' = body o \/
          exists cb, body o = Stream true cb /\ body o' = Stream true None)) /\
    (forall a o, a ∉ pool vm -> h !! a = Some o ->
       exists o', h' !! a = Some o' /\ (marked o = true -> marked o' = true)).
Proof.
  intros Hr Hfuel.
  (* the marks of the pool are cleared *)
  destruct (clear_marks_spec (pool vm) h (gr_pool vm h Hr))
    as (h0 & E0 & B0 & Hclr & Hout0).
  pose proof (heap_ok_bodies_eq h h0 B0 (gr_heap vm h Hr)) as Hok0.
  pose proof (dict_ok_bodies_eq h h0 B0 (gr_dict vm h Hr)) as Hd0.
  (* the roots are marked *)
  destruct (mark_seq_total fuel (mark_loop fuel) (mark_loop_total fuel)
              (mark_loop_spec _ fuel) (strict <$> roots vm) h0 Hok0 Hd0)
    as [hm Em].
  { eapply Forall_impl; [apply (gr_roots vm h Hr)|].
    intros t. apply target_ok_bodies_eq. exact B0. }
  { pose proof (unmarked_size_le h0). rewrite (bodies_eq_size h h0 B0) in Hfuel. lia. }
  destruct (mark_seq_spec (fun x => x ∈ pool vm) (mark_loop fuel)
              (mark_loop_spec _ fuel) (strict <$> roots vm) h0 hm Hd0 Em)
    as [Bm Hmarked Hinv Hsound].
  assert (B0m : bodies_eq h hm).
  { eapply bodies_eq_trans; [exact B0 | apply same_bodies_eq; exact Bm]. }
  pose proof (heap_ok_bodies_eq h hm B0m (gr_heap vm h Hr)) as Hokm.
  assert (Hcomplete : forall a, reachable h (roots vm) a -> a ∈ pool vm ->
                                is_marked hm a).
  { intros a. apply (reachable_marked vm h hm a Hr B0m).
    - apply Hinv. intros x o c Hx _ Ho Hm _. exfalso.
      pose proof (Hclr x Hx) as Hc. unfold marked_b in Hc. rewrite Ho in Hc. congruence.
    - intros r Hin. apply Hmarked. exists true.
      apply list_elem_of_fmap. exists (Some r). auto. }
  assert (Hsnd : forall a, a ∈ pool vm -> is_marked hm a ->
                           reachable h (roots vm) a).
  { intros a Ha Hm. destruct (Hsound a Hm) as [Hm0|(r & [s Hs] & Hp)].
    - exfalso. apply marked_b_is_marked in Hm0. rewrite (Hclr a Ha) in Hm0. discriminate.
    - exists r. split.
      + apply list_elem_of_fmap in Hs as (x & Hx & Hin). inversion Hx; subst. exact Hin.
      + eapply rtc_child_bodies_eq; [apply bodies_eq_sym; exact B0 | exact Hp]. }
  (* the pool is swept *)
  destruct (sweep_spec hm Hokm (pool vm) [] hm) as (kept & h' & Es & Hk & Hsw & Hdel & _).
  { apply (gr_nodup vm h Hr). }
  { intros l1 a l2 o io na s sf Hl Ho Hb Hin. apply marked_b_is_marked.
    destruct (bodies_eq_lookup _ _ _ _ (bodies_eq_sym _ _ B0m) Ho) as (oh & Hoh & Hbh).
    apply Hcomplete.
    - apply (gr_ports vm h Hr l1 a l2 oh io na s sf Hl Hoh); [congruence | exact Hin].
    - simpl in Hl. rewrite Hl. apply elem_of_app. auto. }
  { intros a Ha. eapply bodies_eq_is_Some; [exact B0m|]. apply (gr_pool vm h Hr a Ha). }
  { apply swept_refl. }
  simpl in Hsw.
  exists (with_pool vm kept), h', (marked_b hm).
  split. { unfold gc. rewrite E0. cbn [obind]. rewrite Em. cbn [obind]. rewrite Es. reflexivity. }
  split; [reflexivity|]. split; [exact Hk|].
  split. { intros a Ha. rewrite marked_b_is_marked. split; auto. }
  split.
  { intros a Hreach. pose proof (Hsw a) as Ha.
    destruct (h' !! a) as [o'|]; [eauto|]. exfalso.
    destruct Ha as [Hnone|[Hin Hmb]].
    - destruct (bodies_eq_is_Some h hm a B0m (reachable_allocated vm h a Hr Hreach)).
      congruence.
    - apply (Hcomplete a Hreach) in Hin. apply marked_b_is_marked in Hin. congruence. }
  split.
  { intros a Ha Hnr.
    assert (Hmb : marked_b hm a = false).
    { destruct (marked_b hm a) eqn:E; [|reflexivity]. exfalso.
      apply Hnr, Hsnd; [exact Ha | apply marked_b_is_marked; exact E]. }
    split; [apply Hdel; assumption|].
    simpl. rewrite Hk. intros Hin. apply list_elem_of_In, filter_In in Hin as [_ Hin].
    congruence. }
  split.
  { intros a o' Ha. pose proof (Hsw a) as Hswa. rewrite Ha in Hswa.
    destruct Hswa as (om & Hom & _ & Hb).
    destruct (bodies_eq_lookup _ _ _ _ (bodies_eq_sym _ _ B0m) Hom) as (o & Ho & Hbo).
    exists o. split; [exact Ho|].
    destruct Hb as [Hb|(cb & Hb1 & Hb2)]; [left; congruence|].
    right. exists cb. split; congruence. }
  intros a o Ha Ho.
  assert (Ho0 : h0 !! a = Some o) by (rewrite (Hout0 a Ha); exact Ho).
  destruct (same_bodies_lookup _ _ _ _ Bm Ho0) as (om & Hom & _ & Hmm).
  pose proof (Hsw a) as Hswa. destruct (h' !! a) as [o'|].
  - destruct Hswa as (om' & Hom' & Hmk & _). assert (om' = om) by congruence.
    subst om'. exists o'. split; [reflexivity|]. rewrite Hmk. exact Hmm.
  - exfalso. destruct Hswa as [Hnone|[Hin _]]; [congruence | contradiction].
Qed.

(** ** A state to run [gc] on

    [gc_ready] from conditions that can be computed on a given heap. *)

#[local] Instance pre_ok_dec h b : Decision (pre_ok h b).
Proof.
  destruct b as [| | | | m ca cd | items | items | b pa | mac e l | e n
                 | cb | io na st sf | cls cb | mp pa | fi ex]; simpl;
    try (destruct items as [|[t|] ?]); try (destruct cls); apply _.
Defined.

#[local] Instance target_ok_dec h t : Decision (target_ok h t).
Proof. unfold target_ok. destruct (snd t); apply _. Defined.

Definition slot_ok (h : gmap positive Lisp_Object) (o : Lisp_Object) : Prop :=
  match body o with
  | Dict (Some t :: _) =>
      match h !! t with
      | Some ot => children ot = []
      | None => False
      end
  | _ => True
  end.

#[local] Instance slot_ok_dec h o : Decision (slot_ok h o).
Proof.
  unfold slot_ok.
  destruct (body o) as [| | | | m ca cd | items | items | b pa | mac e l | e n
                        | cb | io na st sf | cls cb | mp pa | fi ex];
    try (destruct items as [|[t|] ?]); try (destruct (h !! t)); apply _.
Defined.

(** No port of the pool [l] has its stream before it. *)
Fixpoint port_order (h : gmap positive Lisp_Object) (seen l : list addr) : bool :=
  match l with
  | [] => true
  | a :: rest =>
      match h !! a with
      | Some o =>
          match body o with
          | Port _ _ (Some s) _ => negb (bool_decide (s ∈ seen))
          | _ => true
          end
      | None => true
      end && port_order h (seen ++ [a]) rest
  end.

Lemma port_order_sound h : forall l seen,
  port_order h seen l = true ->
  forall l1 a l2 o io na s sf,
    l = l1 ++ a :: l2 -> h !! a = Some o -> body o = Port io na (Some s) sf ->
    s ∉ seen ++ l1.
Proof.
  induction l as [|b l IH]; intros seen H l1 a l2 o io na s sf Hl Ho Hb.
  - destruct l1; discriminate Hl.
  - simpl in H. apply andb_true_iff in H as [H1 H2].
    destruct l1 as [|b' l1]; simpl in Hl; inversion Hl; subst.
    + rewrite Ho, Hb in H1. rewrite app_nil_r.
      apply negb_true_iff, bool_decide_eq_false in H1. exact H1.
    + replace (seen ++ b' :: l1) with ((seen ++ [b']) ++ l1)
        by (rewrite <- app_assoc; reflexivity).
      eapply IH; eauto.
Qed.

Lemma gc_ready_intro vm h :
  NoDup (pool vm) ->
  Forall (fun a => is_Some (h !! a)) (pool vm) ->
  Forall (target_ok h) (strict <$> roots vm) ->
  map_Forall (fun _ o => pre_ok h (body o) /\
                         Forall (target_ok h) (targets (body o))) h ->
  map_Forall (fun _ o => slot_ok h o) h ->
  map_Forall (fun a o => a ∈ pool vm \/
                         Forall (fun c => c ∉ pool vm) (children o)) h ->
  port_order h [] (pool vm) = true ->
  gc_ready vm h.
Proof.
  intros Hnd Hpool Hroots Hheap Hslot Hout Hports. constructor.
  - exact Hnd.
  - rewrite Forall_forall in Hpool. exact Hpool.
  - exact Hroots.
  - exact Hheap.
  - intros a o t rest Ho Hb. pose proof (Hslot a o Ho) as Hs.
    unfold slot_ok in Hs. rewrite Hb in Hs.
    destruct (h !! t) as [ot|]; [eauto | contradiction].
  - intros a o c Ha Ho Hc. destruct (Hout a o Ho) as [Hin|HF]; [contradiction|].
    rewrite Forall_forall in HF. apply HF. exact Hc.
  - intros l1 a l2 o io na s sf Hl Ho Hb Hin. exfalso.
    apply (port_order_sound h (pool vm) [] Hports l1 a l2 o io na s sf Hl Ho Hb).
    exact Hin.
Qed.

Definition obj (b : payload) : Lisp_Object := {| marked := false; body := b |}.

(** A value stack holding a pair [(5 . nil)], 5 being an interned symbol
    outside the pool; a console port 3 with its stream 7; and garbage: a
    pair 20 that points to the live pair 10 and to a string 21, and a
    port 22 left open with its stream 23. *)
Definition example_heap : gmap positive Lisp_Object :=
  list_to_map
    [ (1%positive, obj (Array [Some 10%positive]));
      (2%positive, obj (Env (Some 6%positive) None));
      (3%positive, obj (Port (Some 4%positive) None (Some 7%positive) None));
      (4%positive, obj Buffer);
      (5%positive, {| marked := true; body := Symbol |});
      (6%positive, obj (Dict [None]));
      (7%positive, obj (Stream true (Some [])));
      (10%positive, obj (Pair None (Some 5%positive) None));
      (20%positive, obj (Pair None (Some 10%positive) (Some 21%positive)));
      (21%positive, obj String);
      (22%positive, obj (Port None None (Some 23%positive) None));
      (23%positive, obj (Stream true (Some []))) ].

Definition example_vm : Lisp_VM :=
  {| pool := [1; 2; 3; 4; 6; 7; 10; 20; 21; 22; 23]%positive;
     stack := Some 1%positive; env := Some 2%positive;
     root_env := Some 2%positive;
     input := Some 3%positive; output := Some 3%positive;
     error := Some 3%positive; token := Some 4%positive;
     last_eval := Some 5%positive; symbols := Some 6%positive;
     source_files := Some 6%positive; keep_alive_pool := Some 1%positive |}.

Lemma example_ready : gc_ready example_vm example_heap.
Proof.
  apply gc_ready_intro; apply (bool_decide_unpack _); vm_compute; exact I.
Qed.

Lemma gc_keeps_reachable_sweeps_rest_witness :
  exists vm' h' (keep : addr -> bool),
    gc 13 example_vm example_heap = Ret (vm', h') /\
    roots vm' = roots example_vm /\
    pool vm' = List.filter keep (pool example_vm) /\
    (forall a, a ∈ pool example_vm ->
       (keep a = true <-> reachable example_heap (roots example_vm) a)) /\
    (forall a, reachable example_heap (roots example_vm) a -> is_Some (h' !! a)) /\
    (forall a, a ∈ pool example_vm ->
       ~ reachable example_heap (roots example_vm) a ->
       h' !! a = None /\ a ∉ pool vm') /\
    (forall a o', h' !! a = Some o' ->
       exists o, example_heap !! a = Some o /\
         (body o' = body o \/
          exists cb, body o = Stream true cb /\ body o' = Stream true None)) /\
    (forall a o, a ∉ pool example_vm -> example_heap !! a = Some o ->
       exists o', h' !! a = Some o' /\ (marked o = true -> marked o' = true)).
Proof.
  apply (gc_keeps_reachable_sweeps_rest 13 example_vm example_heap).
  - exact example_ready.
  - vm_compute. lia.
Defined.

(** The cycle on the example: the pool keeps 1, 2, 3, 4, 6, 7 and 10; the
    garbage is freed, and the stream of the dead port is closed before it
    is freed in its turn. *)
Example gc_example :
  match gc 13 example_vm example_heap with
  | Ret (vm', h') =>
      pool vm' = [1; 2; 3; 4; 6; 7; 10]%positive /\
      dom h' = ({[1; 2; 3; 4; 5; 6; 7; 10]})%positive
  | _ => False
  end.
Proof. vm_compute. split; reflexivity. Qed.

End GC.

(** * The evaluator

    [lisp_eval_core] and what it calls, over a state [Lisp_VM] that is
    passed along.  Numbers, strings, symbols and pairs are values; arrays,
    dictionaries, environments, procedures, buffers and ports are objects
    of a heap, reached through [Ref], because they are shared and changed
    in place.  [lisp_err] and [throw] leave by [longjmp]: the outcome
    [Jumped] carries the value given to [longjmp] up to the [setjmp] of
    [op_catch].  Collection of garbage is left out; so is the text that
    goes to the error port, kept as a list of messages. *)

Module Evaluator.

Local Open Scope string_scope.

Abbreviation addr := positive (only parsing).

(** The bits of [struct Lisp_Object] that a pair can have set. *)
Record pair_bits := { is_list : bool; tail_call : bool; is_return : bool }.

Definition plain : pair_bits :=
  {| is_list := false; tail_call := false; is_return := false |}.

(** [Lisp_Object*].  [NIL] is [&_lisp_nil], the pair whose [car] is
    [undefined] and whose [cdr] is itself.  A symbol is interned, so it is
    its name. *)
Inductive Lisp_Object : Type :=
| Number (value : float)
| String (buf : string)
| Symbol (buf : string)
| NIL
| Pair (obj : pair_bits) (car cdr : Lisp_Object)
| Ref (a : addr).

(** [_SYM(name, c, p, s)] *)
Record Sym := sym {
  s_name : string; s_const : bool; s_primitive : bool; s_special : bool }.

Definition _symtab : list Sym :=
  [ sym "&key" true false false; sym "&label" true false false
  ; sym "&optional" true false false; sym "&rest" true false false
  ; sym "*" false true false; sym "*dot*" true false false
  ; sym "*eof*" true false false; sym "*expr-mark*" true false false
  ; sym "*frame-mark*" true false false; sym "*mark*" true false false
  ; sym "*stderr*" true false false; sym "*stdin*" true false false
  ; sym "*stdout*" true false false; sym "+" false true false
  ; sym "-" false true false; sym "/" false true false
  ; sym "<" false true false; sym "<=" false true false
  ; sym "=" false true false; sym ">" false true false
  ; sym ">=" false true false; sym "abs" false true false
  ; sym "acos" false true false; sym "and" false true true
  ; sym "append" false true false; sym "apply" false true false
  ; sym "array" false true false; sym "array->list" false true false
  ; sym "array-count" false true false; sym "array-get" false true false
  ; sym "array-pop!" false true false; sym "array-push!" false true false
  ; sym "array-set!" false true false; sym "array?" false true false
  ; sym "asin" false true false; sym "assoc" false true false
  ; sym "atan" false true false; sym "atom?" false true false
  ; sym "begin" false true true; sym "boolean?" false true false
  ; sym "buffer->string" false true false
  ; sym "buffer-append!" false true false; sym "buffer-getd" false true false
  ; sym "buffer-getf" false true false; sym "buffer-geti16" false true false
  ; sym "buffer-geti32" false true false; sym "buffer-geti8" false true false
  ; sym "buffer-getu16" false true false; sym "buffer-getu32" false true false
  ; sym "buffer-getu8" false true false; sym "buffer-set!" false true false
  ; sym "buffer-setd!" false true false; sym "buffer-setf!" false true false
  ; sym "buffer-seti16!" false true false
  ; sym "buffer-seti32!" false true false
  ; sym "buffer-seti8!" false true false
  ; sym "buffer-setu16!" false true false
  ; sym "buffer-setu32!" false true false
  ; sym "buffer-setu8!" false true false; sym "car" false true false
  ; sym "case" false true true; sym "catch" false true true
  ; sym "cdr" false true false; sym "ceil" false true false
  ; sym "char-at" false true false; sym "clear!" false true false
  ; sym "clone" false true false; sym "close" false true false
  ; sym "concat" false true false; sym "cond" false true true
  ; sym "cons" false true false; sym "consq" false true true
  ; sym "cos" false true false; sym "current-input" false true false
  ; sym "current-output" false true false; sym "date" false true false
  ; sym "debug" false true true; sym "defconst" false true true
  ; sym "define" false true true; sym "defmacro" false true true
  ; sym "defmethod" false true true; sym "dict" false true false
  ; sym "dict->list" false true false; sym "dict-get" false true false
  ; sym "dict-set!" false true false; sym "dict-unset!" false true false
  ; sym "dict?" false true false; sym "display" false true false
  ; sym "else" true false false; sym "env?" false true false
  ; sym "eq?" false true false; sym "error" false true false
  ; sym "eval" false true false; sym "evalq" false true true
  ; sym "exists?" false true false; sym "exp" false true false
  ; sym "false" true false false; sym "find-file" false true false
  ; sym "floor" false true false; sym "flush" false true false
  ; sym "format" false true false; sym "get" false true false
  ; sym "get-byte-count" false true false
  ; sym "get-output-buffer" false true false; sym "if" false true true
  ; sym "input-port?" false true false; sym "integer?" false true false
  ; sym "join" false true false; sym "lambda" false true true
  ; sym "length" false true false; sym "let" false true true
  ; sym "list" false true false; sym "list?" false true false
  ; sym "load" false true false; sym "load-path" false false false
  ; sym "log" false true false; sym "make-buffer" false true false
  ; sym "match" false true true; sym "method?" false true false
  ; sym "mod" false true false; sym "new" false true false
  ; sym "newline" false true false; sym "not" false true false
  ; sym "nth" false true false; sym "null?" false true false
  ; sym "number->string" false true false; sym "number?" false true false
  ; sym "open-input-buffer" false true false
  ; sym "open-input-file" false true false
  ; sym "open-output-buffer" false true false
  ; sym "open-output-file" false true false; sym "or" false true true
  ; sym "output-port?" false true false; sym "pair?" false true false
  ; sym "print" false true false; sym "println" false true false
  ; sym "procedure?" false true false; sym "pump" false true false
  ; sym "quasiquote" false true true; sym "quote" false true true
  ; sym "random" false true false; sym "random-seed" false true false
  ; sym "read" false true false; sym "ready?" false true false
  ; sym "return" false true true; sym "round" false true false
  ; sym "seek" false true false; sym "set!" false true true
  ; sym "set-current-error!" false true false
  ; sym "set-current-input!" false true false
  ; sym "set-current-output!" false true false; sym "sin" false true false
  ; sym "slice" false true false; sym "sort" false true false
  ; sym "split" false true false; sym "sqrt" false true false
  ; sym "string->buffer" false true false
  ; sym "string->number" false true false
  ; sym "string->symbol" false true false
  ; sym "string-compare" false true false; sym "string-find" false true false
  ; sym "string-find-backward" false true false
  ; sym "string-length" false true false; sym "string-quote" false true false
  ; sym "string?" false true false; sym "substring" false true false
  ; sym "symbol->string" false true false; sym "symbol?" false true false
  ; sym "system" false true false; sym "tan" false true false
  ; sym "this" false true false; sym "throw" false true false
  ; sym "time" false true false; sym "trace" false true false
  ; sym "true" true false false; sym "truncate" false true false
  ; sym "undefined" true false false; sym "unquote" true false false
  ; sym "unquote-splicing" true false false; sym "untrace" false true false
  ; sym "with-input" false true true; sym "with-output" false true true
  ; sym "write" false true false; sym "write-buffer" false true false
  ; sym "write-string" false true false ].

Definition find_sym (name : string) : option Sym :=
  find (fun s => String.eqb (s_name s) name) _symtab.

Definition sym_const (name : string) : bool :=
  from_option s_const false (find_sym name).
Definition sym_primitive (name : string) : bool :=
  from_option s_primitive false (find_sym name).
Definition sym_special (name : string) : bool :=
  from_option s_special false (find_sym name).

Definition LISP_UNDEF : Lisp_Object := Symbol "undefined".
Definition LISP_TRUE : Lisp_Object := Symbol "true".
Definition LISP_FALSE : Lisp_Object := Symbol "false".
Definition LISP_EXPR_MARK : Lisp_Object := Symbol "*expr-mark*".
Definition LISP_FRAME_MARK : Lisp_Object := Symbol "*frame-mark*".

(** An entry of a dictionary: the pair [(key . val)] with its bits. *)
Record binding := {
  key : string; val : Lisp_Object; b_const : bool; b_method : bool }.

(** The objects of the heap.  [vm] is the back pointer to the owner. *)
Inductive cell : Type :=
| Array (is_const : bool) (vm : positive) (items : list Lisp_Object)
| Dict (is_const : bool) (vm : positive) (items : list binding)
| Env (no_def : bool) (bindings : addr) (parent : option addr)
| Proc (env : addr) (lambda : Lisp_Object)
| Buffer (is_const : bool) (vm : positive) (cap : nat) (bytes : list Z)
| Port (vm : positive) (out closed no_buf : bool) (iobuf : addr)
       (stream : option addr)
| Stream (vm : positive) (written : list Z).

Inductive Object_Type :=
| O_BUFFER | O_PORT | O_SYMBOL | O_STRING | O_NUMBER | O_PAIR | O_ARRAY
| O_DICT | O_ENV | O_PROC | O_STREAM.

(** The stack has its top at the head of the list: [items[count-1]]. *)
Record Lisp_VM := {
  self : positive;
  eval_level : nat;
  env : addr;
  stack_cap : nat;
  stack : list Lisp_Object;
  catch : bool;
  output : addr;
  heap : gmap positive cell;
  next : positive;
  messages : list string
}.

Inductive outcome (A : Type) : Type :=
| Done (x : A) (vm : Lisp_VM)
| Jumped (val : Z) (vm : Lisp_VM)
| Aborted
| OutOfFuel
| NotModelled.
Arguments Done {A} x vm.
Arguments Jumped {A} val vm.
Arguments Aborted {A}.
Arguments OutOfFuel {A}.
Arguments NotModelled {A}.

Definition M (A : Type) : Type := Lisp_VM -> outcome A.

Definition ret {A} (x : A) : M A := fun vm => Done x vm.

Definition bind {A B} (m : M A) (k : A -> M B) : M B :=
  fun vm =>
    match m vm with
    | Done x vm' => k x vm'
    | Jumped v vm' => Jumped v vm'
    | Aborted => Aborted
    | OutOfFuel => OutOfFuel
    | NotModelled => NotModelled
    end.

Notation "'let*' x := m 'in' k" := (bind m (fun x => k))
  (at level 10, x name, m at level 100, k at level 200).

Definition get : M Lisp_VM := fun vm => Done vm vm.
Definition modify (f : Lisp_VM -> Lisp_VM) : M unit := fun vm => Done tt (f vm).
Definition abort {A} : M A := fun _ => Aborted.
Definition longjmp {A} (val : Z) : M A := fun vm => Jumped val vm.

(** [assert] *)
Definition assert (b : bool) : M unit := if b then ret tt else abort.

(** ** The state *)

Definition with_stack (vm : Lisp_VM) (cap : nat) (s : list Lisp_Object) : Lisp_VM :=
  {| self := self vm; eval_level := eval_level vm; env := env vm;
     stack_cap := cap; stack := s; catch := catch vm; output := output vm;
     heap := heap vm; next := next vm; messages := messages vm |}.

Definition with_env (vm : Lisp_VM) (e : addr) : Lisp_VM :=
  {| self := self vm; eval_level := eval_level vm; env := e;
     stack_cap := stack_cap vm; stack := stack vm; catch := catch vm;
     output := output vm; heap := heap vm; next := next vm;
     messages := messages vm |}.

Definition with_eval_level (vm : Lisp_VM) (n : nat) : Lisp_VM :=
  {| self := self vm; eval_level := n; env := env vm;
     stack_cap := stack_cap vm; stack := stack vm; catch := catch vm;
     output := output vm; heap := heap vm; next := next vm;
     messages := messages vm |}.

Definition with_catch (vm : Lisp_VM) (c : bool) : Lisp_VM :=
  {| self := self vm; eval_level := eval_level vm; env := env vm;
     stack_cap := stack_cap vm; stack := stack vm; catch := c;
     output := output vm; heap := heap vm; next := next vm;
     messages := messages vm |}.

Definition with_heap (vm : Lisp_VM) (h : gmap positive cell) (n : positive)
  : Lisp_VM :=
  {| self := self vm; eval_level := eval_level vm; env := env vm;
     stack_cap := stack_cap vm; stack := stack vm; catch := catch vm;
     output := output vm; heap := h; next := n; messages := messages vm |}.

Definition with_output (vm : Lisp_VM) (p : addr) : Lisp_VM :=
  {| self := self vm; eval_level := eval_level vm; env := env vm;
     stack_cap := stack_cap vm; stack := stack vm; catch := catch vm;
     output := p; heap := heap vm; next := next vm; messages := messages vm |}.

Definition with_message (vm : Lisp_VM) (msg : string) : Lisp_VM :=
  {| self := self vm; eval_level := eval_level vm; env := env vm;
     stack_cap := stack_cap vm; stack := stack vm; catch := catch vm;
     output := output vm; heap := heap vm; next := next vm;
     messages := messages vm ++ [msg] |}.

Definition set_stack (s : list Lisp_Object) : M unit :=
  modify (fun vm => with_stack vm (stack_cap vm) s).
Definition set_env (e : addr) : M unit := modify (fun vm => with_env vm e).
Definition set_eval_level (n : nat) : M unit :=
  modify (fun vm => with_eval_level vm n).
Definition message (msg : string) : M unit :=
  modify (fun vm => with_message vm msg).

(** [*a], for a pointer that leads to an object. *)
Definition deref (a : addr) : M cell :=
  fun vm => match heap vm !! a with
            | Some c => Done c vm
            | None => Aborted
            end.

Definition store (a : addr) (c : cell) : M unit :=
  fun vm => Done tt (with_heap vm (<[a := c]> (heap vm)) (next vm)).

(** [new_obj]: a block that was not in use. *)
Definition new_obj (c : cell) : M addr :=
  fun vm => Done (next vm)
                 (with_heap vm (<[next vm := c]> (heap vm)) (Pos.succ (next vm))).

(** [o->type] *)
Definition cell_type (c : cell) : Object_Type :=
  match c with
  | Array _ _ _ => O_ARRAY
  | Dict _ _ _ => O_DICT
  | Env _ _ _ => O_ENV
  | Proc _ _ => O_PROC
  | Buffer _ _ _ _ => O_BUFFER
  | Port _ _ _ _ _ _ => O_PORT
  | Stream _ _ => O_STREAM
  end.

Definition type_of (o : Lisp_Object) : M Object_Type :=
  match o with
  | Number _ => ret O_NUMBER
  | String _ => ret O_STRING
  | Symbol _ => ret O_SYMBOL
  | NIL | Pair _ _ _ => ret O_PAIR
  | Ref a => let* c := deref a in ret (cell_type c)
  end.

(** [o->is_const] *)
Definition obj_is_const (o : Lisp_Object) : M bool :=
  match o with
  | Number _ | String _ | NIL => ret true
  | Symbol name => ret (sym_const name)
  | Pair _ _ _ => ret false
  | Ref a =>
      let* c := deref a in
      match c with
      | Array k _ _ | Dict k _ _ | Buffer k _ _ _ => ret k
      | _ => ret false
      end
  end.

(** The bits [is_list], [tail_call] and [is_return] of an object. *)
Definition bits_of (o : Lisp_Object) : pair_bits :=
  match o with
  | Pair b _ _ => b
  | NIL => {| is_list := true; tail_call := false; is_return := false |}
  | _ => plain
  end.

(** [CAR(p)] and [CDR(p)], for a pointer to a pair. *)
Definition CAR (p : Lisp_Object) : M Lisp_Object :=
  match p with
  | Pair _ a _ => ret a
  | NIL => ret LISP_UNDEF
  | _ => abort
  end.

Definition CDR (p : Lisp_Object) : M Lisp_Object :=
  match p with
  | Pair _ _ d => ret d
  | NIL => ret NIL
  | _ => abort
  end.

Definition CADR (p : Lisp_Object) : M Lisp_Object := let* d := CDR p in CAR d.
Definition CDDR (p : Lisp_Object) : M Lisp_Object := let* d := CDR p in CDR d.

(** [is_list]: down the [cdr]s to a pair with the bit set, or to an
    object that is no pair. *)
Fixpoint is_list_obj (o : Lisp_Object) : bool :=
  match o with
  | Pair b _ d => if is_list b then true else is_list_obj d
  | NIL => true
  | _ => false
  end.

(** [a == b] on pointers.  Numbers, strings and pairs are values here, so
    two of them are the same object when they are the same tree. *)
Fixpoint same_obj (a b : Lisp_Object) : bool :=
  match a, b with
  | Number x, Number y => PrimFloat.eqb x y
  | String x, String y => String.eqb x y
  | Symbol x, Symbol y => String.eqb x y
  | NIL, NIL => true
  | Pair _ a1 d1, Pair _ a2 d2 => same_obj a1 a2 && same_obj d1 d2
  | Ref x, Ref y => Pos.eqb x y
  | _, _ => false
  end.

(** ** The value stack *)

Definition lisp_push (o : Lisp_Object) : M unit :=
  fun vm =>
    let cap := if Nat.eqb (length (stack vm)) (stack_cap vm)
               then (2 * stack_cap vm)%nat else stack_cap vm in
    Done tt (with_stack vm cap (o :: stack vm)).

Definition lisp_pop (n : nat) : M Lisp_Object :=
  fun vm =>
    match stack vm with
    | top :: _ =>
        if (n <=? length (stack vm))%nat
        then Done top (with_stack vm (stack_cap vm) (drop n (stack vm)))
        else Aborted
    | [] => Aborted
    end.

Definition lisp_top (n : nat) : M Lisp_Object :=
  fun vm =>
    match stack vm !! n with
    | Some o => Done o vm
    | None => Aborted
    end.

(** [lisp_cons]: the two objects on top make a pair. *)
Definition lisp_cons : M unit :=
  fun vm =>
    match stack vm with
    | t1 :: t0 :: rest =>
        Done tt (with_stack vm (stack_cap vm) (Pair plain t0 t1 :: rest))
    | _ => Aborted
    end.

(** [lisp_cons(vm)->obj.bit = 1]: a bit of the pair just made. *)
Definition set_top_bits (f : pair_bits -> pair_bits) : M unit :=
  fun vm =>
    match stack vm with
    | Pair b a d :: rest =>
        Done tt (with_stack vm (stack_cap vm) (Pair (f b) a d :: rest))
    | _ => Aborted
    end.

(** ** Errors *)

(** [throw_error], with the debugger off: the pair [(error . obj)] is
    pushed and control goes to the [setjmp] of the innermost catch. *)
Definition throw_error {A} (obj : Lisp_Object) : M A :=
  let* vm := get in
  let* _ := assert (catch vm) in
  let* _ := lisp_push (Symbol "error") in
  let* _ := lisp_push obj in
  let* _ := lisp_cons in
  longjmp 1.

(** [lisp_err]: the message goes to the error port. *)
Definition lisp_err {A} (msg : string) : M A :=
  let* _ := message msg in
  throw_error NIL.

(** [vm_check(x)] *)
Definition vm_check (x : positive) : M unit :=
  let* vm := get in
  if decide (self vm = x) then ret tt
  else lisp_err "Can not modify foreign object".

(** ** Dictionaries and environments

    The entries of a dictionary in the order they were added;
    [lisp_dict_assoc] gives the first with the key, which is what both
    the scan and the lookup table of the C code find. *)

Definition lisp_dict_assoc (items : list binding) (name : string)
  : option binding :=
  find (fun b => String.eqb (key b) name) items.

Definition dict_items (d : addr) : M (list binding) :=
  let* c := deref d in
  match c with
  | Dict _ _ items => ret items
  | _ => abort
  end.

Definition lisp_dict_new : M addr :=
  let* vm := get in new_obj (Dict false (self vm) []).

Definition lisp_dict_add (d : addr) (name : string) (v : Lisp_Object) : M unit :=
  let* c := deref d in
  match c with
  | Dict k o items =>
      store d (Dict k o (items ++ [{| key := name; val := v;
                                      b_const := false; b_method := false |}]))
  | _ => abort
  end.

Definition lisp_dict_clear (d : addr) : M unit :=
  let* c := deref d in
  match c with
  | Dict k o _ => store d (Dict k o [])
  | _ => abort
  end.

(** A field of the first pair with the key [name] is assigned. *)
Fixpoint update_first (name : string) (f : binding -> binding)
    (items : list binding) : list binding :=
  match items with
  | [] => []
  | b :: rest =>
      if String.eqb (key b) name then f b :: rest
      else b :: update_first name f rest
  end.

Definition update_binding (d : addr) (name : string) (f : binding -> binding)
  : M unit :=
  let* c := deref d in
  match c with
  | Dict k o items => store d (Dict k o (update_first name f items))
  | _ => abort
  end.

Definition set_cdr (v : Lisp_Object) (b : binding) : binding :=
  {| key := key b; val := v; b_const := b_const b; b_method := b_method b |}.

Definition set_const (b : binding) : binding :=
  {| key := key b; val := val b; b_const := true; b_method := b_method b |}.

Definition env_bindings (e : addr) : M addr :=
  let* c := deref e in
  match c with
  | Env _ d _ => ret d
  | _ => abort
  end.

Definition lisp_env_new (parent : option addr) : M addr :=
  let* vm := get in
  let* e := new_obj (Env false (Pos.succ (next vm)) parent) in
  let* _ := lisp_push (Ref e) in
  let* _ := lisp_dict_new in
  let* _ := lisp_pop 1 in
  ret e.

Definition lisp_begin_env (parent : option addr) : M unit :=
  let* vm := get in
  let* _ := lisp_push LISP_FRAME_MARK in
  let* _ := lisp_push (Ref (env vm)) in
  let* e := lisp_env_new parent in
  set_env e.

(** [lisp_end_env]: the stack holds the frame mark, the environment that
    was current, and the result. *)
Definition lisp_end_env : M unit :=
  let* vm := get in
  match stack vm with
  | p2 :: p1 :: p0 :: rest =>
      let* _ := assert (same_obj p0 LISP_FRAME_MARK) in
      let* t := type_of p1 in
      match t, p1 with
      | O_ENV, Ref e =>
          let* _ := set_env e in
          set_stack (p2 :: rest)
      | _, _ => abort
      end
  | _ => abort
  end.

Definition clear_env : M unit :=
  let* vm := get in
  let* d := env_bindings (env vm) in
  lisp_dict_clear d.

(** [lisp_env_assoc]: the dictionary in which the name is bound, and the
    pair.  [gas] bounds the chain of parents. *)
Fixpoint lisp_env_assoc (gas : nat) (e : option addr) (name : string)
  : M (option (addr * binding)) :=
  match gas with
  | O => fun _ => OutOfFuel
  | S g =>
      match e with
      | None => ret None
      | Some a =>
          let* c := deref a in
          match c with
          | Env _ d parent =>
              let* items := dict_items d in
              match lisp_dict_assoc items name with
              | Some b => ret (Some (d, b))
              | None => lisp_env_assoc g parent name
              end
          | _ => abort
          end
      end
  end.

Definition lisp_getvar (gas : nat) (name : string) : M Lisp_Object :=
  let* _ := assert (negb (sym_const name)) in
  let* vm := get in
  let* p := lisp_env_assoc gas (Some (env vm)) name in
  match p with
  | None =>
      if sym_primitive name then ret (Symbol name)
      else lisp_err ("Undefined variable '" +:+ name +:+ "'")
  | Some (_, b) => ret (val b)
  end.

Definition lisp_defvar (name : string) (value : Lisp_Object) : M unit :=
  let* _ := assert (negb (sym_const name)) in
  let* vm := get in
  let* d := env_bindings (env vm) in
  let* items := dict_items d in
  match lisp_dict_assoc items name with
  | None => lisp_dict_add d name value
  | Some t =>
      if b_const t then lisp_err ("Can not redefine constant: " +:+ name)
      else update_binding d name (set_cdr value)
  end.

Definition dict_owner (d : addr) : M positive :=
  let* c := deref d in
  match c with
  | Dict _ o _ => ret o
  | _ => abort
  end.

Fixpoint setvar_find (gas : nat) (e : option addr) (name : string)
  : M (option (addr * binding)) :=
  match gas with
  | O => fun _ => OutOfFuel
  | S g =>
      match e with
      | None => ret None
      | Some a =>
          let* c := deref a in
          match c with
          | Env _ d parent =>
              let* items := dict_items d in
              match lisp_dict_assoc items name with
              | Some b =>
                  let* vm := get in
                  let* o := dict_owner d in
                  if decide (o = self vm) then ret (Some (d, b))
                  else lisp_err ("Can not modify variable in foreign environment -- "
                                 +:+ name)
              | None => setvar_find g parent name
              end
          | _ => abort
          end
      end
  end.

Definition lisp_setvar (gas : nat) (name : string) (value : Lisp_Object) : M unit :=
  let* _ := assert (negb (sym_const name)) in
  let* vm := get in
  let* p := setvar_find gas (Some (env vm)) name in
  match p with
  | Some (d, b) =>
      if b_const b then lisp_err ("Can not modify constant: " +:+ name)
      else update_binding d name (set_cdr value)
  | None => lisp_err ("Undefined variable: '" +:+ name +:+ "'")
  end.

(** ** Numbers and type checks *)

(** [objtypes[type].name] *)
Definition objtype_name (t : Object_Type) : string :=
  match t with
  | O_BUFFER => "BUFFER" | O_PORT => "PORT" | O_SYMBOL => "SYMBOL"
  | O_STRING => "STRING" | O_NUMBER => "NUMBER" | O_PAIR => "PAIR"
  | O_ARRAY => "ARRAY" | O_DICT => "DICTIONARY" | O_ENV => "ENVIRONMENT"
  | O_PROC => "PROCEDURE" | O_STREAM => "STREAM"
  end.

Definition type_eqb (a b : Object_Type) : bool :=
  String.eqb (objtype_name a) (objtype_name b).

(** [safe_ptr] *)
Definition safe_ptr (o : Lisp_Object) (type : Object_Type) : M Lisp_Object :=
  let* t := type_of o in
  if type_eqb t type then ret o
  else lisp_err ("expect " +:+ objtype_name type +:+ " but got " +:+ objtype_name t).

(** [is_integer]: [d == round(d)] *)
Definition is_integer (d : float) : bool :=
  match Prim2SF d with
  | S754_zero _ | S754_infinity _ => true
  | S754_nan => false
  | S754_finite _ m e => (0 <=? e)%Z || (Z.pos m mod 2 ^ (- e) =? 0)%Z
  end.

(** [(int)d], for [d] an integer in the range of [int] *)
Definition int_of_double (d : float) : Z :=
  match Prim2SF d with
  | S754_finite sign m e =>
      let v := (if 0 <=? e then Z.pos m * 2 ^ e else Z.pos m / 2 ^ (- e))%Z in
      (if sign then - v else v)%Z
  | _ => 0
  end.

Definition INT_MAX : float := 2147483647%float.
Definition INT_MIN : float := (-2147483648)%float.

Definition lisp_safe_int (o : Lisp_Object) : M Z :=
  let* t := type_of o in
  match o with
  | Number d =>
      if is_integer d then
        if PrimFloat.ltb INT_MAX d || PrimFloat.ltb d INT_MIN
        then lisp_err "integer out of range"
        else ret (int_of_double d)
      else lisp_err "not an integer"
  | _ => lisp_err "not an integer"
  end.

Definition lisp_number_value (o : Lisp_Object) : M float :=
  let* n := safe_ptr o O_NUMBER in
  match n with
  | Number d => ret d
  | _ => abort
  end.

Definition op_p (val : bool) : M unit :=
  lisp_push (if val then LISP_TRUE else LISP_FALSE).

(** ** The evaluator, one level

    [lisp_eval_rec] stands for the calls of [lisp_eval_core] from inside
    the evaluation of an expression; its argument is [at_tail].  [gas]
    bounds the turns of the loops that have no other bound. *)
Section Knot.

Variable gas : nat.
Variable lisp_eval_rec : bool -> M Lisp_Object.

Definition lisp_eval : M Lisp_Object := lisp_eval_rec false.
Definition lisp_eval_tail : M Lisp_Object := lisp_eval_rec true.

(** The first loop of [eval_args]: the pairs of the list are pushed. *)
Fixpoint push_pairs (p : Lisp_Object) : M nat :=
  match p with
  | NIL => ret O
  | Pair _ _ d =>
      let* _ := lisp_push p in
      let* n := push_pairs d in
      ret (S n)
  | _ => abort
  end.

(** The second loop: from the last argument to the first.  A pair whose
    [car] is constant and whose [cdr] came out as it was is used again. *)
Fixpoint eval_args_loop (n : nat) : M unit :=
  match n with
  | O => ret tt
  | S n' =>
      let* t := lisp_top 0 in
      let* p := lisp_top 1 in
      let* d := CDR p in
      let* a := CAR p in
      let* k := if same_obj d t then obj_is_const a else ret false in
      if k then
        let* _ := lisp_pop 1 in
        eval_args_loop n'
      else
        let* _ := lisp_push a in
        let* _ := lisp_eval in
        let* v := lisp_top 0 in
        let* _ := lisp_pop 3 in
        let* _ := lisp_push (Pair plain v t) in
        eval_args_loop n'
  end.

Definition eval_args (args : Lisp_Object) : M unit :=
  let* n := push_pairs args in
  let* _ := lisp_push NIL in
  eval_args_loop n.

(** [eval_list]: every expression but the last is evaluated by
    [lisp_eval]; a result with [is_return] set ends the list. *)
Fixpoint eval_list (l : Lisp_Object) (at_tail : bool) : M unit :=
  match l with
  | Pair _ a d =>
      match d with
      | NIL =>
          let* _ := lisp_push a in
          let* _ := lisp_eval_rec at_tail in
          ret tt
      | _ =>
          let* _ := lisp_push a in
          let* r := lisp_eval in
          if is_return (bits_of r) then ret tt
          else
            let* _ := lisp_pop 1 in
            eval_list d at_tail
      end
  | NIL =>
      let* _ := lisp_push LISP_UNDEF in
      let* _ := lisp_eval_rec at_tail in
      ret tt
  | _ => abort
  end.

Definition eval_body (l : Lisp_Object) : M unit := eval_list l true.

(** [name->buf[0] == '&'] *)
Definition is_modifier (name : string) : bool := String.prefix "&" name.

Definition is_nil (o : Lisp_Object) : bool :=
  match o with
  | NIL => true
  | _ => false
  end.

Definition proc_parts (c : addr) : M (addr * Lisp_Object) :=
  let* x := deref c in
  match x with
  | Proc e l => ret (e, l)
  | _ => abort
  end.

Definition bind_name (name : string) (v : Lisp_Object) : M unit :=
  let* vm := get in
  let* d := env_bindings (env vm) in
  lisp_dict_add d name v.

(** The loop of [bind_args] over the formal arguments; it gives the
    modifier and the values that are left. *)
Fixpoint bind_loop (c : addr) (formals : Lisp_Object) (modifier : option string)
    (values : Lisp_Object) (procedure_name : string)
  : M (option string * Lisp_Object * string) :=
  match formals with
  | NIL => ret (modifier, values, procedure_name)
  | Pair _ (Symbol name) rest =>
      if is_modifier name then
        bind_loop c rest (Some name) values procedure_name
      else
        match modifier with
        | None =>
            if is_nil values
            then lisp_err (procedure_name +:+ ": missing arguments")
            else
              let* a := CAR values in
              let* _ := bind_name name a in
              let* values := CDR values in
              bind_loop c rest None values procedure_name
        | Some m =>
            if String.eqb m "&label" then
              let* _ := bind_name name (Ref c) in
              bind_loop c rest None values name
            else if String.eqb m "&optional" then
              let* a := if is_nil values then ret LISP_FALSE else CAR values in
              let* _ := bind_name name a in
              let* values := CDR values in
              bind_loop c rest modifier values procedure_name
            else if String.eqb m "&rest" then
              let* _ := bind_name name values in
              bind_loop c rest modifier values procedure_name
            else if String.eqb m "&key" then
              fun _ => NotModelled
            else
              lisp_err (procedure_name +:+ ": invalid argument modifier '"
                        +:+ m +:+ "'")
        end
  | _ => abort
  end.

Definition bind_args (c : addr) (values : Lisp_Object) : M unit :=
  let* _ := clear_env in
  let* parts := proc_parts c in
  let* formals := CAR (snd parts) in
  let* r := bind_loop c formals None values "<unknown-procedure>" in
  match r with
  | (None, values, procedure_name) =>
      if is_nil values then ret tt
      else lisp_err (procedure_name +:+ ": too many arguments")
  | _ => ret tt
  end.

(** One turn of the loop of [eval_procedure_body]: the body is
    evaluated, and a result with [is_return] set is taken out of its
    pair. *)
Definition body_turn (lbody : Lisp_Object) : M Lisp_Object :=
  let* _ := eval_body lbody in
  let* t := lisp_top 0 in
  if is_return (bits_of t) then
    let* _ := lisp_pop 1 in
    let* t := CAR t in
    let* _ := lisp_push t in
    ret t
  else ret t.

(** [t->tail_call && CADR(t) == c] *)
Definition is_self_tail_call (c : addr) (t : Lisp_Object) : M bool :=
  if tail_call (bits_of t) then
    let* op := CADR t in ret (same_obj op (Ref c))
  else ret false.

(** The arguments of the tail call are bound in a new environment, and
    the marker is popped. *)
Definition rebind (c c_env : addr) (t : Lisp_Object) : M unit :=
  let* args := CDDR t in
  let* e := lisp_env_new (Some c_env) in
  let* _ := set_env e in
  let* _ := bind_args c args in
  let* _ := lisp_pop 1 in
  ret tt.

(** The loop of [eval_procedure_body].  When the body leaves a tail call
    of the procedure [c] itself, the body runs again: no call is made. *)
Fixpoint body_loop (g : nat) (c : addr) (c_env : addr) (lbody : Lisp_Object)
  : M unit :=
  match g with
  | O => fun _ => OutOfFuel
  | S g' =>
      let* t := body_turn lbody in
      let* again := is_self_tail_call c t in
      if again then
        let* _ := rebind c c_env t in
        body_loop g' c c_env lbody
      else ret tt
  end.

Definition eval_procedure_body (c : addr) (args : Lisp_Object) : M unit :=
  let* parts := proc_parts c in
  let* lbody := CDR (snd parts) in
  let* _ := bind_args c args in
  body_loop gas c (fst parts) lbody.

Definition apply_procedure (c : addr) (args : Lisp_Object) : M unit :=
  let* parts := proc_parts c in
  let* _ := lisp_begin_env (Some (fst parts)) in
  let* _ := eval_procedure_body c args in
  lisp_end_env.

(** *** Special forms *)

Definition op_if (args : Lisp_Object) : M unit :=
  let* test := CAR args in
  let* _ := lisp_push test in
  let* _ := lisp_eval in
  let* v := lisp_pop 1 in
  if same_obj v LISP_FALSE then
    let* p := CDDR args in
    let* e := CAR p in
    let* _ := lisp_push e in
    let* _ := lisp_eval_tail in ret tt
  else
    let* e := CADR args in
    let* _ := lisp_push e in
    let* _ := lisp_eval_tail in ret tt.

Definition op_set (args : Lisp_Object) : M unit :=
  let* a := CAR args in
  let* t := type_of a in
  match a with
  | Symbol name =>
      if sym_const name
      then lisp_err ("set!: constant symbol `" +:+ name +:+ "'")
      else
        let* e := CADR args in
        let* _ := lisp_push e in
        let* o := lisp_eval in
        let* _ := lisp_setvar gas name o in
        let* _ := lisp_pop 1 in
        lisp_push LISP_UNDEF
  | _ => lisp_err "set!: bad variable name"
  end.

(** The loop of [op_lambda] over the formal arguments. *)
Fixpoint check_formals (p : Lisp_Object) : M unit :=
  match p with
  | NIL => ret tt
  | Pair _ a rest =>
      let* t := type_of a in
      match a with
      | Symbol s =>
          if sym_const s && negb (is_modifier s)
          then lisp_err ("Bad argument: `" +:+ s +:+ "' is const")
          else check_formals rest
      | _ => lisp_err ("Bad argument: " +:+ objtype_name t)
      end
  | _ => abort
  end.

Definition op_lambda (e : addr) (args : Lisp_Object) : M unit :=
  let* formals := CAR args in
  let* _ := if is_list_obj formals then ret tt
            else lisp_err "Bad arguments: not a list" in
  let* _ := check_formals formals in
  let* proc := new_obj (Proc e args) in
  lisp_push (Ref proc).

Definition defproc (args body : Lisp_Object) : M unit :=
  let* name := CAR args in
  let* t := type_of name in
  match name with
  | Symbol n =>
      let* _ := lisp_push (Symbol "&label") in
      let* _ := lisp_push args in
      let* _ := lisp_cons in
      let* _ := lisp_push body in
      let* _ := lisp_cons in
      let* vm := get in
      let* l := lisp_top 0 in
      let* _ := op_lambda (env vm) l in
      let* proc := lisp_top 0 in
      let* _ := lisp_defvar n proc in
      let* _ := lisp_pop 2 in
      lisp_push name
  | _ => lisp_err "procedure name must be a symbol"
  end.

Definition set_no_def (e : addr) (b : bool) : M unit :=
  let* c := deref e in
  match c with
  | Env _ d parent => store e (Env b d parent)
  | _ => abort
  end.

Definition env_no_def (e : addr) : M bool :=
  let* c := deref e in
  match c with
  | Env b _ _ => ret b
  | _ => abort
  end.

(** [op_define] leaves the name on the stack and gives it back: the
    pair it returns in C is the binding of that name in [vm->env]. *)
Definition op_define (args : Lisp_Object) : M string :=
  let* _ := if is_nil args then lisp_err "define: missing arguments" else ret tt in
  let* vm := get in
  let* nd := env_no_def (env vm) in
  let* _ := if nd then lisp_err "define: prohibited" else ret tt in
  let* a := CAR args in
  let* t := type_of a in
  match t with
  | O_SYMBOL =>
      match a with
      | Symbol name =>
          if sym_const name then lisp_err ("define: const " +:+ name)
          else
            let* _ := lisp_push a in
            let* e := CADR args in
            let* _ := lisp_push e in
            let* _ := set_no_def (env vm) true in
            let* v := lisp_eval in
            let* vm1 := get in
            let* _ := set_no_def (env vm1) false in
            let* _ := lisp_defvar name v in
            let* _ := lisp_pop 1 in
            ret name
      | _ => abort
      end
  | O_PAIR =>
      let* body := CDR args in
      let* _ := defproc a body in
      let* name := CAR a in
      match name with
      | Symbol n => ret n
      | _ => abort
      end
  | _ => lisp_err "define: bad arguments"
  end.

Definition op_defconst (args : Lisp_Object) : M unit :=
  let* name := op_define args in
  let* vm := get in
  let* d := env_bindings (env vm) in
  update_binding d name set_const.

(** [op_error]; what it prints of its arguments is left out. *)
Definition op_error {A} (args : Lisp_Object) : M A :=
  let* _ := message "ERROR:" in
  throw_error args.

(** [op_catch]: [setjmp] gives 0 and the body is evaluated; a [longjmp]
    comes back to the same place with the state of that moment.  Either
    way the top of the stack becomes the one result. *)
Definition op_catch (args : Lisp_Object) : M unit :=
  fun vm =>
    let old_level := eval_level vm in
    let cnt := length (stack vm) in
    let old_env := env vm in
    let after (vm1 : Lisp_VM) : outcome unit :=
      match stack vm1 with
      | top :: _ =>
          if (cnt <? length (stack vm1))%nat then
            Done tt
              (with_stack
                 (with_env (with_catch (with_eval_level vm1 old_level) (catch vm))
                           old_env)
                 (stack_cap vm1)
                 (top :: drop (length (stack vm1) - cnt) (stack vm1)))
          else Aborted
      | [] => Aborted
      end in
    match eval_list args false (with_catch vm true) with
    | Done _ vm1 => after vm1
    | Jumped _ vm1 => after vm1
    | Aborted => Aborted
    | OutOfFuel => OutOfFuel
    | NotModelled => NotModelled
    end.

Definition op_throw {A} (args : Lisp_Object) : M A :=
  let* d := CDR args in
  let* _ := if is_nil d then ret tt else lisp_err "throw: too many arguments" in
  let* v := CAR args in
  let* _ := lisp_push v in
  let* vm := get in
  let* _ := assert (catch vm) in
  longjmp 2.

(** *** Arithmetic *)

Fixpoint fold_numbers (f : float -> float -> float) (args : Lisp_Object)
    (t : float) : M float :=
  match args with
  | NIL => ret t
  | Pair _ a rest =>
      let* v := lisp_number_value a in
      fold_numbers f rest (f t v)
  | _ => abort
  end.

Definition op_add (args : Lisp_Object) : M unit :=
  let* t := fold_numbers PrimFloat.add args 0%float in
  lisp_push (Number t).

Definition op_sub (args : Lisp_Object) : M unit :=
  let* d := CDR args in
  let* t :=
    if is_nil d then fold_numbers PrimFloat.sub args 0%float
    else
      let* a := CAR args in
      let* v := lisp_number_value a in
      fold_numbers PrimFloat.sub d v in
  lisp_push (Number t).

Fixpoint op_numeric_test (test : float -> float -> bool) (args : Lisp_Object)
  : M unit :=
  match args with
  | Pair _ a (Pair _ b _ as rest) =>
      let* x := lisp_number_value a in
      let* y := lisp_number_value b in
      if test x y then op_numeric_test test rest
      else lisp_push LISP_FALSE
  | Pair _ _ NIL | NIL => lisp_push LISP_TRUE
  | _ => abort
  end.

(** *** Arrays *)

Definition array_parts (o : Lisp_Object) : M (addr * bool * positive * list Lisp_Object) :=
  let* a := safe_ptr o O_ARRAY in
  match a with
  | Ref x =>
      let* c := deref x in
      match c with
      | Array k owner items => ret (x, k, owner, items)
      | _ => abort
      end
  | _ => abort
  end.

Definition array_get (args : Lisp_Object) : M unit :=
  let* o := CAR args in
  let* a := array_parts o in
  let '(_, _, _, items) := a in
  let* i := CADR args in
  let* index := lisp_safe_int i in
  if (index <? 0)%Z || (Z.of_nat (length items) <=? index)%Z
  then lisp_err "array-get: out of bound"
  else
    match items !! Z.to_nat index with
    | Some v => lisp_push v
    | None => abort
    end.

Definition array_set (args : Lisp_Object) : M unit :=
  let* o := CAR args in
  let* a := array_parts o in
  let '(x, k, owner, items) := a in
  let* _ := vm_check owner in
  let* i := CADR args in
  let* index := lisp_safe_int i in
  if (index <? 0)%Z || (Z.of_nat (length items) <=? index)%Z
  then lisp_err "array-set: out of bound"
  else
    let* dd := CDDR args in
    let* v := CAR dd in
    let* _ := store x (Array k owner (<[Z.to_nat index := v]> items)) in
    lisp_push LISP_UNDEF.

(** *** Ports *)

Definition port_parts (p : addr)
  : M (positive * bool * bool * bool * addr * option addr) :=
  let* c := deref p in
  match c with
  | Port owner out closed no_buf iobuf stream =>
      ret (owner, out, closed, no_buf, iobuf, stream)
  | _ => abort
  end.

Definition buffer_parts (b : addr) : M (bool * positive * nat * list Z) :=
  let* c := deref b in
  match c with
  | Buffer k owner cap bytes => ret (k, owner, cap, bytes)
  | _ => abort
  end.

(** [lisp_buffer_add] *)
Definition lisp_buffer_add (b : addr) (c : Z) : M unit :=
  let* parts := buffer_parts b in
  let '(k, owner, cap, bytes) := parts in
  let* _ := assert (negb k) in
  let cap := if (cap <=? length bytes + 1)%nat then (2 * cap)%nat else cap in
  let* _ := assert (length bytes <? cap)%nat in
  store b (Buffer k owner cap (bytes ++ [c])).

(** [lisp_port_flush], for a port with no limit on its output: what
    waits in the buffer goes to the stream. *)
Definition lisp_port_flush (p : addr) : M unit :=
  let* parts := port_parts p in
  let '(_, out, _, _, iobuf, stream) := parts in
  let* _ := assert out in
  match stream with
  | None => ret tt
  | Some st =>
      let* bp := buffer_parts iobuf in
      let '(k, owner, cap, bytes) := bp in
      match bytes with
      | [] => ret tt
      | _ =>
          let* c := deref st in
          match c with
          | Stream o written =>
              let* _ := store st (Stream o (written ++ bytes)) in
              store iobuf (Buffer k owner cap [])
          | _ => abort
          end
      end
  end.

Definition buffer_full (b : addr) : M bool :=
  let* parts := buffer_parts b in
  let '(_, _, cap, bytes) := parts in
  ret (Nat.eqb cap (length bytes)).

Definition lisp_port_putc (p : addr) (c : Z) : M unit :=
  let* parts := port_parts p in
  let '(_, out, closed, no_buf, iobuf, _) := parts in
  let* _ := assert out in
  if closed then ret tt
  else
    let* bp := buffer_parts iobuf in
    let '(_, _, cap, bytes) := bp in
    let* _ := if (cap <=? length bytes)%nat then lisp_port_flush p else ret tt in
    let* bp := buffer_parts iobuf in
    let '(_, _, cap, bytes) := bp in
    let* _ := assert (length bytes <? cap)%nat in
    let* _ := lisp_buffer_add iobuf c in
    let* full := buffer_full iobuf in
    if no_buf || (c =? 10)%Z || full then lisp_port_flush p else ret tt.

(** The loop of [lisp_port_puts]; it gives [should_flush]. *)
Fixpoint puts_loop (p iobuf : addr) (s : list Z) (should_flush : bool) : M bool :=
  match s with
  | [] => ret should_flush
  | c :: rest =>
      let* full := buffer_full iobuf in
      let* should_flush :=
        if full then let* _ := lisp_port_flush p in ret false
        else ret should_flush in
      let* _ := lisp_buffer_add iobuf c in
      puts_loop p iobuf rest (if (c =? 10)%Z then true else should_flush)
  end.

Definition bytes_of (s : string) : list Z :=
  (fun c => Z.of_nat (Ascii.nat_of_ascii c)) <$> String.list_ascii_of_string s.

Definition lisp_port_puts (p : addr) (s : string) : M unit :=
  let* parts := port_parts p in
  let '(_, _, _, no_buf, iobuf, _) := parts in
  let* should_flush := puts_loop p iobuf (bytes_of s) false in
  if no_buf || should_flush then lisp_port_flush p else ret tt.

Definition is_port (o : Lisp_Object) : M (option addr) :=
  let* t := type_of o in
  match t, o with
  | O_PORT, Ref p => ret (Some p)
  | _, _ => ret None
  end.

Definition write_string (args : Lisp_Object) : M unit :=
  let* vm := get in
  let* o := CADR args in
  let* port := is_port o in
  let* p :=
    match port with
    | Some p =>
        let* parts := port_parts p in
        let '(_, out, _, _, _, _) := parts in
        if out then ret p else lisp_err "Not output port"
    | None =>
        if same_obj o LISP_UNDEF then ret (output vm) else lisp_err "Not port"
    end in
  let* a := CAR args in
  let* s := safe_ptr a O_STRING in
  match s with
  | String buf =>
      let* _ := lisp_port_puts p buf in
      lisp_push LISP_UNDEF
  | _ => abort
  end.

Definition op_newline (args : Lisp_Object) : M unit :=
  let* vm := get in
  let* a := CAR args in
  let* port := is_port a in
  let* _ := lisp_port_putc (default (output vm) port) 10 in
  lisp_push LISP_UNDEF.

Definition input_portp (args : Lisp_Object) : M unit :=
  let* a := CAR args in
  let* port := is_port a in
  let* is_input :=
    match port with
    | Some p =>
        let* parts := port_parts p in
        let '(_, out, _, _, _, _) := parts in ret (negb out)
    | None => ret false
    end in
  if is_input then lisp_push LISP_FALSE else lisp_push LISP_FALSE.

Definition output_portp (args : Lisp_Object) : M unit :=
  let* a := CAR args in
  let* port := is_port a in
  let* is_output :=
    match port with
    | Some p =>
        let* parts := port_parts p in
        let '(_, out, _, _, _, _) := parts in ret out
    | None => ret false
    end in
  if is_output then lisp_push LISP_TRUE else lisp_push LISP_FALSE.

Definition op_car (args : Lisp_Object) : M unit :=
  let* a := CAR args in
  let* t := type_of a in
  match t, a with
  | O_PAIR, _ => let* v := CAR a in lisp_push v
  | O_PROC, Ref c => let* parts := proc_parts c in lisp_push (Ref (fst parts))
  | _, _ => lisp_err "car: invalid operand"
  end.

Definition op_cdr (args : Lisp_Object) : M unit :=
  let* a := CAR args in
  let* t := type_of a in
  match t, a with
  | O_PAIR, _ => let* v := CDR a in lisp_push v
  | O_PROC, Ref c => let* parts := proc_parts c in lisp_push (snd parts)
  | _, _ => lisp_err "cdr: invalid operand"
  end.

Definition op_return (args : Lisp_Object) : M unit :=
  let* a := CAR args in
  let* _ := lisp_push a in
  let* _ := lisp_eval_tail in
  let* _ := lisp_push NIL in
  let* _ := lisp_cons in
  set_top_bits (fun b => {| is_list := is_list b; tail_call := tail_call b;
                            is_return := true |}).

(** [apply_primitive], for the primitives of this model; the others end
    in [NotModelled]. *)
Definition apply_primitive (name : string) (args : Lisp_Object) : M unit :=
  if String.eqb name "+" then op_add args
  else if String.eqb name "-" then op_sub args
  else if String.eqb name "<" then op_numeric_test PrimFloat.ltb args
  else if String.eqb name "=" then op_numeric_test PrimFloat.eqb args
  else if String.eqb name "quote" then let* a := CAR args in lisp_push a
  else if String.eqb name "list" then lisp_push args
  else if String.eqb name "not" then
    let* a := CAR args in op_p (same_obj a LISP_FALSE)
  else if String.eqb name "null?" then let* a := CAR args in op_p (is_nil a)
  else if String.eqb name "cons" then
    let* a := CAR args in let* d := CADR args in lisp_push (Pair plain a d)
  else if String.eqb name "car" then op_car args
  else if String.eqb name "cdr" then op_cdr args
  else if String.eqb name "return" then op_return args
  else if String.eqb name "begin" then eval_list args true
  else if String.eqb name "if" then op_if args
  else if String.eqb name "lambda" then
    let* vm := get in op_lambda (env vm) args
  else if String.eqb name "define" then let* _ := op_define args in ret tt
  else if String.eqb name "defconst" then op_defconst args
  else if String.eqb name "set!" then op_set args
  else if String.eqb name "error" then op_error args
  else if String.eqb name "catch" then op_catch args
  else if String.eqb name "throw" then op_throw args
  else if String.eqb name "array-get" then array_get args
  else if String.eqb name "array-set!" then array_set args
  else if String.eqb name "input-port?" then input_portp args
  else if String.eqb name "output-port?" then output_portp args
  else if String.eqb name "write-string" then write_string args
  else if String.eqb name "newline" then op_newline args
  else fun _ => NotModelled.

(** [lisp_apply], tracing off. *)
Definition lisp_apply (proc args : Lisp_Object) : M unit :=
  let* t := type_of proc in
  match proc with
  | Symbol name =>
      if sym_primitive name then apply_primitive name args
      else lisp_err ("apply: Not a primitive: '" +:+ name +:+ "'")
  | Ref c =>
      match t with
      | O_PROC => apply_procedure c args
      | O_ENV => fun _ => NotModelled
      | _ => lisp_err ("Invalid type for apply: " +:+ objtype_name t)
      end
  | _ => lisp_err ("Invalid type for apply: " +:+ objtype_name t)
  end.

Definition MAX_DEPTH : nat := 1000.

Definition op_is_special (op : Lisp_Object) : bool :=
  match op with
  | Symbol name => sym_special name
  | _ => false
  end.

(** The loop of [eval_expr] for an expression that is not in tail
    position: a tail call that comes back from [lisp_apply] is applied in
    its turn, in the same frame. *)
Fixpoint apply_loop (g : nat) (op : Lisp_Object) : M unit :=
  match g with
  | O => fun _ => OutOfFuel
  | S g' =>
      let* args := lisp_top 0 in
      let* _ := lisp_apply op args in
      let* vm := get in
      let* _ := assert (3 <? length (stack vm))%nat in
      let* r := lisp_top 0 in
      if tail_call (bits_of r) then
        match stack vm with
        | _ :: _ :: _ :: m :: _ :: rest =>
            let* _ := assert (same_obj m LISP_EXPR_MARK) in
            let* e := CAR r in
            let* op := CADR r in
            let* args := CDDR r in
            let* _ := set_stack (args :: op :: m :: e :: rest) in
            apply_loop g' op
        | _ => abort
        end
      else ret tt
  end.

(** The tail call object [(expr . (op . args))], with [tail_call] set:
    what [eval_expr] leaves for a procedure in tail position, in place of
    a call of [lisp_apply]. *)
Definition tail_call_object (p op args : Lisp_Object) : M unit :=
  let* _ := lisp_push p in
  let* _ := lisp_push op in
  let* _ := lisp_push args in
  let* _ := lisp_cons in
  let* _ := lisp_cons in
  set_top_bits (fun b => {| is_list := is_list b; tail_call := true;
                            is_return := is_return b |}).

Definition eval_expr (p : Lisp_Object) (at_tail : bool) : M Lisp_Object :=
  let* vm := get in
  let* _ := set_eval_level (S (eval_level vm)) in
  let* _ := if (MAX_DEPTH <? S (eval_level vm))%nat
            then lisp_err "exceeding max depth: 1000" else ret tt in
  let* op := CAR p in
  let* _ := lisp_push LISP_EXPR_MARK in
  let* _ := lisp_push op in
  let* op := lisp_eval in
  let* _ := if is_list_obj p then ret tt else lisp_err "bad sexp: not a list" in
  let* d := CDR p in
  let* _ := if op_is_special op then lisp_push d else eval_args d in
  let* _ :=
    if at_tail then
      let* t := type_of op in
      let* args := lisp_top 0 in
      match t with
      | O_PROC => tail_call_object p op args
      | _ => lisp_apply op args
      end
    else apply_loop gas op in
  let* r := lisp_pop 5 in
  let* _ := lisp_push r in
  let* vm := get in
  let* _ := set_eval_level (pred (eval_level vm)) in
  ret r.

Definition lisp_eval_core_step (at_tail : bool) : M Lisp_Object :=
  let* vm := get in
  let count := length (stack vm) in
  let* obj := lisp_top 0 in
  let* k := obj_is_const obj in
  if k then ret obj
  else
    let* t := type_of obj in
    let* r :=
      match obj with
      | Symbol name =>
          let* v := lisp_getvar gas name in
          let* _ := lisp_pop 1 in
          let* _ := lisp_push v in
          ret v
      | Pair _ _ _ => eval_expr obj at_tail
      | _ => lisp_err ("Can not eval type: '" +:+ objtype_name t +:+ "'")
      end in
    let* vm := get in
    let* _ := assert (Nat.eqb count (length (stack vm))) in
    ret r.

End Knot.

(** [lisp_eval_core]; [depth] bounds the calls of [lisp_eval_core] that
    are open at one time. *)
Fixpoint lisp_eval_core (gas depth : nat) (at_tail : bool) : M Lisp_Object :=
  match depth with
  | O => fun _ => OutOfFuel
  | S d => lisp_eval_core_step gas (lisp_eval_core gas d) at_tail
  end.

(** ** What every call keeps

    A call that returns leaves [eval_level] and the catch target as they
    were.  A call that leaves by [longjmp] does so with the value 1 and a
    pair [(error . payload)] on the stack, from [throw_error], or with the
    value 2 and the object thrown on the stack, from [op_throw]. *)

Definition jump_ok (v : Z) (vm : Lisp_VM) : Prop :=
  (v = 1 /\ exists payload rest,
      stack vm = Pair plain (Symbol "error") payload :: rest) \/
  (v = 2 /\ stack vm <> []).

Definition hoare {A} (P : Lisp_VM -> Prop) (m : M A) (Q : A -> Lisp_VM -> Prop)
  : Prop :=
  forall vm, P vm ->
    match m vm with
    | Done x vm' => Q x vm'
    | Jumped v vm' => jump_ok v vm'
    | _ => True
    end.

Definition at_level (n : nat) (c : bool) (vm : Lisp_VM) : Prop :=
  eval_level vm = n /\ catch vm = c.

Definition keeps {A} (m : M A) : Prop :=
  forall n c, hoare (at_level n c) m (fun _ => at_level n c).

Lemma hoare_bind {A B} P (m : M A) Q (k : A -> M B) R :
  hoare P m Q -> (forall x, hoare (Q x) (k x) R) -> hoare P (bind m k) R.
Proof.
  intros Hm Hk vm HP. unfold bind. specialize (Hm vm HP).
  destruct (m vm) as [x vm'| | | |]; auto. apply (Hk x vm' Hm).
Qed.

Lemma keeps_bind {A B} (m : M A) (k : A -> M B) :
  keeps m -> (forall x, keeps (k x)) -> keeps (bind m k).
Proof.
  intros Hm Hk n c. eapply hoare_bind; [apply Hm|]. intros x. apply Hk.
Qed.

Lemma keeps_ret {A} (x : A) : keeps (ret x).
Proof. intros n c vm H. exact H. Qed.

Lemma keeps_get : keeps get.
Proof. intros n c vm H. exact H. Qed.

Lemma keeps_abort {A} : keeps (@abort A).
Proof. intros n c vm H. exact I. Qed.

Lemma keeps_not_modelled {A} : keeps (fun _ => @NotModelled A).
Proof. intros n c vm H. exact I. Qed.

Lemma keeps_out_of_fuel {A} : keeps (fun _ => @OutOfFuel A).
Proof. intros n c vm H. exact I. Qed.

Lemma keeps_assert b : keeps (assert b).
Proof. destruct b; [apply keeps_ret | apply keeps_abort]. Qed.

Lemma keeps_modify f :
  (forall vm, eval_level (f vm) = eval_level vm /\ catch (f vm) = catch vm) ->
  keeps (modify f).
Proof.
  intros Hf n c vm [H1 H2]. simpl. destruct (Hf vm) as [E1 E2].
  split; congruence.
Qed.

Lemma keeps_set_stack s : keeps (set_stack s).
Proof. apply keeps_modify. intros vm. split; reflexivity. Qed.

Lemma keeps_set_env e : keeps (set_env e).
Proof. apply keeps_modify. intros vm. split; reflexivity. Qed.

Lemma keeps_message msg : keeps (message msg).
Proof. apply keeps_modify. intros vm. split; reflexivity. Qed.

Lemma keeps_deref a : keeps (deref a).
Proof. intros n c vm H. unfold deref. destruct (heap vm !! a); [exact H | exact I]. Qed.

Lemma keeps_store a x : keeps (store a x).
Proof. intros n c vm H. exact H. Qed.

Lemma keeps_new_obj x : keeps (new_obj x).
Proof. intros n c vm H. exact H. Qed.

Lemma keeps_lisp_push o : keeps (lisp_push o).
Proof. intros n c vm H. exact H. Qed.

Lemma keeps_lisp_pop k : keeps (lisp_pop k).
Proof.
  intros n c vm H. unfold lisp_pop. destruct (stack vm); [exact I|].
  destruct (_ <=? _)%nat; [exact H | exact I].
Qed.

Lemma keeps_lisp_top k : keeps (lisp_top k).
Proof.
  intros n c vm H. unfold lisp_top. destruct (stack vm !! k); [exact H | exact I].
Qed.

Lemma keeps_lisp_cons : keeps lisp_cons.
Proof.
  intros n c vm H. unfold lisp_cons.
  destruct (stack vm) as [|? [|? ?]]; first [exact I | exact H].
Qed.

Lemma keeps_set_top_bits f : keeps (set_top_bits f).
Proof.
  intros n c vm H. unfold set_top_bits.
  destruct (stack vm) as [|[] ?]; first [exact I | exact H].
Qed.

(** [throw_error], in full. *)
Lemma throw_error_jumps {A} obj vm :
  catch vm = true ->
  exists vm', @throw_error A obj vm = Jumped 1 vm' /\
    stack vm' = Pair plain (Symbol "error") obj :: stack vm /\
    heap vm' = heap vm /\ env vm' = env vm /\ messages vm' = messages vm.
Proof.
  intros Hc. unfold throw_error, bind, get, assert. rewrite Hc. simpl.
  eexists. split; [reflexivity|]. simpl. auto.
Qed.

Lemma keeps_throw_error {A} obj : keeps (@throw_error A obj).
Proof.
  intros n c vm H. destruct (catch vm) eqn:Hc.
  - destruct (@throw_error_jumps A obj vm Hc) as (vm' & -> & Hs & _).
    left. split; [reflexivity|]. eauto.
  - unfold throw_error, bind, get, assert. rewrite Hc. exact I.
Qed.

Lemma keeps_lisp_err {A} msg : keeps (@lisp_err A msg).
Proof.
  unfold lisp_err. apply keeps_bind; [apply keeps_message|].
  intros _. apply keeps_throw_error.
Qed.

Create HintDb keeps.

#[local] Hint Resolve keeps_ret keeps_get keeps_abort keeps_not_modelled keeps_out_of_fuel keeps_assert keeps_set_stack keeps_set_env keeps_message keeps_deref keeps_store keeps_new_obj keeps_lisp_push keeps_lisp_pop keeps_lisp_top keeps_lisp_cons keeps_set_top_bits keeps_throw_error keeps_lisp_err : keeps.

Ltac keeps_tac :=
  repeat (intros;
          first
            [ solve [auto with keeps]
            | apply keeps_bind
            | match goal with
              | |- keeps (match ?x with _ => _ end) => destruct x
              end ]).

Lemma keeps_type_of o : keeps (type_of o).
Proof. unfold type_of. keeps_tac. Qed.
#[local] Hint Resolve keeps_type_of : keeps.

Lemma keeps_obj_is_const o : keeps (obj_is_const o).
Proof. unfold obj_is_const. keeps_tac. Qed.
#[local] Hint Resolve keeps_obj_is_const : keeps.

Lemma keeps_CAR p : keeps (CAR p).
Proof. unfold CAR. keeps_tac. Qed.
#[local] Hint Resolve keeps_CAR : keeps.

Lemma keeps_CDR p : keeps (CDR p).
Proof. unfold CDR. keeps_tac. Qed.
#[local] Hint Resolve keeps_CDR : keeps.

Lemma keeps_CADR p : keeps (CADR p).
Proof. unfold CADR. keeps_tac. Qed.
#[local] Hint Resolve keeps_CADR : keeps.

Lemma keeps_CDDR p : keeps (CDDR p).
Proof. unfold CDDR. keeps_tac. Qed.
#[local] Hint Resolve keeps_CDDR : keeps.

Lemma keeps_vm_check x : keeps (vm_check x).
Proof. unfold vm_check. keeps_tac. Qed.
#[local] Hint Resolve keeps_vm_check : keeps.

Lemma keeps_dict_items d : keeps (dict_items d).
Proof. unfold dict_items. keeps_tac. Qed.
#[local] Hint Resolve keeps_dict_items : keeps.

Lemma keeps_lisp_dict_new : keeps lisp_dict_new.
Proof. unfold lisp_dict_new. keeps_tac. Qed.
#[local] Hint Resolve keeps_lisp_dict_new : keeps.

Lemma keeps_lisp_dict_add d name v : keeps (lisp_dict_add d name v).
Proof. unfold lisp_dict_add. keeps_tac. Qed.
#[local] Hint Resolve keeps_lisp_dict_add : keeps.

Lemma keeps_lisp_dict_clear d : keeps (lisp_dict_clear d).
Proof. unfold lisp_dict_clear. keeps_tac. Qed.
#[local] Hint Resolve keeps_lisp_dict_clear : keeps.

Lemma keeps_update_binding d name f : keeps (update_binding d name f).
Proof. unfold update_binding. keeps_tac. Qed.
#[local] Hint Resolve keeps_update_binding : keeps.

Lemma keeps_env_bindings e : keeps (env_bindings e).
Proof. unfold env_bindings. keeps_tac. Qed.
#[local] Hint Resolve keeps_env_bindings : keeps.

Lemma keeps_lisp_env_new parent : keeps (lisp_env_new parent).
Proof. unfold lisp_env_new. keeps_tac. Qed.
#[local] Hint Resolve keeps_lisp_env_new : keeps.

Lemma keeps_lisp_begin_env parent : keeps (lisp_begin_env parent).
Proof. unfold lisp_begin_env. keeps_tac. Qed.
#[local] Hint Resolve keeps_lisp_begin_env : keeps.

Lemma keeps_lisp_end_env : keeps lisp_end_env.
Proof. unfold lisp_end_env. keeps_tac. Qed.
#[local] Hint Resolve keeps_lisp_end_env : keeps.

Lemma keeps_clear_env : keeps clear_env.
Proof. unfold clear_env. keeps_tac. Qed.
#[local] Hint Resolve keeps_clear_env : keeps.

Lemma keeps_lisp_env_assoc gas : forall e name, keeps (lisp_env_assoc gas e name).
Proof. induction gas as [|g IH]; intros e name; simpl; keeps_tac. Qed.
#[local] Hint Resolve keeps_lisp_env_assoc : keeps.

Lemma keeps_lisp_getvar gas name : keeps (lisp_getvar gas name).
Proof. unfold lisp_getvar. keeps_tac. Qed.
#[local] Hint Resolve keeps_lisp_getvar : keeps.

Lemma keeps_lisp_defvar name value : keeps (lisp_defvar name value).
Proof. unfold lisp_defvar. keeps_tac. Qed.
#[local] Hint Resolve keeps_lisp_defvar : keeps.

Lemma keeps_dict_owner d : keeps (dict_owner d).
Proof. unfold dict_owner. keeps_tac. Qed.
#[local] Hint Resolve keeps_dict_owner : keeps.

Lemma keeps_setvar_find gas : forall e name, keeps (setvar_find gas e name).
Proof. induction gas as [|g IH]; intros e name; simpl; keeps_tac. Qed.
#[local] Hint Resolve keeps_setvar_find : keeps.

Lemma keeps_lisp_setvar gas name value : keeps (lisp_setvar gas name value).
Proof. unfold lisp_setvar. keeps_tac. Qed.
#[local] Hint Resolve keeps_lisp_setvar : keeps.

Lemma keeps_safe_ptr o type : keeps (safe_ptr o type).
Proof. unfold safe_ptr. keeps_tac. Qed.
#[local] Hint Resolve keeps_safe_ptr : keeps.

Lemma keeps_lisp_safe_int o : keeps (lisp_safe_int o).
Proof. unfold lisp_safe_int. keeps_tac. Qed.
#[local] Hint Resolve keeps_lisp_safe_int : keeps.

Lemma keeps_lisp_number_value o : keeps (lisp_number_value o).
Proof. unfold lisp_number_value. keeps_tac. Qed.
#[local] Hint Resolve keeps_lisp_number_value : keeps.

Lemma keeps_op_p val : keeps (op_p val).
Proof. unfold op_p. keeps_tac. Qed.
#[local] Hint Resolve keeps_op_p : keeps.

Section KeepsKnot.

Variable gas : nat.
Variable rec : bool -> M Lisp_Object.
Hypothesis keeps_rec : forall at_tail, keeps (rec at_tail).

#[local] Hint Resolve keeps_rec : keeps.

Lemma keeps_lisp_eval : keeps (lisp_eval rec).
Proof. apply keeps_rec. Qed.

Lemma keeps_lisp_eval_tail : keeps (lisp_eval_tail rec).
Proof. apply keeps_rec. Qed.

#[local] Hint Resolve keeps_lisp_eval keeps_lisp_eval_tail : keeps.

Lemma keeps_push_pairs p : keeps (push_pairs p).
Proof. induction p; simpl; keeps_tac. Qed.
#[local] Hint Resolve keeps_push_pairs : keeps.

Lemma keeps_eval_args_loop n : keeps (eval_args_loop rec n).
Proof. induction n; simpl; keeps_tac. Qed.
#[local] Hint Resolve keeps_eval_args_loop : keeps.

Lemma keeps_eval_args args : keeps (eval_args rec args).
Proof. unfold eval_args. keeps_tac. Qed.
#[local] Hint Resolve keeps_eval_args : keeps.

Lemma keeps_eval_list l : forall at_tail, keeps (eval_list rec l at_tail).
Proof. induction l; intros at_tail; simpl; keeps_tac. Qed.
#[local] Hint Resolve keeps_eval_list : keeps.

Lemma keeps_eval_body l : keeps (eval_body rec l).
Proof. unfold eval_body. keeps_tac. Qed.
#[local] Hint Resolve keeps_eval_body : keeps.

Lemma keeps_proc_parts c : keeps (proc_parts c).
Proof. unfold proc_parts. keeps_tac. Qed.
#[local] Hint Resolve keeps_proc_parts : keeps.

Lemma keeps_bind_name name v : keeps (bind_name name v).
Proof. unfold bind_name. keeps_tac. Qed.
#[local] Hint Resolve keeps_bind_name : keeps.

Lemma keeps_bind_loop c formals :
  forall modifier values procedure_name,
    keeps (bind_loop c formals modifier values procedure_name).
Proof. induction formals; intros; simpl; keeps_tac. Qed.
#[local] Hint Resolve keeps_bind_loop : keeps.

Lemma keeps_bind_args c values : keeps (bind_args c values).
Proof. unfold bind_args. keeps_tac. Qed.
#[local] Hint Resolve keeps_bind_args : keeps.

Lemma keeps_body_turn lbody : keeps (body_turn rec lbody).
Proof. unfold body_turn. keeps_tac. Qed.
#[local] Hint Resolve keeps_body_turn : keeps.

Lemma keeps_is_self_tail_call c t : keeps (is_self_tail_call c t).
Proof. unfold is_self_tail_call. keeps_tac. Qed.
#[local] Hint Resolve keeps_is_self_tail_call : keeps.

Lemma keeps_rebind c c_env t : keeps (rebind c c_env t).
Proof. unfold rebind. keeps_tac. Qed.
#[local] Hint Resolve keeps_rebind : keeps.

Lemma keeps_body_loop g : forall c c_env lbody, keeps (body_loop rec g c c_env lbody).
Proof. induction g; intros; simpl; keeps_tac. Qed.
#[local] Hint Resolve keeps_body_loop : keeps.

Lemma keeps_eval_procedure_body c args : keeps (eval_procedure_body gas rec c args).
Proof. unfold eval_procedure_body. keeps_tac. Qed.
#[local] Hint Resolve keeps_eval_procedure_body : keeps.

Lemma keeps_apply_procedure c args : keeps (apply_procedure gas rec c args).
Proof. unfold apply_procedure. keeps_tac. Qed.
#[local] Hint Resolve keeps_apply_procedure : keeps.

Lemma keeps_op_if args : keeps (op_if rec args).
Proof. unfold op_if. keeps_tac. Qed.
#[local] Hint Resolve keeps_op_if : keeps.

Lemma keeps_op_set args : keeps (op_set gas rec args).
Proof. unfold op_set. keeps_tac. Qed.
#[local] Hint Resolve keeps_op_set : keeps.

Lemma keeps_check_formals p : keeps (check_formals p).
Proof. induction p; simpl; keeps_tac. Qed.
#[local] Hint Resolve keeps_check_formals : keeps.

Lemma keeps_op_lambda e args : keeps (op_lambda e args).
Proof. unfold op_lambda. keeps_tac. Qed.
#[local] Hint Resolve keeps_op_lambda : keeps.

Lemma keeps_defproc args body : keeps (defproc args body).
Proof. unfold defproc. keeps_tac. Qed.
#[local] Hint Resolve keeps_defproc : keeps.

Lemma keeps_set_no_def e b : keeps (set_no_def e b).
Proof. unfold set_no_def. keeps_tac. Qed.
#[local] Hint Resolve keeps_set_no_def : keeps.

Lemma keeps_env_no_def e : keeps (env_no_def e).
Proof. unfold env_no_def. keeps_tac. Qed.
#[local] Hint Resolve keeps_env_no_def : keeps.

Lemma keeps_op_define args : keeps (op_define rec args).
Proof. unfold op_define. keeps_tac. Qed.
#[local] Hint Resolve keeps_op_define : keeps.

Lemma keeps_op_defconst args : keeps (op_defconst rec args).
Proof. unfold op_defconst. keeps_tac. Qed.
#[local] Hint Resolve keeps_op_defconst : keeps.

Lemma keeps_op_error {A} args : keeps (@op_error A args).
Proof. unfold op_error. keeps_tac. Qed.
#[local] Hint Resolve keeps_op_error : keeps.

Lemma keeps_op_catch args : keeps (op_catch rec args).
Proof.
  intros n c vm [Hn Hc]. unfold op_catch.
  assert (Hafter : forall vm1,
    match (match stack vm1 with
           | top :: _ =>
               if (length (stack vm) <? length (stack vm1))%nat then
                 Done tt
                   (with_stack
                      (with_env (with_catch (with_eval_level vm1 (eval_level vm))
                                            (catch vm)) (env vm))
                      (stack_cap vm1)
                      (top :: drop (length (stack vm1) - length (stack vm))
                                   (stack vm1)))
               else Aborted
           | [] => Aborted
           end) with
    | Done _ vm' => at_level n c vm'
    | Jumped v vm' => jump_ok v vm'
    | _ => True
    end).
  { intros vm1. destruct (stack vm1); [exact I|].
    destruct (_ <? _)%nat; [|exact I]. split; assumption. }
  cbv zeta.
  destruct (eval_list rec args false (with_catch vm true)) as [x vm1|v vm1| | |];
    first [apply Hafter | exact I].
Qed.
#[local] Hint Resolve keeps_op_catch : keeps.

Lemma keeps_op_throw {A} args : keeps (@op_throw A args).
Proof.
  unfold op_throw. apply keeps_bind; [auto with keeps|]. intros d.
  apply keeps_bind; [keeps_tac|]. intros _.
  apply keeps_bind; [auto with keeps|]. intros v n c vm H.
  unfold bind, lisp_push, get, assert, longjmp, ret, abort. simpl.
  destruct (catch vm); [|exact I].
  right. split; [reflexivity|]. simpl. discriminate.
Qed.
#[local] Hint Resolve keeps_op_throw : keeps.

Lemma keeps_fold_numbers f args : forall t, keeps (fold_numbers f args t).
Proof. induction args; intros; simpl; keeps_tac. Qed.
#[local] Hint Resolve keeps_fold_numbers : keeps.

Lemma keeps_op_add args : keeps (op_add args).
Proof. unfold op_add. keeps_tac. Qed.
#[local] Hint Resolve keeps_op_add : keeps.

Lemma keeps_op_sub args : keeps (op_sub args).
Proof. unfold op_sub. keeps_tac. Qed.
#[local] Hint Resolve keeps_op_sub : keeps.

Lemma keeps_op_numeric_test test args : keeps (op_numeric_test test args).
Proof.
  induction args as [| | | |b a _ d IH|]; simpl; keeps_tac.
Qed.
#[local] Hint Resolve keeps_op_numeric_test : keeps.

Lemma keeps_array_parts o : keeps (array_parts o).
Proof. unfold array_parts. keeps_tac. Qed.
#[local] Hint Resolve keeps_array_parts : keeps.

Lemma keeps_array_get args : keeps (array_get args).
Proof. unfold array_get. keeps_tac. Qed.
#[local] Hint Resolve keeps_array_get : keeps.

Lemma keeps_array_set args : keeps (array_set args).
Proof. unfold array_set. keeps_tac. Qed.
#[local] Hint Resolve keeps_array_set : keeps.

Lemma keeps_port_parts p : keeps (port_parts p).
Proof. unfold port_parts. keeps_tac. Qed.
#[local] Hint Resolve keeps_port_parts : keeps.

Lemma keeps_buffer_parts b : keeps (buffer_parts b).
Proof. unfold buffer_parts. keeps_tac. Qed.
#[local] Hint Resolve keeps_buffer_parts : keeps.

Lemma keeps_lisp_buffer_add b c : keeps (lisp_buffer_add b c).
Proof. unfold lisp_buffer_add. keeps_tac. Qed.
#[local] Hint Resolve keeps_lisp_buffer_add : keeps.

Lemma keeps_lisp_port_flush p : keeps (lisp_port_flush p).
Proof. unfold lisp_port_flush. keeps_tac. Qed.
#[local] Hint Resolve keeps_lisp_port_flush : keeps.

Lemma keeps_buffer_full b : keeps (buffer_full b).
Proof. unfold buffer_full. keeps_tac. Qed.
#[local] Hint Resolve keeps_buffer_full : keeps.

Lemma keeps_lisp_port_putc p c : keeps (lisp_port_putc p c).
Proof. unfold lisp_port_putc. keeps_tac. Qed.
#[local] Hint Resolve keeps_lisp_port_putc : keeps.

Lemma keeps_puts_loop p iobuf s : forall should_flush,
  keeps (puts_loop p iobuf s should_flush).
Proof. induction s; intros; simpl; keeps_tac. Qed.
#[local] Hint Resolve keeps_puts_loop : keeps.

Lemma keeps_lisp_port_puts p s : keeps (lisp_port_puts p s).
Proof. unfold lisp_port_puts. keeps_tac. Qed.
#[local] Hint Resolve keeps_lisp_port_puts : keeps.

Lemma keeps_is_port o : keeps (is_port o).
Proof. unfold is_port. keeps_tac. Qed.
#[local] Hint Resolve keeps_is_port : keeps.

Lemma keeps_write_string args : keeps (write_string args).
Proof. unfold write_string. keeps_tac. Qed.
#[local] Hint Resolve keeps_write_string : keeps.

Lemma keeps_op_newline args : keeps (op_newline args).
Proof. unfold op_newline. keeps_tac. Qed.
#[local] Hint Resolve keeps_op_newline : keeps.

Lemma keeps_input_portp args : keeps (input_portp args).
Proof. unfold input_portp. keeps_tac. Qed.
#[local] Hint Resolve keeps_input_portp : keeps.

Lemma keeps_output_portp args : keeps (output_portp args).
Proof. unfold output_portp. keeps_tac. Qed.
#[local] Hint Resolve keeps_output_portp : keeps.

Lemma keeps_op_car args : keeps (op_car args).
Proof. unfold op_car. keeps_tac. Qed.
#[local] Hint Resolve keeps_op_car : keeps.

Lemma keeps_op_cdr args : keeps (op_cdr args).
Proof. unfold op_cdr. keeps_tac. Qed.
#[local] Hint Resolve keeps_op_cdr : keeps.

Lemma keeps_op_return args : keeps (op_return rec args).
Proof. unfold op_return. keeps_tac. Qed.
#[local] Hint Resolve keeps_op_return : keeps.

Lemma keeps_apply_primitive name args : keeps (apply_primitive gas rec name args).
Proof. unfold apply_primitive. keeps_tac. Qed.
#[local] Hint Resolve keeps_apply_primitive : keeps.

Lemma keeps_lisp_apply proc args : keeps (lisp_apply gas rec proc args).
Proof. unfold lisp_apply. keeps_tac. Qed.
#[local] Hint Resolve keeps_lisp_apply : keeps.

Lemma keeps_tail_call_object p op args : keeps (tail_call_object p op args).
Proof. unfold tail_call_object. keeps_tac. Qed.
#[local] Hint Resolve keeps_tail_call_object : keeps.

Lemma keeps_apply_loop g : forall op, keeps (apply_loop gas rec g op).
Proof. induction g; intros; simpl; keeps_tac. Qed.
#[local] Hint Resolve keeps_apply_loop : keeps.

Lemma keeps_hoare {A} (m : M A) n c :
  keeps m -> hoare (at_level n c) m (fun _ => at_level n c).
Proof. intros H. apply H. Qed.

Lemma hoare_set_eval_level P k n c :
  (forall vm, P vm -> catch vm = c) -> k = n ->
  hoare P (set_eval_level k) (fun _ => at_level n c).
Proof. intros HP -> vm H. split; [reflexivity | apply (HP vm H)]. Qed.

(** [eval_expr] counts itself in [eval_level] and takes itself out
    again. *)
Lemma keeps_eval_expr p at_tail : keeps (eval_expr gas rec p at_tail).
Proof.
  intros n c. unfold eval_expr.
  apply hoare_bind with (Q := fun x vm => at_level n c vm /\ eval_level x = n).
  { intros vm H. split; [exact H | apply H]. }
  intros vm0.
  apply hoare_bind with (Q := fun _ => at_level (S n) c).
  { intros vm [[H1 H2] H3]. split; [simpl; congruence | exact H2]. }
  intros _.
  do 11 (eapply hoare_bind;
         [solve [apply (keeps_hoare _ (S n) c); keeps_tac]|]; intros ?).
  apply hoare_bind with (Q := fun x vm => at_level (S n) c vm /\ eval_level x = S n).
  { intros vm H. split; [exact H | apply H]. }
  intros vm1.
  apply hoare_bind with (Q := fun _ => at_level n c).
  { intros vm [[H1 H2] H3]. split; [simpl; rewrite H3; reflexivity | exact H2]. }
  intros _. apply keeps_ret.
Qed.
#[local] Hint Resolve keeps_eval_expr : keeps.

Lemma keeps_lisp_eval_core_step at_tail : keeps (lisp_eval_core_step gas rec at_tail).
Proof. unfold lisp_eval_core_step. keeps_tac. Qed.

End KeepsKnot.

Lemma keeps_lisp_eval_core gas depth : forall at_tail,
  keeps (lisp_eval_core gas depth at_tail).
Proof.
  induction depth as [|d IH]; intros at_tail; simpl.
  - apply keeps_out_of_fuel.
  - apply keeps_lisp_eval_core_step. exact IH.
Qed.

(** ** Taking a run apart *)

Lemma bind_done {A B} (m : M A) (k : A -> M B) vm r vm' :
  bind m k vm = Done r vm' ->
  exists x vm1, m vm = Done x vm1 /\ k x vm1 = Done r vm'.
Proof.
  unfold bind. destruct (m vm) as [x vm1| | | |]; try discriminate. eauto.
Qed.

Lemma bind_jumped {A B} (m : M A) (k : A -> M B) vm v vm' :
  bind m k vm = Jumped v vm' ->
  m vm = Jumped v vm' \/
  exists x vm1, m vm = Done x vm1 /\ k x vm1 = Jumped v vm'.
Proof.
  unfold bind. destruct (m vm) as [x vm1|w vm1| | |]; try discriminate.
  - intros H. right. eauto.
  - intros H. left. inversion H. reflexivity.
Qed.

(** A call that reads and leaves the state as it is. *)
Definition pure {A} (m : M A) : Prop :=
  forall vm x vm', m vm = Done x vm' -> vm' = vm.

Lemma pure_bind {A B} (m : M A) (k : A -> M B) :
  pure m -> (forall x, pure (k x)) -> pure (bind m k).
Proof.
  intros Hm Hk vm r vm' H. apply bind_done in H as (x & vm1 & H1 & H2).
  apply Hm in H1. subst vm1. eapply Hk; eauto.
Qed.

Lemma pure_ret {A} (x : A) : pure (ret x).
Proof. intros vm y vm' H. inversion H; reflexivity. Qed.

Lemma pure_get : pure get.
Proof. intros vm y vm' H. inversion H; reflexivity. Qed.

Lemma pure_abort {A} : pure (@abort A).
Proof. intros vm y vm' H. discriminate H. Qed.

Lemma pure_assert b : pure (assert b).
Proof. destruct b; [apply pure_ret | apply pure_abort]. Qed.

Lemma pure_deref a : pure (deref a).
Proof.
  intros vm y vm' H. unfold deref in H.
  destruct (heap vm !! a); inversion H; reflexivity.
Qed.

Lemma pure_lisp_top n : pure (lisp_top n).
Proof.
  intros vm y vm' H. unfold lisp_top in H.
  destruct (stack vm !! n); inversion H; reflexivity.
Qed.

Lemma pure_lisp_err {A} msg : pure (@lisp_err A msg).
Proof.
  intros vm y vm' H. unfold lisp_err, throw_error, bind, message, modify, get,
    assert, lisp_push, lisp_cons, longjmp in H. simpl in H.
  destruct (catch vm); discriminate H.
Qed.

Create HintDb pure.

#[local] Hint Resolve pure_ret pure_get pure_abort pure_assert pure_deref
  pure_lisp_top pure_lisp_err : pure.

Ltac pure_tac :=
  repeat (intros;
          first
            [ solve [auto with pure]
            | apply pure_bind
            | match goal with
              | |- pure (match ?x with _ => _ end) => destruct x
              end ]).

Lemma pure_type_of o : pure (type_of o).
Proof. unfold type_of. pure_tac. Qed.
#[local] Hint Resolve pure_type_of : pure.

Lemma pure_obj_is_const o : pure (obj_is_const o).
Proof. unfold obj_is_const. pure_tac. Qed.
#[local] Hint Resolve pure_obj_is_const : pure.

Lemma pure_CAR p : pure (CAR p).
Proof. unfold CAR. pure_tac. Qed.

Lemma pure_CDR p : pure (CDR p).
Proof. unfold CDR. pure_tac. Qed.
#[local] Hint Resolve pure_CAR pure_CDR : pure.

Lemma pure_CADR p : pure (CADR p).
Proof. unfold CADR. pure_tac. Qed.

Lemma pure_CDDR p : pure (CDDR p).
Proof. unfold CDDR. pure_tac. Qed.
#[local] Hint Resolve pure_CADR pure_CDDR : pure.

Lemma pure_port_parts p : pure (port_parts p).
Proof. unfold port_parts. pure_tac. Qed.

Lemma pure_is_port o : pure (is_port o).
Proof. unfold is_port. pure_tac. Qed.
#[local] Hint Resolve pure_port_parts pure_is_port : pure.

(** ** A state to run in

    Expressions as the reader builds them ([mklist] sets [is_list] on
    every pair of a list but the last), and a machine with a root
    environment, a console, an input port, a constant array (the literal
    [#(1 2 3)]), and an array and an output port that belong to another
    machine.  Three variables hold the input port and the two foreign
    objects. *)

Fixpoint mklist (l : list Lisp_Object) : Lisp_Object :=
  match l with
  | [] => NIL
  | [a] => Pair plain a NIL
  | a :: rest =>
      Pair {| is_list := true; tail_call := false; is_return := false |}
           a (mklist rest)
  end.

Definition quoted (o : Lisp_Object) : Lisp_Object := mklist [Symbol "quote"; o].

Definition var (name : string) (v : Lisp_Object) : binding :=
  {| key := name; val := v; b_const := false; b_method := false |}.

Definition example_heap : gmap positive cell :=
  list_to_map
    [ (1%positive, Env false 2 None);
      (2%positive, Dict false 1 [var "console-in" (Ref 6);
                                 var "their-array" (Ref 20);
                                 var "their-port" (Ref 21)]);
      (3%positive, Port 1 true false false 4 (Some 5%positive));
      (4%positive, Buffer false 1 256 []);
      (5%positive, Stream 1 []);
      (6%positive, Port 1 false false false 7 None);
      (7%positive, Buffer false 1 256 []);
      (8%positive, Array true 1 [Number 1; Number 2; Number 3]);
      (20%positive, Array false 2 [Number 1; Number 2; Number 3]);
      (21%positive, Port 2 true false false 22 None);
      (22%positive, Buffer false 2 256 []) ].

Definition example_vm : Lisp_VM :=
  {| self := 1; eval_level := 0; env := 1; stack_cap := 512; stack := [];
     catch := true; output := 3; heap := example_heap; next := 100;
     messages := [] |}.

(** [lisp_eval] of an expression: it is pushed and evaluated. *)
Definition eval_object (gas depth : nat) (e : Lisp_Object) : M Lisp_Object :=
  let* _ := lisp_push e in
  lisp_eval_core gas depth false.

(** ** [input-port?] *)

Lemma is_port_total a vm t :
  type_of a vm = Done t vm ->
  exists o, is_port a vm = Done o vm /\
    forall p, o = Some p ->
      exists owner out closed no_buf iobuf stream,
        heap vm !! p = Some (Port owner out closed no_buf iobuf stream).
Proof.
  intros Ht. unfold is_port, bind. rewrite Ht.
  destruct a as [x|x|x| |fl x y|p];
    try (simpl in Ht; inversion Ht; subst; eexists; split;
         [reflexivity | intros ? [=]]).
  unfold type_of, bind, deref in Ht.
  destruct (heap vm !! p) as [c|] eqn:Hp; [|discriminate Ht].
  inversion Ht; subst. clear Ht.
  destruct c; simpl; eexists; (split; [reflexivity|]); intros q [=]; subst q.
  eauto 10.
Qed.

(** C10.  Whatever its argument is, [input-port?] pushes [false] and
    does nothing else: both branches of the test in [apply_primitive] are
    [lisp_push(vm, LISP_FALSE)].  The argument has to be an object that
    exists, since its type is read. *)
Theorem input_port_p_pushes_false gas rec b a rest vm :
  (exists t, type_of a vm = Done t vm) ->
  apply_primitive gas rec "input-port?" (Pair b a rest) vm
  = lisp_push LISP_FALSE vm.
Proof.
  intros [t Ht].
  change (apply_primitive gas rec "input-port?" (Pair b a rest))
    with (input_portp (Pair b a rest)).
  destruct (is_port_total a vm t Ht) as (o & Ho & Hport).
  unfold input_portp, bind. cbn [CAR ret]. rewrite Ho.
  destruct o as [p|]; [|reflexivity].
  destruct (Hport p eq_refl) as (owner & out & closed & nb & io & st & Hp).
  unfold port_parts, bind, deref. rewrite Hp. cbn [ret].
  destruct out; reflexivity.
Qed.

Lemma input_port_p_pushes_false_witness :
  (exists t, type_of (Ref 6) example_vm = Done t example_vm) /\
  apply_primitive 10 (lisp_eval_core 10 10) "input-port?"
    (Pair plain (Ref 6) NIL) example_vm
  = lisp_push LISP_FALSE example_vm.
Proof.
  assert (H : exists t, type_of (Ref 6) example_vm = Done t example_vm)
    by (exists O_PORT; vm_compute; reflexivity).
  split; [exact H|].
  apply (input_port_p_pushes_false 10 (lisp_eval_core 10 10) plain (Ref 6) NIL
           example_vm H).
Defined.

(** [(input-port? console-in)]: the variable holds the open input
    port 6. *)
Example input_port_p_of_an_input_port :
  match eval_object 10 10
          (mklist [Symbol "input-port?"; Symbol "console-in"]) example_vm with
  | Done r _ => r = LISP_FALSE
  | _ => False
  end.
Proof. vm_compute. reflexivity. Qed.

(** ** [catch] and [throw] *)

(** The ways the body of a [catch] can end so that the [catch] goes on:
    it returns, or it jumps with 1 (an error) or with 2 (a [throw]). *)
Inductive body_end (gas depth : nat) (args : Lisp_Object) (vm vm1 : Lisp_VM)
  : Prop :=
| body_returned :
    eval_list (lisp_eval_core gas depth) args false (with_catch vm true)
    = Done tt vm1 -> body_end gas depth args vm vm1
| body_failed :
    eval_list (lisp_eval_core gas depth) args false (with_catch vm true)
    = Jumped 1 vm1 -> body_end gas depth args vm vm1
| body_threw :
    eval_list (lisp_eval_core gas depth) args false (with_catch vm true)
    = Jumped 2 vm1 -> body_end gas depth args vm vm1.

Lemma eval_list_jump gas depth args at_tail vm v vm1 :
  eval_list (lisp_eval_core gas depth) args at_tail vm = Jumped v vm1 ->
  jump_ok v vm1.
Proof.
  intros E.
  pose proof (keeps_eval_list _ (keeps_lisp_eval_core gas depth) args at_tail
                _ _ vm (conj eq_refl eq_refl)) as HJ.
  rewrite E in HJ. exact HJ.
Qed.

Lemma op_catch_after gas depth args vm vm' :
  op_catch (lisp_eval_core gas depth) args vm = Done tt vm' ->
  exists vm1 top rest,
    body_end gas depth args vm vm1 /\
    stack vm1 = top :: rest /\
    (length (stack vm) < length (stack vm1))%nat /\
    vm' = with_stack
            (with_env (with_catch (with_eval_level vm1 (eval_level vm)) (catch vm))
                      (env vm))
            (stack_cap vm1)
            (top :: drop (length (stack vm1) - length (stack vm)) (stack vm1)).
Proof.
  unfold op_catch. cbv zeta.
  destruct (eval_list (lisp_eval_core gas depth) args false (with_catch vm true))
    as [[] vm1|v vm1| | |] eqn:E; try discriminate.
  - destruct (stack vm1) as [|top rest] eqn:Es; [discriminate|].
    destruct (_ <? _)%nat eqn:Hlt; [|discriminate].
    intros H. injection H as <-. exists vm1, top, rest.
    split; [apply body_returned; exact E|].
    split; [exact Es|]. rewrite Es.
    split; [apply Nat.ltb_lt in Hlt; exact Hlt | reflexivity].
  - destruct (stack vm1) as [|top rest] eqn:Es; [discriminate|].
    destruct (_ <? _)%nat eqn:Hlt; [|discriminate].
    intros H. injection H as <-. exists vm1, top, rest.
    split.
    { destruct (eval_list_jump _ _ _ _ _ _ _ E) as [[-> _]|[-> _]];
        [apply body_failed | apply body_threw]; exact E. }
    split; [exact Es|]. rewrite Es.
    split; [apply Nat.ltb_lt in Hlt; exact Hlt | reflexivity].
Qed.

(** C4.  [op_catch] never leaves by a jump of its body.  When it
    returns, however its body ended (it returned, it failed with an
    error, or it threw), the stack is one deeper than before the [catch],
    with the one result on top, and [vm->env] is the environment of
    before; so are [eval_level] and the catch target. *)
Theorem catch_restores_stack_and_env gas depth args vm :
  (forall v vm', op_catch (lisp_eval_core gas depth) args vm <> Jumped v vm') /\
  (forall vm',
     op_catch (lisp_eval_core gas depth) args vm = Done tt vm' ->
     length (stack vm') = S (length (stack vm)) /\
     env vm' = env vm /\
     eval_level vm' = eval_level vm /\
     catch vm' = catch vm /\
     exists vm1, body_end gas depth args vm vm1 /\
                 hd_error (stack vm') = hd_error (stack vm1)).
Proof.
  split.
  - intros v vm'. unfold op_catch. cbv zeta.
    destruct (eval_list (lisp_eval_core gas depth) args false (with_catch vm true))
      as [[] vm1|w vm1| | |]; try discriminate;
      destruct (stack vm1); try discriminate;
      destruct (_ <? _)%nat; discriminate.
  - intros vm' H.
    destruct (op_catch_after _ _ _ _ _ H) as (vm1 & top & rest & Hend & Es & Hlt & ->).
    simpl. rewrite length_drop.
    split; [lia|]. split; [reflexivity|]. split; [reflexivity|].
    split; [reflexivity|]. exists vm1. split; [exact Hend|]. rewrite Es. reflexivity.
Qed.

Definition catch_throw_body : Lisp_Object :=
  mklist [mklist [Symbol "define"; Symbol "x"; Number 1];
          mklist [Symbol "throw"; quoted (Symbol "ball")];
          Number 2].

Lemma catch_restores_stack_and_env_witness :
  let vm' := match op_catch (lisp_eval_core 10 10) catch_throw_body example_vm with
             | Done _ v => v
             | _ => example_vm
             end in
  length (stack vm') = S (length (stack example_vm)) /\
  env vm' = env example_vm /\
  eval_level vm' = eval_level example_vm /\
  catch vm' = catch example_vm /\
  exists vm1, body_end 10 10 catch_throw_body example_vm vm1 /\
              hd_error (stack vm') = hd_error (stack vm1).
Proof.
  intros vm'.
  apply (proj2 (catch_restores_stack_and_env 10 10 catch_throw_body example_vm) vm').
  vm_compute. reflexivity.
Defined.

Lemma op_throw_jumps {A} b x vm :
  catch vm = true ->
  exists vm', @op_throw A (Pair b x NIL) vm = Jumped 2 vm' /\
    stack vm' = x :: stack vm /\ heap vm' = heap vm /\ env vm' = env vm.
Proof.
  intros Hc. unfold op_throw, bind, get, assert, lisp_push. simpl. rewrite Hc.
  eexists. split; [reflexivity|]. simpl. auto.
Qed.

Lemma lisp_err_jumps {A} msg vm :
  catch vm = true ->
  exists vm', @lisp_err A msg vm = Jumped 1 vm' /\
    stack vm' = Pair plain (Symbol "error") NIL :: stack vm /\
    heap vm' = heap vm /\ env vm' = env vm /\
    messages vm' = (messages vm ++ [msg])%list.
Proof.
  intros Hc. unfold lisp_err, bind, message, modify.
  destruct (@throw_error_jumps A NIL (with_message vm msg) Hc)
    as (vm' & -> & Hs & Hh & He & Hm).
  exists vm'. auto.
Qed.

Lemma op_error_jumps {A} args vm :
  catch vm = true ->
  exists vm', @op_error A args vm = Jumped 1 vm' /\
    stack vm' = Pair plain (Symbol "error") args :: stack vm.
Proof.
  intros Hc. unfold op_error, bind, message, modify.
  destruct (@throw_error_jumps A args (with_message vm "ERROR:") Hc)
    as (vm' & -> & Hs & _).
  exists vm'. auto.
Qed.

(** C5.  An error inside the machine leaves through [throw_error],
    which pushes the pair [(error . payload)] and jumps with 1
    ([lisp_err] gives the payload [nil], the primitive [error] its
    arguments); [(throw v)] pushes [v] as it is and jumps with 2.  These
    are the only jumps: when the body of a [catch] escapes, the escape is
    one of the two, and the [catch] returns what the jump left on top of
    the stack, the tagged pair for an error and the thrown value for a
    [throw]. *)
Theorem catch_yields_error_pair_or_thrown_value gas depth args vm :
  (forall payload vm0, catch vm0 = true ->
     exists vm1, @throw_error unit payload vm0 = Jumped 1 vm1 /\
       stack vm1 = Pair plain (Symbol "error") payload :: stack vm0) /\
  (forall b v vm0, catch vm0 = true ->
     exists vm1, @op_throw unit (Pair b v NIL) vm0 = Jumped 2 vm1 /\
       stack vm1 = v :: stack vm0) /\
  (forall how vm1 vm',
     eval_list (lisp_eval_core gas depth) args false (with_catch vm true)
     = Jumped how vm1 ->
     op_catch (lisp_eval_core gas depth) args vm = Done tt vm' ->
     (how = 1 /\ exists payload rest,
         stack vm1 = Pair plain (Symbol "error") payload :: rest /\
         hd_error (stack vm') = Some (Pair plain (Symbol "error") payload)) \/
     (how = 2 /\ exists thrown rest,
         stack vm1 = thrown :: rest /\
         hd_error (stack vm') = Some thrown)).
Proof.
  split.
  { intros payload vm0 Hc.
    destruct (@throw_error_jumps unit payload vm0 Hc) as (vm1 & E & Hs & _). eauto. }
  split.
  { intros b v vm0 Hc.
    destruct (@op_throw_jumps unit b v vm0 Hc) as (vm1 & E & Hs & _). eauto. }
  intros how vm1 vm' E H.
  destruct (op_catch_after _ _ _ _ _ H) as (vm2 & top & rest & Hend & Es & _ & ->).
  assert (vm2 = vm1) by (destruct Hend as [E'|E'|E']; congruence). subst vm2.
  simpl.
  destruct (eval_list_jump _ _ _ _ _ _ _ E) as [[-> (payload & rest' & Hs)]|[-> _]].
  - left. split; [reflexivity|]. exists payload, rest'.
    split; [exact Hs|]. congruence.
  - right. split; [reflexivity|]. exists top, rest. auto.
Qed.

Definition catch_error_body : Lisp_Object :=
  mklist [mklist [Symbol "car"; Number 5]; Number 2].

Lemma catch_yields_error_pair_or_thrown_value_witness :
  let vm1 := match eval_list (lisp_eval_core 10 10) catch_error_body false
                     (with_catch example_vm true) with
             | Jumped _ v => v
             | _ => example_vm
             end in
  let vm' := match op_catch (lisp_eval_core 10 10) catch_error_body example_vm with
             | Done _ v => v
             | _ => example_vm
             end in
  (1 = 1 /\ exists payload rest,
      stack vm1 = Pair plain (Symbol "error") payload :: rest /\
      hd_error (stack vm') = Some (Pair plain (Symbol "error") payload)) \/
  (1 = 2 /\ exists thrown rest,
      stack vm1 = thrown :: rest /\ hd_error (stack vm') = Some thrown).
Proof.
  intros vm1 vm'.
  apply (proj2 (proj2 (catch_yields_error_pair_or_thrown_value
                         10 10 catch_error_body example_vm)) 1 vm1 vm').
  - vm_compute. reflexivity.
  - vm_compute. reflexivity.
Defined.

(** [(catch (define x 1) (throw 'ball) 2)] gives [ball];
    [(catch (car 5) 2)] gives [(error)], and the message has been
    printed; [(catch (error "boom" 5))] gives [(error "boom" 5)];
    [(catch 1 2)] gives 2. *)
Example catch_of_throw :
  match eval_object 10 10 (Pair plain (Symbol "catch") catch_throw_body)
          example_vm with
  | Done r vm => r = Symbol "ball" /\ stack vm = [r] /\ env vm = 1%positive
  | _ => False
  end.
Proof. vm_compute. auto. Qed.

Example catch_of_internal_error :
  match eval_object 10 10 (Pair plain (Symbol "catch") catch_error_body)
          example_vm with
  | Done r vm =>
      r = Pair plain (Symbol "error") NIL /\ stack vm = [r] /\
      messages vm = ["car: invalid operand"]
  | _ => False
  end.
Proof. vm_compute. auto. Qed.

Example catch_of_error_primitive :
  match eval_object 10 10
          (mklist [Symbol "catch";
                   mklist [Symbol "error"; String "boom"; Number 5]])
          example_vm with
  | Done r vm =>
      r = Pair plain (Symbol "error") (mklist [String "boom"; Number 5]) /\
      stack vm = [r]
  | _ => False
  end.
Proof. vm_compute. auto. Qed.

Example catch_of_normal_return :
  match eval_object 10 10 (mklist [Symbol "catch"; Number 1; Number 2])
          example_vm with
  | Done r vm => r = Number 2 /\ stack vm = [r]
  | _ => False
  end.
Proof. vm_compute. auto. Qed.

(** ** Constants *)

(** [set!] and [define] on a constant symbol, and on a binding that
    [defconst] made constant, end in an error. *)
Lemma op_set_constant_symbol gas rec b name rest vm :
  sym_const name = true -> catch vm = true ->
  exists vm', op_set gas rec (Pair b (Symbol name) rest) vm = Jumped 1 vm' /\
    heap vm' = heap vm /\
    messages vm' = (messages vm ++ ["set!: constant symbol `" +:+ name +:+ "'"])%list.
Proof.
  intros Hk Hc. unfold op_set. cbn [CAR type_of]. unfold bind at 1. cbn [ret].
  unfold bind at 1. cbn [ret]. rewrite Hk.
  destruct (@lisp_err_jumps unit ("set!: constant symbol `" +:+ name +:+ "'") vm Hc)
    as (vm' & E & _ & Hh & _ & Hm).
  exists vm'. auto.
Qed.

Lemma lisp_setvar_constant_binding gas name value vm d b :
  sym_const name = false -> catch vm = true ->
  setvar_find gas (Some (env vm)) name vm = Done (Some (d, b)) vm ->
  b_const b = true ->
  exists vm', lisp_setvar gas name value vm = Jumped 1 vm' /\
    heap vm' = heap vm /\
    messages vm' = (messages vm ++ ["Can not modify constant: " +:+ name])%list.
Proof.
  intros Hk Hc Hfind Hb. unfold lisp_setvar. rewrite Hk. cbn [negb assert].
  unfold bind at 1. cbn [ret]. unfold bind at 1. cbn [get].
  unfold bind at 1. rewrite Hfind. rewrite Hb.
  destruct (@lisp_err_jumps unit ("Can not modify constant: " +:+ name) vm Hc)
    as (vm' & E & _ & Hh & _ & Hm).
  exists vm'. auto.
Qed.

Lemma lisp_defvar_constant_binding name value vm e_no_def d parent k owner items t :
  sym_const name = false -> catch vm = true ->
  heap vm !! env vm = Some (Env e_no_def d parent) ->
  heap vm !! d = Some (Dict k owner items) ->
  lisp_dict_assoc items name = Some t -> b_const t = true ->
  exists vm', lisp_defvar name value vm = Jumped 1 vm' /\
    heap vm' = heap vm /\
    messages vm' = (messages vm ++ ["Can not redefine constant: " +:+ name])%list.
Proof.
  intros Hk Hc He Hd Ht Hb.
  unfold lisp_defvar, env_bindings, dict_items, bind, get, deref.
  rewrite Hk. cbn [negb assert ret]. rewrite He. cbn [ret]. rewrite Hd.
  cbn [ret]. rewrite Ht, Hb.
  destruct (@lisp_err_jumps unit ("Can not redefine constant: " +:+ name) vm Hc)
    as (vm' & E & _ & Hh & _ & Hm).
  exists vm'. auto.
Qed.

Lemma op_define_constant_symbol rec b name rest vm d parent :
  sym_const name = true -> catch vm = true ->
  heap vm !! env vm = Some (Env false d parent) ->
  exists vm', op_define rec (Pair b (Symbol name) rest) vm = Jumped 1 vm' /\
    heap vm' = heap vm /\
    messages vm' = (messages vm ++ ["define: const " +:+ name])%list.
Proof.
  intros Hk Hc He.
  unfold op_define, env_no_def, bind, get, deref. cbn [is_nil ret CAR type_of].
  rewrite He. cbn [ret]. rewrite Hk.
  destruct (@lisp_err_jumps string ("define: const " +:+ name) vm Hc)
    as (vm' & E & _ & Hh & _ & Hm).
  exists vm'. auto.
Qed.

Example set_of_constant_symbol :
  match eval_object 10 10
          (mklist [Symbol "catch"; mklist [Symbol "set!"; Symbol "true"; Number 1]])
          example_vm with
  | Done r vm => r = Pair plain (Symbol "error") NIL /\
                 messages vm = ["set!: constant symbol `true'"]
  | _ => False
  end.
Proof. vm_compute. auto. Qed.

Example define_of_constant_symbol :
  match eval_object 10 10
          (mklist [Symbol "catch";
                   mklist [Symbol "define"; mklist [Symbol "undefined"; Symbol "x"];
                           Number 1]])
          example_vm with
  | Done r vm => r = Pair plain (Symbol "error") NIL /\
                 messages vm = ["Bad argument: `undefined' is const"]
  | _ => False
  end.
Proof. vm_compute. auto. Qed.

Example set_and_define_of_constant_binding :
  match eval_object 10 10
          (mklist [Symbol "begin";
                   mklist [Symbol "defconst"; Symbol "k"; Number 1];
                   mklist [Symbol "catch"; mklist [Symbol "set!"; Symbol "k"; Number 2]];
                   mklist [Symbol "catch"; mklist [Symbol "define"; Symbol "k"; Number 3]];
                   Symbol "k"])
          example_vm with
  | Done r vm =>
      r = Number 1 /\
      messages vm = ["Can not modify constant: k"; "Can not redefine constant: k"]
  | _ => False
  end.
Proof. vm_compute. auto. Qed.

Lemma bind_step {A B} (m : M A) (k : A -> M B) vm x vm1 :
  m vm = Done x vm1 -> bind m k vm = k x vm1.
Proof. intros H. unfold bind. rewrite H. reflexivity. Qed.

Lemma array_parts_of x k owner items vm :
  heap vm !! x = Some (Array k owner items) ->
  array_parts (Ref x) vm = Done (x, k, owner, items) vm.
Proof.
  intros Hx. unfold array_parts, safe_ptr, type_of, bind, deref. rewrite Hx.
  cbn. rewrite Hx. reflexivity.
Qed.

Lemma vm_check_own vm : vm_check (self vm) vm = Done tt vm.
Proof.
  unfold vm_check, bind, get.
  destruct (decide (self vm = self vm)); [reflexivity | contradiction].
Qed.

Lemma vm_check_foreign x vm :
  x <> self vm -> catch vm = true ->
  exists vm', vm_check x vm = Jumped 1 vm' /\
    heap vm' = heap vm /\ env vm' = env vm /\
    stack vm' = Pair plain (Symbol "error") NIL :: stack vm /\
    messages vm' = (messages vm ++ ["Can not modify foreign object"])%list.
Proof.
  intros Hx Hc. unfold vm_check, bind, get.
  destruct (decide (self vm = x)) as [E|_]; [congruence|].
  destruct (@lisp_err_jumps unit "Can not modify foreign object" vm Hc)
    as (vm' & E & Hs & Hh & He & Hm).
  exists vm'. auto.
Qed.

Lemma lisp_safe_int_0 vm : lisp_safe_int (Number 0) vm = Done 0 vm.
Proof. reflexivity. Qed.

(** [array-set!] looks at the owner of the array and at the index, not at
    [is_const]. *)
Lemma array_set_ignores_is_const x k a items v vm :
  heap vm !! x = Some (Array k (self vm) (a :: items)) ->
  exists vm',
    array_set (mklist [Ref x; Number 0; v]) vm = Done tt vm' /\
    heap vm' = <[x := Array k (self vm) (v :: items)]> (heap vm) /\
    stack vm' = LISP_UNDEF :: stack vm /\
    messages vm' = messages vm.
Proof.
  intros Hx. unfold array_set. cbn [mklist CAR].
  rewrite (bind_step _ _ vm (Ref x) vm eq_refl).
  rewrite (bind_step _ _ _ _ _ (array_parts_of _ _ _ _ _ Hx)).
  rewrite (bind_step _ _ _ _ _ (vm_check_own vm)).
  rewrite (bind_step _ _ vm (Number 0) vm eq_refl).
  rewrite (bind_step _ _ _ _ _ (lisp_safe_int_0 vm)).
  eexists. split; [reflexivity|]. simpl. auto.
Qed.

(** C6.  [(array-set! #(1 2 3) 0 9)]: the array literal of the
    reader, object 8, has [is_const] set.  No error is raised: the call
    returns [undefined], nothing is printed, and the literal holds 9. *)
Example array_set_on_constant_array :
  match eval_object 10 10
          (mklist [Symbol "array-set!"; Ref 8; Number 0; Number 9])
          example_vm with
  | Done r vm =>
      r = LISP_UNDEF /\ messages vm = [] /\
      heap example_vm !! 8%positive
      = Some (Array true 1 [Number 1; Number 2; Number 3]) /\
      heap vm !! 8%positive = Some (Array true 1 [Number 9; Number 2; Number 3])
  | _ => False
  end.
Proof. vm_compute. auto. Qed.

(** [(define (&rest x) 1)]: the constant symbol [&rest] passes the test
    of [op_lambda], which lets the modifiers through, and [lisp_defvar]
    stops at [assert(!name->obj.is_const)]. *)
Example define_of_modifier_symbol :
  eval_object 10 10
    (mklist [Symbol "catch";
             mklist [Symbol "define"; mklist [Symbol "&rest"; Symbol "x"]; Number 1]])
    example_vm
  = Aborted.
Proof. vm_compute. reflexivity. Qed.

(** ** Objects of another machine *)

(** [array-set!] on an array of another machine fails and leaves the heap
    as it is; [array-get] reads it. *)
Lemma array_set_foreign_fails b x rest k owner items vm :
  heap vm !! x = Some (Array k owner items) ->
  owner <> self vm -> catch vm = true ->
  exists vm', array_set (Pair b (Ref x) rest) vm = Jumped 1 vm' /\
    heap vm' = heap vm /\
    messages vm' = (messages vm ++ ["Can not modify foreign object"])%list.
Proof.
  intros Hx Ho Hc. unfold array_set. cbn [CAR].
  rewrite (bind_step _ _ vm (Ref x) vm eq_refl).
  rewrite (bind_step _ _ _ _ _ (array_parts_of _ _ _ _ _ Hx)).
  destruct (vm_check_foreign owner vm Ho Hc) as (vm' & E & Hh & _ & _ & Hm).
  exists vm'. unfold bind. rewrite E. auto.
Qed.

Lemma array_get_foreign_reads x k owner a items vm :
  heap vm !! x = Some (Array k owner (a :: items)) ->
  exists vm', array_get (mklist [Ref x; Number 0]) vm = Done tt vm' /\
    heap vm' = heap vm /\ stack vm' = a :: stack vm /\
    messages vm' = messages vm.
Proof.
  intros Hx. unfold array_get. cbn [mklist CAR].
  rewrite (bind_step _ _ vm (Ref x) vm eq_refl).
  rewrite (bind_step _ _ _ _ _ (array_parts_of _ _ _ _ _ Hx)).
  rewrite (bind_step _ _ vm (Number 0) vm eq_refl).
  rewrite (bind_step _ _ _ _ _ (lisp_safe_int_0 vm)).
  eexists. split; [reflexivity|]. simpl. auto.
Qed.

(** [set!] of a variable that is bound in an environment of another
    machine. *)
Lemma lisp_setvar_foreign gas name value vm no_def d parent k owner items b :
  sym_const name = false -> catch vm = true ->
  heap vm !! env vm = Some (Env no_def d parent) ->
  heap vm !! d = Some (Dict k owner items) ->
  lisp_dict_assoc items name = Some b ->
  owner <> self vm ->
  exists vm', lisp_setvar (S gas) name value vm = Jumped 1 vm' /\
    heap vm' = heap vm /\
    messages vm' =
      (messages vm ++
       ["Can not modify variable in foreign environment -- " +:+ name])%list.
Proof.
  intros Hk Hc He Hd Hb Ho.
  unfold lisp_setvar. rewrite Hk. cbn [negb assert setvar_find].
  unfold dict_items, dict_owner, bind, get, deref, ret.
  rewrite He, Hd, Hb, Hd.
  destruct (decide (owner = self vm)) as [E|_]; [congruence|].
  destruct (@lisp_err_jumps (option (addr * binding))
              ("Can not modify variable in foreign environment -- " +:+ name) vm Hc)
    as (vm' & -> & _ & Hh & _ & Hm).
  exists vm'. auto.
Qed.

Example array_set_of_foreign_array :
  match eval_object 10 10
          (mklist [Symbol "catch";
                   mklist [Symbol "array-set!"; Symbol "their-array";
                           Number 0; Number 9]])
          example_vm with
  | Done r vm =>
      r = Pair plain (Symbol "error") NIL /\
      messages vm = ["Can not modify foreign object"] /\
      heap vm !! 20%positive = heap example_vm !! 20%positive
  | _ => False
  end.
Proof. vm_compute. auto. Qed.

Example array_get_of_foreign_array :
  match eval_object 10 10
          (mklist [Symbol "array-get"; Symbol "their-array"; Number 0])
          example_vm with
  | Done r vm => r = Number 1 /\ messages vm = []
  | _ => False
  end.
Proof. vm_compute. auto. Qed.

(** C7.  [(write-string "hi" their-port)] in machine 1, for the
    output port 21 of machine 2, whose buffer is object 22.  The
    primitive makes no [vm_check]: it returns [undefined], nothing is
    printed on the error port, and the two bytes are in the buffer of the
    foreign port. *)
Example write_string_to_foreign_port :
  match eval_object 10 10
          (mklist [Symbol "write-string"; String "hi"; Symbol "their-port"])
          example_vm with
  | Done r vm =>
      r = LISP_UNDEF /\ messages vm = [] /\ self vm = 1%positive /\
      heap vm !! 21%positive = Some (Port 2 true false false 22 None) /\
      heap example_vm !! 22%positive = Some (Buffer false 2 256 []) /\
      heap vm !! 22%positive = Some (Buffer false 2 256 [104; 105])
  | _ => False
  end.
Proof. vm_compute. repeat split; reflexivity. Qed.

Example newline_to_foreign_port :
  match eval_object 10 10 (mklist [Symbol "newline"; Symbol "their-port"])
          example_vm with
  | Done r vm =>
      r = LISP_UNDEF /\ messages vm = [] /\
      heap vm !! 22%positive = Some (Buffer false 2 256 [10])
  | _ => False
  end.
Proof. vm_compute. auto. Qed.

(** ** The stack across a call *)

Lemma lisp_push_done o vm x vm' :
  lisp_push o vm = Done x vm' ->
  stack vm' = o :: stack vm /\ heap vm' = heap vm /\ env vm' = env vm /\
  eval_level vm' = eval_level vm.
Proof. unfold lisp_push. intros H. injection H as _ <-. simpl. auto. Qed.

Lemma lisp_pop_done n vm x vm' :
  lisp_pop n vm = Done x vm' ->
  stack vm' = drop n (stack vm) /\ (n <= length (stack vm))%nat /\
  hd_error (stack vm) = Some x /\ heap vm' = heap vm /\ env vm' = env vm.
Proof.
  unfold lisp_pop. destruct (stack vm) as [|top rest] eqn:Es; [discriminate|].
  destruct (_ <=? _)%nat eqn:Hle; [|discriminate].
  intros H. injection H as <- <-. apply Nat.leb_le in Hle. simpl. auto.
Qed.

(** A call that leaves the stack as it is. *)
Definition stack_same {A} (m : M A) : Prop :=
  forall vm x vm', m vm = Done x vm' -> stack vm' = stack vm.

Lemma stack_same_bind {A B} (m : M A) (k : A -> M B) :
  stack_same m -> (forall x, stack_same (k x)) -> stack_same (bind m k).
Proof.
  intros Hm Hk vm r vm' H. apply bind_done in H as (x & vm1 & H1 & H2).
  rewrite (Hk x _ _ _ H2). eapply Hm; eauto.
Qed.

Lemma pure_stack_same {A} (m : M A) : pure m -> stack_same m.
Proof. intros Hm vm x vm' H. rewrite (Hm _ _ _ H). reflexivity. Qed.

Lemma stack_same_modify f :
  (forall vm, stack (f vm) = stack vm) -> stack_same (modify f).
Proof. intros Hf vm x vm' H. injection H as _ <-. apply Hf. Qed.

Lemma stack_same_store a c : stack_same (store a c).
Proof. intros vm x vm' H. injection H as _ <-. reflexivity. Qed.

Lemma stack_same_new_obj c : stack_same (new_obj c).
Proof. intros vm x vm' H. injection H as _ <-. reflexivity. Qed.

Lemma stack_same_set_env e : stack_same (set_env e).
Proof. apply stack_same_modify. reflexivity. Qed.

Lemma stack_same_ret {A} (x : A) : stack_same (ret x).
Proof. apply pure_stack_same, pure_ret. Qed.

Lemma stack_same_get : stack_same get.
Proof. apply pure_stack_same, pure_get. Qed.

Lemma stack_same_abort {A} : stack_same (@abort A).
Proof. apply pure_stack_same, pure_abort. Qed.

Lemma stack_same_assert b : stack_same (assert b).
Proof. apply pure_stack_same, pure_assert. Qed.

Lemma stack_same_deref a : stack_same (deref a).
Proof. apply pure_stack_same, pure_deref. Qed.

Lemma stack_same_lisp_err {A} msg : stack_same (@lisp_err A msg).
Proof. apply pure_stack_same, pure_lisp_err. Qed.

Lemma stack_same_CAR p : stack_same (CAR p).
Proof. apply pure_stack_same, pure_CAR. Qed.

Lemma stack_same_CDR p : stack_same (CDR p).
Proof. apply pure_stack_same, pure_CDR. Qed.

Lemma stack_same_not_modelled {A} : stack_same (fun _ => @NotModelled A).
Proof. intros vm x vm' H. discriminate H. Qed.

Create HintDb stack_same.

#[local] Hint Resolve stack_same_store stack_same_new_obj stack_same_set_env
  stack_same_ret stack_same_get stack_same_abort stack_same_assert
  stack_same_deref stack_same_lisp_err stack_same_CAR stack_same_CDR
  stack_same_not_modelled : stack_same.

Ltac stack_same_tac :=
  repeat (intros;
          first
            [ solve [auto with stack_same]
            | apply stack_same_bind
            | match goal with
              | |- stack_same (match ?x with _ => _ end) => destruct x
              end ]).

Lemma stack_same_lisp_env_new parent : stack_same (lisp_env_new parent).
Proof.
  intros vm x vm' H.
  unfold lisp_env_new, lisp_dict_new, bind, get, new_obj, lisp_push, lisp_pop in H.
  simpl in H. injection H as _ <-. reflexivity.
Qed.
#[local] Hint Resolve stack_same_lisp_env_new : stack_same.

Lemma stack_same_env_bindings e : stack_same (env_bindings e).
Proof. unfold env_bindings. stack_same_tac. Qed.
#[local] Hint Resolve stack_same_env_bindings : stack_same.

Lemma stack_same_lisp_dict_add d name v : stack_same (lisp_dict_add d name v).
Proof. unfold lisp_dict_add. stack_same_tac. Qed.

Lemma stack_same_lisp_dict_clear d : stack_same (lisp_dict_clear d).
Proof. unfold lisp_dict_clear. stack_same_tac. Qed.
#[local] Hint Resolve stack_same_lisp_dict_add stack_same_lisp_dict_clear : stack_same.

Lemma stack_same_clear_env : stack_same clear_env.
Proof. unfold clear_env. stack_same_tac. Qed.

Lemma stack_same_proc_parts c : stack_same (proc_parts c).
Proof. unfold proc_parts. stack_same_tac. Qed.

Lemma stack_same_bind_name name v : stack_same (bind_name name v).
Proof. unfold bind_name. stack_same_tac. Qed.
#[local] Hint Resolve stack_same_clear_env stack_same_proc_parts
  stack_same_bind_name : stack_same.

Lemma stack_same_bind_loop c formals :
  forall modifier values procedure_name,
    stack_same (bind_loop c formals modifier values procedure_name).
Proof. induction formals; intros; simpl; stack_same_tac. Qed.
#[local] Hint Resolve stack_same_bind_loop : stack_same.

Lemma stack_same_bind_args c values : stack_same (bind_args c values).
Proof. unfold bind_args. stack_same_tac. Qed.
#[local] Hint Resolve stack_same_bind_args : stack_same.

Lemma keeps_done {A} (m : M A) vm x vm' :
  keeps m -> m vm = Done x vm' ->
  eval_level vm' = eval_level vm /\ catch vm' = catch vm.
Proof.
  intros Hm H. pose proof (Hm _ _ vm (conj eq_refl eq_refl)) as Hk.
  rewrite H in Hk. exact Hk.
Qed.

(** [assert(count == vm->stack->count)] at the end of [lisp_eval_core]:
    a call that returns has replaced the expression by its value. *)
Lemma lisp_eval_core_step_stack gas rec at_tail vm r vm' :
  lisp_eval_core_step gas rec at_tail vm = Done r vm' ->
  length (stack vm') = length (stack vm).
Proof.
  unfold lisp_eval_core_step. intros H.
  apply bind_done in H as (vm0 & vm1 & H0 & H).
  injection H0 as E0 E1. subst vm0 vm1.
  apply bind_done in H as (obj & vm1 & H1 & H).
  apply pure_lisp_top in H1 as ->.
  apply bind_done in H as (k & vm1 & H1 & H).
  apply pure_obj_is_const in H1 as ->.
  destruct k.
  - injection H as _ <-. reflexivity.
  - apply bind_done in H as (t & vm1 & H1 & H).
    apply pure_type_of in H1 as ->.
    apply bind_done in H as (r0 & vm2 & _ & H).
    apply bind_done in H as (vm3 & vm4 & H3 & H).
    injection H3 as E3 E4. subst vm3 vm4.
    apply bind_done in H as ([] & vm4 & H4 & H).
    destruct (Nat.eqb (length (stack vm)) (length (stack vm2))) eqn:E;
      [|discriminate H4].
    injection H4 as <-. injection H as _ <-.
    apply Nat.eqb_eq in E. symmetry. exact E.
Qed.

Lemma lisp_eval_core_stack gas depth at_tail vm r vm' :
  lisp_eval_core gas depth at_tail vm = Done r vm' ->
  length (stack vm') = length (stack vm).
Proof.
  destruct depth as [|d]; [discriminate|]. apply lisp_eval_core_step_stack.
Qed.

Section StackKnot.

Variable rec : bool -> M Lisp_Object.
Hypothesis rec_stack : forall at_tail vm r vm',
  rec at_tail vm = Done r vm' -> length (stack vm') = length (stack vm).

Lemma eval_list_stack l : forall at_tail vm vm',
  eval_list rec l at_tail vm = Done tt vm' ->
  length (stack vm') = S (length (stack vm)).
Proof.
  induction l as [| | | |b a _ d IH|]; intros at_tail vm vm' H;
    try discriminate H.
  - (* nil *)
    simpl in H. apply bind_done in H as ([] & vm1 & H1 & H).
    apply lisp_push_done in H1 as (Hs & _).
    apply bind_done in H as (r & vm2 & H2 & H). injection H as <-.
    rewrite (rec_stack _ _ _ _ H2), Hs. reflexivity.
  - (* a pair *)
    assert (Hlast : forall vm0 vm0',
      (let* _ := lisp_push a in let* _ := rec at_tail in ret tt) vm0 = Done tt vm0' ->
      length (stack vm0') = S (length (stack vm0))).
    { intros vm0 vm0' H0.
      apply bind_done in H0 as ([] & vm1 & H1 & H0).
      apply lisp_push_done in H1 as (Hs & _).
      apply bind_done in H0 as (r & vm2 & H2 & H0). injection H0 as <-.
      rewrite (rec_stack _ _ _ _ H2), Hs. reflexivity. }
    assert (Hmore : forall vm0 vm0',
      (let* _ := lisp_push a in
       let* r := lisp_eval rec in
       if is_return (bits_of r) then ret tt
       else let* _ := lisp_pop 1 in eval_list rec d at_tail) vm0 = Done tt vm0' ->
      length (stack vm0') = S (length (stack vm0))).
    { intros vm0 vm0' H0.
      apply bind_done in H0 as ([] & vm1 & H1 & H0).
      apply lisp_push_done in H1 as (Hs & _).
      apply bind_done in H0 as (r & vm2 & H2 & H0).
      apply rec_stack in H2.
      destruct (is_return (bits_of r)).
      - injection H0 as <-. rewrite H2, Hs. reflexivity.
      - apply bind_done in H0 as (x & vm3 & H3 & H0).
        apply lisp_pop_done in H3 as (Hs3 & Hle & _).
        apply IH in H0. rewrite H0, Hs3, length_drop, H2, Hs. simpl. lia. }
    simpl in H. destruct d; first [apply Hlast; exact H | apply Hmore; exact H].
Qed.

Lemma body_turn_stack lbody vm t vm' :
  body_turn rec lbody vm = Done t vm' ->
  length (stack vm') = S (length (stack vm)) /\ hd_error (stack vm') = Some t.
Proof.
  unfold body_turn, eval_body. intros H.
  apply bind_done in H as ([] & vm1 & H1 & H).
  apply eval_list_stack in H1.
  apply bind_done in H as (t0 & vm2 & H2 & H).
  pose proof (pure_lisp_top _ _ _ _ H2) as ->.
  unfold lisp_top in H2. destruct (stack vm1) as [|top rest] eqn:Es; [discriminate|].
  simpl in H2. injection H2 as ->.
  destruct (is_return (bits_of t0)).
  - apply bind_done in H as (x & vm3 & H3 & H).
    apply lisp_pop_done in H3 as (Hs3 & _).
    apply bind_done in H as (t1 & vm4 & H4 & H).
    apply pure_CAR in H4 as ->.
    apply bind_done in H as ([] & vm5 & H5 & H).
    apply lisp_push_done in H5 as (Hs5 & _). injection H as <- <-.
    rewrite Hs5, Hs3, Es. simpl. rewrite drop_0.
    simpl in H1. split; [lia | reflexivity].
  - injection H as <- <-. rewrite Es. auto.
Qed.

End StackKnot.

Lemma rebind_stack c c_env t vm vm' :
  rebind c c_env t vm = Done tt vm' ->
  stack vm' = drop 1 (stack vm) /\ (1 <= length (stack vm))%nat.
Proof.
  unfold rebind. intros H.
  apply bind_done in H as (args & vm1 & H1 & H). apply pure_CDDR in H1 as ->.
  apply bind_done in H as (e & vm1 & H1 & H).
  apply stack_same_lisp_env_new in H1.
  apply bind_done in H as ([] & vm2 & H2 & H). apply stack_same_set_env in H2.
  apply bind_done in H as ([] & vm3 & H3 & H). apply stack_same_bind_args in H3.
  apply bind_done in H as (x & vm4 & H4 & H).
  apply lisp_pop_done in H4 as (Hs4 & Hle & _). injection H as <-.
  rewrite Hs4, H3, H2, H1. split; [reflexivity|]. congruence.
Qed.

Lemma pure_is_self_tail_call c t : pure (is_self_tail_call c t).
Proof. unfold is_self_tail_call. pure_tac. Qed.

Lemma tail_call_object_done p op args vm :
  exists vm', tail_call_object p op args vm = Done tt vm' /\
    stack vm' =
      Pair {| is_list := false; tail_call := true; is_return := false |}
           p (Pair plain op args) :: stack vm /\
    heap vm' = heap vm /\ env vm' = env vm /\ eval_level vm' = eval_level vm.
Proof.
  unfold tail_call_object, bind, lisp_push, lisp_cons, set_top_bits. simpl.
  eexists. split; [reflexivity|]. simpl. auto.
Qed.

(** ** Tail calls *)

(** [turns rec c c_env lbody k vm vmk]: the loop of
    [eval_procedure_body] for the procedure [c], entered in the state
    [vm], has made [k] turns that each ended in a tail call of [c]
    itself, and [vmk] is the state in which the next turn begins. *)
Inductive turns (rec : bool -> M Lisp_Object) (c c_env : addr)
    (lbody : Lisp_Object) : nat -> Lisp_VM -> Lisp_VM -> Prop :=
| turns_0 vm : turns rec c c_env lbody 0 vm vm
| turns_S k vm t vm1 vm2 vmk :
    body_turn rec lbody vm = Done t vm1 ->
    is_self_tail_call c t vm1 = Done true vm1 ->
    rebind c c_env t vm1 = Done tt vm2 ->
    turns rec c c_env lbody k vm2 vmk ->
    turns rec c c_env lbody (S k) vm vmk.

Lemma turns_same_level gas depth c c_env lbody k vm vmk :
  turns (lisp_eval_core gas depth) c c_env lbody k vm vmk ->
  length (stack vmk) = length (stack vm) /\ eval_level vmk = eval_level vm.
Proof.
  induction 1 as [vm|k vm t vm1 vm2 vmk Hturn Hself Hre _ IH]; [auto|].
  destruct IH as [IHs IHl].
  destruct (body_turn_stack _ (lisp_eval_core_stack gas depth) _ _ _ _ Hturn)
    as [Hs1 _].
  destruct (rebind_stack _ _ _ _ _ Hre) as [Hs2 Hle].
  destruct (keeps_done _ _ _ _ (keeps_body_turn _ (keeps_lisp_eval_core gas depth) lbody)
              Hturn) as [Hl1 _].
  destruct (keeps_done _ _ _ _ (keeps_rebind c c_env t) Hre) as [Hl2 _].
  split; [|congruence].
  rewrite IHs, Hs2, length_drop, Hs1. lia.
Qed.

Lemma body_loop_turns rec c c_env lbody k vm vmk t vm' :
  turns rec c c_env lbody k vm vmk ->
  body_turn rec lbody vmk = Done t vm' ->
  is_self_tail_call c t vm' = Done false vm' ->
  forall g, (k < g)%nat -> body_loop rec g c c_env lbody vm = Done tt vm'.
Proof.
  intros Hturns Hlast Hstop.
  induction Hturns as [vm|k vm t0 vm1 vm2 vmk Hturn Hself Hre _ IH];
    intros g Hg; (destruct g as [|g]; [lia|]); cbn [body_loop].
  - rewrite (bind_step _ _ _ _ _ Hlast), (bind_step _ _ _ _ _ Hstop). reflexivity.
  - rewrite (bind_step _ _ _ _ _ Hturn), (bind_step _ _ _ _ _ Hself).
    rewrite (bind_step _ _ _ _ _ Hre). apply (IH Hlast). lia.
Qed.


(** [(define (count n) (if (= n 0) 'done (count (- n 1))))] *)
Definition count_body : Lisp_Object :=
  mklist [mklist [Symbol "if";
                  mklist [Symbol "="; Symbol "n"; Number 0];
                  quoted (Symbol "done");
                  mklist [Symbol "count";
                          mklist [Symbol "-"; Symbol "n"; Number 1]]]].

Definition count_define : Lisp_Object :=
  Pair {| is_list := true; tail_call := false; is_return := false |}
       (Symbol "define")
       (Pair {| is_list := true; tail_call := false; is_return := false |}
             (mklist [Symbol "count"; Symbol "n"]) count_body).

Definition state_of {A} (o : outcome A) : Lisp_VM :=
  match o with
  | Done _ vm => vm
  | _ => example_vm
  end.

(** The machine after the definition: [count] is the procedure 100,
    made in the root environment 1. *)
Definition count_vm : Lisp_VM :=
  state_of ((let* _ := eval_object 10 10 count_define in lisp_pop 1) example_vm).

(** The state in which [eval_procedure_body] enters its loop for
    [(count 2)]. *)
Definition count_entry : Lisp_VM :=
  state_of ((let* _ := lisp_begin_env (Some 1%positive) in
             bind_args 100 (mklist [Number 2])) count_vm).


(** [(count n)] after the definition, on a stack of 16 slots, with at
    most 8 calls of [lisp_eval_core] open at a time: 3 turns and 5000
    turns (five times [MAX_DEPTH]) both end with [done], [eval_level]
    back at 0 and a stack of 32 slots. *)
Definition run_count (n : float) : outcome Lisp_Object :=
  eval_object (N.to_nat 6000) 8
    (mklist [Symbol "begin"; count_define; mklist [Symbol "count"; Number n]])
    (with_stack example_vm 16 []).

Example count_3 :
  match run_count 3 with
  | Done r vm => r = Symbol "done" /\ stack_cap vm = 32%nat /\ eval_level vm = O
  | _ => False
  end.
Proof. vm_compute. auto. Qed.

Example count_5000 :
  match run_count 5000 with
  | Done r vm => r = Symbol "done" /\ stack_cap vm = 32%nat /\ eval_level vm = O
  | _ => False
  end.
Proof. vm_compute. auto. Qed.

(** A call that is not in tail position is a call:
    [(define (deep n) (if (= n 0) 0 (+ 1 (deep (- n 1)))))] needs a
    stack of 8192 slots for [(deep 300)], and [(deep 400)] ends in the
    error of [MAX_DEPTH]. *)
Definition deep_define : Lisp_Object :=
  mklist [Symbol "define"; mklist [Symbol "deep"; Symbol "n"];
          mklist [Symbol "if";
                  mklist [Symbol "="; Symbol "n"; Number 0];
                  Number 0;
                  mklist [Symbol "+"; Number 1;
                          mklist [Symbol "deep";
                                  mklist [Symbol "-"; Symbol "n"; Number 1]]]]].

Definition run_deep (n : float) : outcome Lisp_Object :=
  eval_object 10 (N.to_nat 2000)
    (mklist [Symbol "catch"; deep_define; mklist [Symbol "deep"; Number n]])
    (with_stack example_vm 16 []).

Example deep_300 :
  match run_deep 300 with
  | Done r vm => r = Number 300 /\ stack_cap vm = N.to_nat 8192
  | _ => False
  end.
Proof. vm_compute. auto. Qed.

Example deep_400 :
  match run_deep 400 with
  | Done r vm => r = Pair plain (Symbol "error") NIL /\
                 messages vm = ["exceeding max depth: 1000"]
  | _ => False
  end.
Proof. vm_compute. auto. Qed.

End Evaluator.

(** * Variables and environments

    [lisp_getvar], [lisp_defvar] and [lisp_setvar] against the chain of
    environments that hangs from [vm->env]. *)

Module Environments.

Import Evaluator.
Local Open Scope string_scope.

#[local] Arguments sym_primitive : simpl never.
#[local] Arguments sym_const : simpl never.

(** The dictionaries along the chain of parents of an environment, the
    innermost first, each with its entries. *)
Inductive env_chain (h : gmap positive cell)
  : option addr -> list (addr * list binding) -> Prop :=
| chain_end : env_chain h None []
| chain_link a no_def d parent k owner items rest :
    h !! a = Some (Env no_def d parent) ->
    h !! d = Some (Dict k owner items) ->
    env_chain h parent rest ->
    env_chain h (Some a) ((d, items) :: rest).

(** The first binding of [name] along the chain. *)
Fixpoint chain_assoc (l : list (addr * list binding)) (name : string)
  : option (addr * binding) :=
  match l with
  | [] => None
  | (d, items) :: rest =>
      match lisp_dict_assoc items name with
      | Some b => Some (d, b)
      | None => chain_assoc rest name
      end
  end.

Definition chain_value (l : list (addr * list binding)) (name : string)
  : option Lisp_Object :=
  (fun p => val (snd p)) <$> chain_assoc l name.

Lemma lisp_env_assoc_chain h e l name :
  env_chain h e l ->
  forall gas vm, heap vm = h -> (length l < gas)%nat ->
  lisp_env_assoc gas e name vm = Done (chain_assoc l name) vm.
Proof.
  induction 1 as [|a nd d parent k o items rest Ha Hd _ IH];
    intros gas vm Hh Hgas; destruct gas as [|g]; simpl in Hgas; try lia.
  - reflexivity.
  - cbn [lisp_env_assoc chain_assoc]. unfold bind, deref, dict_items.
    rewrite Hh, Ha. cbn. unfold bind, deref. rewrite Hh, Hd. cbn.
    destruct (lisp_dict_assoc items name); [reflexivity|].
    apply IH; [exact Hh | lia].
Qed.

Lemma setvar_find_chain h e l name :
  env_chain h e l ->
  forall gas vm d b, heap vm = h -> (length l < gas)%nat ->
  chain_assoc l name = Some (d, b) ->
  (exists k items, h !! d = Some (Dict k (self vm) items)) ->
  setvar_find gas e name vm = Done (Some (d, b)) vm.
Proof.
  induction 1 as [|a nd d0 parent k o items rest Ha Hd _ IH];
    intros gas vm d b Hh Hgas Hfound Hown; destruct gas as [|g];
    simpl in Hgas; try lia; cbn [chain_assoc] in Hfound; [discriminate|].
  cbn [setvar_find]. unfold bind, deref, dict_items, dict_owner.
  rewrite Hh, Ha. cbn. unfold bind, deref. rewrite Hh, Hd. cbn.
  destruct (lisp_dict_assoc items name) as [b0|].
  - injection Hfound as <- <-. unfold get. rewrite Hh, Hd. cbn.
    destruct Hown as (k' & items' & Hd'). rewrite Hd in Hd'.
    injection Hd' as _ -> _. rewrite decide_True by reflexivity. reflexivity.
  - apply IH; [exact Hh | lia | exact Hfound | exact Hown].
Qed.

(** ** Entries of one dictionary *)

Lemma dict_assoc_key items name b :
  lisp_dict_assoc items name = Some b -> key b = name.
Proof.
  unfold lisp_dict_assoc. induction items as [|x items IH]; simpl; [discriminate|].
  destruct (String.eqb (key x) name) eqn:E.
  - intros [= <-]. apply String.eqb_eq. exact E.
  - exact IH.
Qed.

Lemma dict_assoc_app items name b :
  lisp_dict_assoc (items ++ [b]) name =
  match lisp_dict_assoc items name with
  | Some x => Some x
  | None => if String.eqb (key b) name then Some b else None
  end.
Proof.
  unfold lisp_dict_assoc. induction items as [|x items IH]; simpl.
  - destruct (String.eqb (key b) name); reflexivity.
  - destruct (String.eqb (key x) name); [reflexivity | exact IH].
Qed.

Lemma dict_assoc_update items name f other :
  (forall b, key (f b) = key b) ->
  lisp_dict_assoc (update_first name f items) other =
  if String.eqb other name then f <$> lisp_dict_assoc items name
  else lisp_dict_assoc items other.
Proof.
  intros Hf. unfold lisp_dict_assoc.
  induction items as [|x items IH]; simpl.
  - destruct (String.eqb other name); reflexivity.
  - destruct (String.eqb (key x) name) eqn:Ex; simpl.
    + apply String.eqb_eq in Ex. rewrite Hf, Ex.
      destruct (String.eqb other name) eqn:Eo.
      * apply String.eqb_eq in Eo. subst other.
        rewrite String.eqb_refl. reflexivity.
      * rewrite String.eqb_sym, Eo. reflexivity.
    + destruct (String.eqb other name) eqn:Eo.
      * apply String.eqb_eq in Eo. subst other. rewrite Ex. exact IH.
      * destruct (String.eqb (key x) other); [reflexivity | exact IH].
Qed.

(** ** One dictionary of the chain is written *)

Definition upd (d : addr) (items' : list binding) (x : addr * list binding)
  : addr * list binding :=
  if decide (fst x = d) then (d, items') else x.

Lemma env_chain_update h e l d k o items items' :
  env_chain h e l -> h !! d = Some (Dict k o items) ->
  env_chain (<[d := Dict k o items']> h) e (map (upd d items') l).
Proof.
  intros Hc Hd. induction Hc as [|a nd d0 parent k0 o0 items0 rest Ha Hd0 _ IH].
  - constructor.
  - cbn [map]. unfold upd at 1. cbn [fst].
    assert (a <> d) by (intros ->; congruence).
    destruct (decide (d0 = d)) as [->|Hne].
    + eapply chain_link; [|apply lookup_insert_eq | exact IH].
      rewrite lookup_insert_ne by congruence. exact Ha.
    + eapply chain_link; [| |exact IH].
      * rewrite lookup_insert_ne by congruence. exact Ha.
      * rewrite lookup_insert_ne by congruence. exact Hd0.
Qed.

Lemma env_chain_items h e l d k o items x :
  env_chain h e l -> h !! d = Some (Dict k o items) ->
  x ∈ l -> fst x = d -> snd x = items.
Proof.
  intros Hc Hd. induction Hc as [|a nd d0 parent k0 o0 items0 rest Ha Hd0 _ IH];
    intros Hin Hx.
  - inversion Hin.
  - apply elem_of_cons in Hin as [->|Hin]; [|auto].
    simpl in *. subst d0. congruence.
Qed.

(** The entries of [d] change so that every name is bound after as it
    was before, up to [g]: the chain finds for every name what it found,
    the binding changed by [g] in [d]. *)
Lemma chain_assoc_update h e l d k o items items' (g : binding -> binding) n :
  env_chain h e l -> h !! d = Some (Dict k o items) ->
  lisp_dict_assoc items' n = g <$> lisp_dict_assoc items n ->
  chain_assoc (map (upd d items') l) n =
  (fun p => if decide (fst p = d) then (d, g (snd p)) else p) <$> chain_assoc l n.
Proof.
  intros Hc Hd Hg. induction Hc as [|a nd d0 parent k0 o0 items0 rest Ha Hd0 _ IH].
  - reflexivity.
  - cbn [map chain_assoc]. unfold upd at 1. cbn [fst].
    destruct (decide (d0 = d)) as [->|Hne].
    + assert (items0 = items) by congruence. subst items0. rewrite Hg.
      destruct (lisp_dict_assoc items n) as [b|]; cbn.
      * rewrite decide_True by reflexivity. reflexivity.
      * exact IH.
    + destruct (lisp_dict_assoc items0 n) as [b|]; cbn.
      * rewrite decide_False by exact Hne. reflexivity.
      * exact IH.
Qed.

Lemma chain_value_same l l' n (g : addr * binding -> addr * binding) :
  chain_assoc l' n = g <$> chain_assoc l n ->
  (forall p, chain_assoc l n = Some p -> val (snd (g p)) = val (snd p)) ->
  chain_value l' n = chain_value l n.
Proof.
  unfold chain_value. intros -> Hg.
  destruct (chain_assoc l n) as [p|]; cbn; [|reflexivity].
  rewrite Hg by reflexivity. reflexivity.
Qed.

(** ** Reading a variable *)

(** What [lisp_getvar] gives for a name, when it gives something. *)
Definition getvar_result (l : list (addr * list binding)) (name : string)
  : option Lisp_Object :=
  match chain_value l name with
  | Some v => Some v
  | None => if sym_primitive name then Some (Symbol name) else None
  end.

Lemma lisp_getvar_spec gas name vm l :
  env_chain (heap vm) (Some (env vm)) l -> (length l < gas)%nat ->
  sym_const name = false ->
  lisp_getvar gas name vm =
  match getvar_result l name with
  | Some v => Done v vm
  | None => lisp_err ("Undefined variable '" +:+ name +:+ "'") vm
  end.
Proof.
  intros Hc Hgas Hk. unfold lisp_getvar. rewrite Hk. cbn [negb assert].
  unfold bind at 1. cbn [ret]. unfold bind at 1. cbn [get]. unfold bind.
  rewrite (lisp_env_assoc_chain _ _ _ name Hc gas vm eq_refl Hgas).
  unfold getvar_result, chain_value.
  destruct (chain_assoc l name) as [[d b]|]; cbn; [reflexivity|].
  destruct (sym_primitive name); reflexivity.
Qed.

Lemma lisp_err_not_done {A} msg vm (x : A) vm' : lisp_err msg vm <> Done x vm'.
Proof.
  unfold lisp_err, throw_error, bind, message, modify, get, assert.
  cbn. destruct (catch vm); discriminate.
Qed.

Lemma lisp_getvar_done gas name vm l v :
  env_chain (heap vm) (Some (env vm)) l -> (length l < gas)%nat ->
  sym_const name = false ->
  lisp_getvar gas name vm = Done v vm -> getvar_result l name = Some v.
Proof.
  intros Hc Hgas Hk. rewrite (lisp_getvar_spec gas name vm l Hc Hgas Hk).
  destruct (getvar_result l name) as [w|].
  - intros [= <-]. reflexivity.
  - intros H. exfalso. eapply lisp_err_not_done. exact H.
Qed.

(** X6.  Scoping.  [lisp_getvar] gives the value of the innermost
    binding of the name along the chain of environments from [vm->env];
    a name that is bound nowhere is its own value when it names a
    primitive, and is the error [Undefined variable] otherwise.  The
    state is left as it was, but for the message and the error pair. *)
Theorem getvar_finds_innermost_binding gas name vm l :
  env_chain (heap vm) (Some (env vm)) l -> (length l < gas)%nat ->
  sym_const name = false -> catch vm = true ->
  match chain_assoc l name with
  | Some (_, b) => lisp_getvar gas name vm = Done (val b) vm
  | None =>
      if sym_primitive name
      then lisp_getvar gas name vm = Done (Symbol name) vm
      else exists vm',
          lisp_getvar gas name vm = Jumped 1 vm' /\
          heap vm' = heap vm /\ env vm' = env vm /\
          stack vm' = Pair plain (Symbol "error") NIL :: stack vm /\
          messages vm' =
            (messages vm ++ ["Undefined variable '" +:+ name +:+ "'"])%list
  end.
Proof.
  intros Hc Hgas Hk Hcatch.
  rewrite (lisp_getvar_spec gas name vm l Hc Hgas Hk).
  unfold getvar_result, chain_value.
  destruct (chain_assoc l name) as [[d b]|]; cbn; [reflexivity|].
  destruct (sym_primitive name); [reflexivity|].
  destruct (@lisp_err_jumps Lisp_Object
              ("Undefined variable '" +:+ name +:+ "'") vm Hcatch)
    as (vm' & E & Hs & Hh & He & Hm).
  exists vm'. auto.
Qed.

(** ** Defining a variable *)

Lemma getvar_result_same l l' n (g : addr * binding -> addr * binding) :
  chain_assoc l' n = g <$> chain_assoc l n ->
  (forall p, val (snd (g p)) = val (snd p)) ->
  getvar_result l' n = getvar_result l n.
Proof.
  unfold getvar_result, chain_value. intros -> Hg.
  destruct (chain_assoc l n) as [p|]; cbn; [|reflexivity].
  rewrite Hg. reflexivity.
Qed.

(** X7.  [lisp_defvar] writes the dictionary of [vm->env] and nothing
    else.  When the name is not bound there by a constant binding the
    call returns, the stack and [vm->env] are as before, [lisp_getvar]
    of the name gives the new value, and every other variable reads as
    it did. *)
Theorem defvar_then_getvar gas name value vm d items rest :
  env_chain (heap vm) (Some (env vm)) ((d, items) :: rest) ->
  (length rest + 1 < gas)%nat ->
  sym_const name = false ->
  (forall b, lisp_dict_assoc items name = Some b -> b_const b = false) ->
  exists vm',
    lisp_defvar name value vm = Done tt vm' /\
    stack vm' = stack vm /\ env vm' = env vm /\
    (forall a, a <> d -> heap vm' !! a = heap vm !! a) /\
    lisp_getvar gas name vm' = Done value vm' /\
    forall other v, other <> name -> sym_const other = false ->
      lisp_getvar gas other vm = Done v vm ->
      lisp_getvar gas other vm' = Done v vm'.
Proof.
  intros Hc Hgas Hk Hnc.
  inversion Hc as [|a nd d0 parent k o items0 rest0 Ha Hd Hrest]; subst.
  set (b1 := {| key := name; val := value; b_const := false; b_method := false |}).
  set (items' := match lisp_dict_assoc items name with
                 | None => (items ++ [b1])%list
                 | Some _ => update_first name (set_cdr value) items
                 end).
  set (vm' := with_heap vm (<[d := Dict k o items']> (heap vm)) (next vm)).
  assert (Hrun : lisp_defvar name value vm = Done tt vm').
  { unfold lisp_defvar, env_bindings, dict_items, lisp_dict_add, update_binding,
      bind, get, deref, store. rewrite Hk. cbn [negb assert ret].
    rewrite Ha. cbn [ret]. rewrite Hd. cbn [ret]. subst vm' items'.
    destruct (lisp_dict_assoc items name) as [t|] eqn:Ht.
    - rewrite (Hnc t eq_refl). rewrite Hd. reflexivity.
    - rewrite Hd. reflexivity. }
  assert (Hc' : env_chain (heap vm') (Some (env vm'))
                  (map (upd d items') ((d, items) :: rest))).
  { apply (env_chain_update _ _ _ d k o items items' Hc Hd). }
  assert (Hlen0 : (length ((d, items) :: rest) < gas)%nat) by (simpl; lia).
  assert (Hlen : (length (map (upd d items') ((d, items) :: rest)) < gas)%nat).
  { rewrite length_map. exact Hlen0. }
  exists vm'. split; [exact Hrun|]. split; [reflexivity|]. split; [reflexivity|].
  split; [intros x Hx; apply lookup_insert_ne; congruence|]. split.
  - rewrite (lisp_getvar_spec gas name vm' _ Hc' Hlen Hk).
    unfold getvar_result, chain_value. cbn [map chain_assoc]. unfold upd at 1.
    cbn [fst]. rewrite decide_True by reflexivity. subst items'.
    destruct (lisp_dict_assoc items name) as [t|] eqn:Ht.
    + rewrite dict_assoc_update by reflexivity.
      rewrite String.eqb_refl, Ht. reflexivity.
    + rewrite dict_assoc_app, Ht. cbn [key b1]. rewrite String.eqb_refl.
      reflexivity.
  - intros other v Hne Hko Hget.
    apply (lisp_getvar_done gas other vm _ v Hc Hlen0 Hko) in Hget.
    rewrite (lisp_getvar_spec gas other vm' _ Hc' Hlen Hko).
    assert (Hg : lisp_dict_assoc items' other = id <$> lisp_dict_assoc items other).
    { subst items'. rewrite option_fmap_id.
      destruct (lisp_dict_assoc items name) as [t|] eqn:Ht.
      - rewrite dict_assoc_update by reflexivity.
        rewrite (proj2 (String.eqb_neq _ _) Hne). reflexivity.
      - rewrite dict_assoc_app.
        destruct (lisp_dict_assoc items other); [reflexivity|].
        cbn [key b1]. rewrite String.eqb_sym, (proj2 (String.eqb_neq _ _) Hne).
        reflexivity. }
    rewrite (getvar_result_same _ _ other _
               (chain_assoc_update _ _ _ d k o items items' id other Hc Hd Hg)).
    + rewrite Hget. reflexivity.
    + intros [d1 bb]. cbn. destruct (decide (d1 = d)); reflexivity.
Qed.

(** ** Assigning a variable *)

(** X8.  [lisp_setvar] assigns the innermost binding of the name,
    wherever along the chain it is, when the dictionary that holds it
    belongs to this machine and the binding is not constant: the call
    returns, only that dictionary is written, [lisp_getvar] of the name
    then gives the new value, and every other variable reads as it
    did. *)
Theorem setvar_then_getvar gas name value vm l d b k items :
  env_chain (heap vm) (Some (env vm)) l -> (length l < gas)%nat ->
  sym_const name = false ->
  chain_assoc l name = Some (d, b) ->
  heap vm !! d = Some (Dict k (self vm) items) ->
  b_const b = false ->
  exists vm',
    lisp_setvar gas name value vm = Done tt vm' /\
    stack vm' = stack vm /\ env vm' = env vm /\
    (forall a, a <> d -> heap vm' !! a = heap vm !! a) /\
    lisp_getvar gas name vm' = Done value vm' /\
    forall other v, other <> name -> sym_const other = false ->
      lisp_getvar gas other vm = Done v vm ->
      lisp_getvar gas other vm' = Done v vm'.
Proof.
  intros Hc Hgas Hk Hfound Hd Hb.
  set (items' := update_first name (set_cdr value) items).
  set (vm' := with_heap vm (<[d := Dict k (self vm) items']> (heap vm)) (next vm)).
  assert (Hrun : lisp_setvar gas name value vm = Done tt vm').
  { unfold lisp_setvar. rewrite Hk. cbn [negb assert].
    unfold bind at 1. cbn [ret]. unfold bind at 1. cbn [get]. unfold bind at 1.
    rewrite (setvar_find_chain _ _ _ name Hc gas vm d b eq_refl Hgas Hfound)
      by eauto.
    rewrite Hb. unfold update_binding, bind, deref, store. rewrite Hd.
    reflexivity. }
  assert (Hc' : env_chain (heap vm') (Some (env vm')) (map (upd d items') l)).
  { apply (env_chain_update _ _ _ d k (self vm) items items' Hc Hd). }
  assert (Hlen : (length (map (upd d items') l) < gas)%nat).
  { rewrite length_map. exact Hgas. }
  assert (Hupd : forall n, lisp_dict_assoc items' n =
            (if String.eqb n name then set_cdr value else id)
              <$> lisp_dict_assoc items n).
  { intros n. subst items'. rewrite dict_assoc_update by reflexivity.
    destruct (String.eqb n name) eqn:E.
    - apply String.eqb_eq in E. subst n. reflexivity.
    - rewrite option_fmap_id. reflexivity. }
  exists vm'. split; [exact Hrun|]. split; [reflexivity|]. split; [reflexivity|].
  split; [intros x Hx; apply lookup_insert_ne; congruence|]. split.
  - rewrite (lisp_getvar_spec gas name vm' _ Hc' Hlen Hk).
    unfold getvar_result, chain_value.
    rewrite (chain_assoc_update _ _ _ d k (self vm) items items' _ name Hc Hd
               (Hupd name)).
    rewrite Hfound. cbn [fmap option_fmap option_map fst snd].
    rewrite decide_True by reflexivity. rewrite String.eqb_refl. reflexivity.
  - intros other v Hne Hko Hget.
    apply (lisp_getvar_done gas other vm _ v Hc Hgas Hko) in Hget.
    rewrite (lisp_getvar_spec gas other vm' _ Hc' Hlen Hko).
    rewrite (getvar_result_same _ _ other _
               (chain_assoc_update _ _ _ d k (self vm) items items' _ other Hc Hd
                  (Hupd other))).
    + rewrite Hget. reflexivity.
    + intros [d1 bb]. cbn [fst snd].
      rewrite (proj2 (String.eqb_neq _ _) Hne).
      destruct (decide (d1 = d)); reflexivity.
Qed.

(** ** Entering and leaving an environment *)

(** X9.  [lisp_begin_env] and [lisp_end_env] are balanced.  The first
    makes [vm->env] a new environment with the given parent and an empty
    dictionary, and keeps the frame mark and the old environment on the
    stack; with a result pushed on top, the second puts [vm->env] back
    and leaves the result alone where the frame was.  No object that was
    there is written. *)
Theorem begin_env_end_env parent r vm no_def d p :
  heap vm !! env vm = Some (Env no_def d p) ->
  (env vm < next vm)%positive ->
  exists vm1 vm2,
    lisp_begin_env parent vm = Done tt vm1 /\
    stack vm1 = Ref (env vm) :: LISP_FRAME_MARK :: stack vm /\
    env vm1 = next vm /\
    heap vm1 !! env vm1 = Some (Env false (Pos.succ (next vm)) parent) /\
    heap vm1 !! Pos.succ (next vm) = Some (Dict false (self vm) []) /\
    (forall a, (a < next vm)%positive -> heap vm1 !! a = heap vm !! a) /\
    (let* _ := lisp_push r in lisp_end_env) vm1 = Done tt vm2 /\
    env vm2 = env vm /\ stack vm2 = r :: stack vm /\ heap vm2 = heap vm1.
Proof.
  intros He Hlt.
  eexists _, _. split; [reflexivity|]. cbn.
  split; [reflexivity|]. split; [reflexivity|].
  assert (Hn : next vm <> Pos.succ (next vm)) by lia.
  split; [rewrite lookup_insert_ne by lia; apply lookup_insert_eq|].
  split; [apply lookup_insert_eq|].
  split; [intros a Ha; rewrite !lookup_insert_ne by lia; reflexivity|].
  unfold bind, lisp_push, lisp_end_env, get, assert, type_of, deref, set_env,
    set_stack, modify. cbn.
  rewrite !lookup_insert_ne by lia. rewrite He. cbn.
  split; [reflexivity|]. auto.
Qed.

(** ** A machine inside a call

    The environment 30 of a call, whose parent is the root environment
    of [example_vm]; it binds [x], and [console-in] once more. *)
Definition inner_items : list binding :=
  [var "console-in" (Number 7); var "x" (Number 1)].

Definition outer_items : list binding :=
  [var "console-in" (Ref 6); var "their-array" (Ref 20);
   var "their-port" (Ref 21)].

Definition nested_vm : Lisp_VM :=
  with_env
    (with_heap example_vm
       (<[30%positive := Env false 31 (Some 1%positive)]>
          (<[31%positive := Dict false 1 inner_items]> example_heap))
       100)
    30.

Lemma nested_chain :
  env_chain (heap nested_vm) (Some (env nested_vm))
    [(31%positive, inner_items); (2%positive, outer_items)].
Proof.
  eapply chain_link; [vm_compute; reflexivity | vm_compute; reflexivity |].
  eapply chain_link; [vm_compute; reflexivity | vm_compute; reflexivity |].
  constructor.
Qed.

Lemma getvar_finds_innermost_binding_witness :
  lisp_getvar 3 "console-in" nested_vm = Done (Number 7) nested_vm.
Proof.
  exact (getvar_finds_innermost_binding 3 "console-in" nested_vm _ nested_chain
           ltac:(simpl; lia) eq_refl eq_refl).
Defined.

Lemma defvar_then_getvar_witness :
  exists vm',
    lisp_defvar "x" (Number 5) nested_vm = Done tt vm' /\
    lisp_getvar 3 "x" vm' = Done (Number 5) vm' /\
    lisp_getvar 3 "their-array" vm' = Done (Ref 20) vm'.
Proof.
  destruct (defvar_then_getvar 3 "x" (Number 5) nested_vm _ _ _ nested_chain
              ltac:(simpl; lia) eq_refl)
    as (vm' & H1 & _ & _ & _ & H2 & H3).
  - intros b Hb. vm_compute in Hb. injection Hb as <-. reflexivity.
  - exists vm'. split; [exact H1|]. split; [exact H2|].
    apply H3; [discriminate | reflexivity | vm_compute; reflexivity].
Defined.

Lemma setvar_then_getvar_witness :
  exists vm',
    lisp_setvar 3 "their-array" (Number 5) nested_vm = Done tt vm' /\
    lisp_getvar 3 "their-array" vm' = Done (Number 5) vm' /\
    lisp_getvar 3 "x" vm' = Done (Number 1) vm'.
Proof.
  destruct (setvar_then_getvar 3 "their-array" (Number 5) nested_vm _
              2%positive (var "their-array" (Ref 20)) false outer_items
              nested_chain ltac:(simpl; lia) eq_refl eq_refl
              ltac:(vm_compute; reflexivity) eq_refl)
    as (vm' & H1 & _ & _ & _ & H2 & H3).
  exists vm'. split; [exact H1|]. split; [exact H2|].
  apply H3; [discriminate | reflexivity | vm_compute; reflexivity].
Defined.

Lemma begin_env_end_env_witness :
  exists vm1 vm2,
    lisp_begin_env (Some 1%positive) example_vm = Done tt vm1 /\
    env vm1 = 100%positive /\
    (let* _ := lisp_push (Number 3) in lisp_end_env) vm1 = Done tt vm2 /\
    env vm2 = 1%positive /\ stack vm2 = [Number 3].
Proof.
  destruct (begin_env_end_env (Some 1%positive) (Number 3) example_vm false
              2%positive None ltac:(vm_compute; reflexivity)
              ltac:(vm_compute; reflexivity))
    as (vm1 & vm2 & H1 & _ & H2 & _ & _ & _ & H3 & H4 & H5 & _).
  exists vm1, vm2. auto.
Defined.
End Environments.

(** * Arrays

    The cases [S_ARRAY_GET], [S_ARRAY_SET], [S_ARRAY_PUSH] and
    [S_ARRAY_POP] of [apply_primitive]. *)

Module Arrays.

Import Evaluator.
Local Open Scope string_scope.

(** [lisp_array_push] on an array of the heap; the slots beyond [count]
    are not part of [items], so that [cap] is not kept. *)
Definition array_push (args : Lisp_Object) : M unit :=
  let* o := CAR args in
  let* a := array_parts o in
  let '(x, k, owner, items) := a in
  let* _ := vm_check owner in
  let* v := CADR args in
  let* _ := store x (Array k owner (items ++ [v])) in
  lisp_push LISP_UNDEF.

(** [lisp_array_pop (a, 1)], with its [assert]. *)
Definition array_pop (args : Lisp_Object) : M unit :=
  let* o := CAR args in
  let* a := array_parts o in
  let '(x, k, owner, items) := a in
  let* _ := vm_check owner in
  let* _ := assert (1 <=? length items)%nat in
  match last items with
  | Some v =>
      let* _ := store x (Array k owner (removelast items)) in
      lisp_push v
  | None => abort
  end.

(** [safe_int] of a number does not look at the machine. *)
Lemma lisp_safe_int_number d i vm vm' :
  lisp_safe_int (Number d) vm = Done i vm' ->
  vm' = vm /\ forall vm2, lisp_safe_int (Number d) vm2 = Done i vm2.
Proof.
  unfold lisp_safe_int. cbn [type_of]. unfold bind at 1. cbn [ret].
  destruct (is_integer d).
  - destruct (PrimFloat.ltb INT_MAX d || PrimFloat.ltb d INT_MIN).
    + intros H. exfalso. eapply Environments.lisp_err_not_done. exact H.
    + intros [= <- <-]. split; [reflexivity|]. intros vm2. unfold bind. reflexivity.
  - intros H. exfalso. eapply Environments.lisp_err_not_done. exact H.
Qed.

Definition in_range (i : Z) (items : list Lisp_Object) : bool :=
  negb ((i <? 0)%Z || (Z.of_nat (length items) <=? i)%Z).

Lemma in_range_lookup i items :
  in_range i items = true -> is_Some (items !! Z.to_nat i).
Proof.
  unfold in_range. intros H. apply negb_true_iff, orb_false_iff in H as [H1 H2].
  apply Z.ltb_ge in H1. apply Z.leb_gt in H2.
  apply lookup_lt_is_Some. lia.
Qed.

Lemma array_get_run b0 b1 rest x k owner items d i vm :
  heap vm !! x = Some (Array k owner items) ->
  lisp_safe_int (Number d) vm = Done i vm ->
  array_get (Pair b0 (Ref x) (Pair b1 (Number d) rest)) vm =
  if in_range i items
  then match items !! Z.to_nat i with
       | Some v => lisp_push v vm
       | None => Aborted
       end
  else lisp_err "array-get: out of bound" vm.
Proof.
  intros Hx Hi. unfold array_get. cbn [CAR CADR CDR].
  rewrite (bind_step _ _ vm (Ref x) vm eq_refl).
  rewrite (bind_step _ _ _ _ _ (array_parts_of _ _ _ _ _ Hx)).
  unfold CADR, CDR, CAR.
  rewrite (bind_step _ _ vm (Number d) vm eq_refl).
  rewrite (bind_step _ _ _ _ _ Hi).
  unfold in_range. destruct (_ || _); cbn [negb]; [reflexivity|].
  destruct (items !! Z.to_nat i); reflexivity.
Qed.

Lemma array_set_run b0 b1 b2 rest x k items d i v vm :
  heap vm !! x = Some (Array k (self vm) items) ->
  lisp_safe_int (Number d) vm = Done i vm ->
  array_set (Pair b0 (Ref x) (Pair b1 (Number d) (Pair b2 v rest))) vm =
  if in_range i items
  then (let* _ := store x (Array k (self vm) (<[Z.to_nat i := v]> items)) in
        lisp_push LISP_UNDEF) vm
  else lisp_err "array-set: out of bound" vm.
Proof.
  intros Hx Hi. unfold array_set. cbn [CAR].
  rewrite (bind_step _ _ vm (Ref x) vm eq_refl).
  rewrite (bind_step _ _ _ _ _ (array_parts_of _ _ _ _ _ Hx)).
  rewrite (bind_step _ _ _ _ _ (vm_check_own vm)).
  unfold CADR, CDDR, CDR, CAR.
  rewrite (bind_step _ _ vm (Number d) vm eq_refl).
  rewrite (bind_step _ _ _ _ _ Hi).
  unfold in_range. destruct (_ || _); reflexivity.
Qed.

(** X10.  [array-set!] and then [array-get].  On an array of this
    machine and with an index inside [0, count), [array-set!] returns
    [undefined] and writes that one slot: the count is as before,
    [array-get] at the index then gives the object that was stored, and
    at every other index inside the array what it gave before. *)
Theorem array_set_then_get b0 b1 b2 rest x k items d i v vm :
  heap vm !! x = Some (Array k (self vm) items) ->
  lisp_safe_int (Number d) vm = Done i vm ->
  (0 <= i < Z.of_nat (length items))%Z ->
  exists vm' items',
    array_set (Pair b0 (Ref x) (Pair b1 (Number d) (Pair b2 v rest))) vm
    = Done tt vm' /\
    stack vm' = LISP_UNDEF :: stack vm /\ messages vm' = messages vm /\
    heap vm' = <[x := Array k (self vm) items']> (heap vm) /\
    length items' = length items /\
    (forall b3 b4 rest', exists vm2,
       array_get (Pair b3 (Ref x) (Pair b4 (Number d) rest')) vm' = Done tt vm2 /\
       stack vm2 = v :: stack vm' /\ heap vm2 = heap vm') /\
    (forall b3 b4 rest' e j old,
       lisp_safe_int (Number e) vm = Done j vm -> j <> i ->
       items !! Z.to_nat j = Some old -> (0 <= j)%Z ->
       exists vm2,
         array_get (Pair b3 (Ref x) (Pair b4 (Number e) rest')) vm' = Done tt vm2 /\
         stack vm2 = old :: stack vm' /\ heap vm2 = heap vm').
Proof.
  intros Hx Hi Hr.
  assert (Hin : in_range i items = true).
  { unfold in_range. apply negb_true_iff, orb_false_iff.
    split; [apply Z.ltb_ge | apply Z.leb_gt]; lia. }
  rewrite (array_set_run b0 b1 b2 rest x k items d i v vm Hx Hi), Hin.
  set (vm1 := with_heap vm (<[x := Array k (self vm) (<[Z.to_nat i := v]> items)]>
                              (heap vm)) (next vm)).
  set (vm' := with_stack vm1
                (if Nat.eqb (length (stack vm1)) (stack_cap vm1)
                 then (2 * stack_cap vm1)%nat else stack_cap vm1)
                (LISP_UNDEF :: stack vm1)).
  exists vm', (<[Z.to_nat i := v]> items). split; [reflexivity|].
  split; [reflexivity|]. split; [reflexivity|]. split; [reflexivity|].
  split; [apply length_insert|].
  assert (Hx' : heap vm' !! x
                = Some (Array k (self vm) (<[Z.to_nat i := v]> items)))
    by apply lookup_insert_eq.
  split.
  - intros b3 b4 rest'.
    pose proof (proj2 (lisp_safe_int_number d i vm vm Hi) vm') as Hi'.
    rewrite (array_get_run b3 b4 rest' x k (self vm) _ d i vm' Hx' Hi').
    unfold in_range in *. rewrite length_insert, Hin.
    rewrite list_lookup_insert_eq by lia.
    eexists. split; [reflexivity|]. split; reflexivity.
  - intros b3 b4 rest' e j old Hj Hne Hold H0.
    pose proof (proj2 (lisp_safe_int_number e j vm vm Hj) vm') as Hj'.
    rewrite (array_get_run b3 b4 rest' x k (self vm) _ e j vm' Hx' Hj').
    assert (Hjr : in_range j (<[Z.to_nat i := v]> items) = true).
    { unfold in_range. rewrite length_insert.
      apply lookup_lt_Some in Hold.
      apply negb_true_iff, orb_false_iff.
      split; [apply Z.ltb_ge | apply Z.leb_gt]; lia. }
    rewrite Hjr. rewrite list_lookup_insert_ne by lia. rewrite Hold.
    eexists. split; [reflexivity|]. split; reflexivity.
Qed.

(** X11.  An index outside [0, count) is an error for [array-get] and
    for [array-set!]: the message is printed, control goes to the
    innermost [catch] with the error pair on the stack, and no object is
    written. *)
Theorem array_index_out_of_bound b0 b1 rest x k items d i vm :
  heap vm !! x = Some (Array k (self vm) items) ->
  lisp_safe_int (Number d) vm = Done i vm ->
  (i < 0 \/ Z.of_nat (length items) <= i)%Z ->
  catch vm = true ->
  (exists vm',
     array_get (Pair b0 (Ref x) (Pair b1 (Number d) rest)) vm = Jumped 1 vm' /\
     heap vm' = heap vm /\
     stack vm' = Pair plain (Symbol "error") NIL :: stack vm /\
     messages vm' = (messages vm ++ ["array-get: out of bound"])%list) /\
  (forall b2 v rest', exists vm',
     array_set (Pair b0 (Ref x) (Pair b1 (Number d) (Pair b2 v rest'))) vm
     = Jumped 1 vm' /\
     heap vm' = heap vm /\
     stack vm' = Pair plain (Symbol "error") NIL :: stack vm /\
     messages vm' = (messages vm ++ ["array-set: out of bound"])%list).
Proof.
  intros Hx Hi Hr Hc.
  assert (Hout : in_range i items = false).
  { unfold in_range. apply negb_false_iff, orb_true_iff.
    destruct Hr; [left; apply Z.ltb_lt | right; apply Z.leb_le]; lia. }
  split.
  - rewrite (array_get_run b0 b1 rest x k (self vm) items d i vm Hx Hi), Hout.
    destruct (@lisp_err_jumps unit "array-get: out of bound" vm Hc)
      as (vm' & E & Hs & Hh & _ & Hm).
    exists vm'. auto.
  - intros b2 v rest'.
    rewrite (array_set_run b0 b1 b2 rest' x k items d i v vm Hx Hi), Hout.
    destruct (@lisp_err_jumps unit "array-set: out of bound" vm Hc)
      as (vm' & E & Hs & Hh & _ & Hm).
    exists vm'. auto.
Qed.

(** X12.  [array-push!] and then [array-pop!].  On an array of this
    machine the first appends its argument and returns [undefined]; the
    second then gives that object back and leaves the items that were
    there before.  On an array with no items [array-pop!] stops at
    [assert(a->count >= n && a->count > 0)] of [lisp_array_pop]: this
    is no error that [catch] sees. *)
Theorem array_push_then_pop b0 b1 rest x k items v vm :
  heap vm !! x = Some (Array k (self vm) items) ->
  (exists vm1,
     array_push (Pair b0 (Ref x) (Pair b1 v rest)) vm = Done tt vm1 /\
     heap vm1 = <[x := Array k (self vm) (items ++ [v])]> (heap vm) /\
     stack vm1 = LISP_UNDEF :: stack vm /\
     forall b2 rest2, exists vm2,
       array_pop (Pair b2 (Ref x) rest2) vm1 = Done tt vm2 /\
       stack vm2 = v :: stack vm1 /\
       heap vm2 = <[x := Array k (self vm) items]> (heap vm)) /\
  (items = [] -> forall b2 rest2, array_pop (Pair b2 (Ref x) rest2) vm = Aborted).
Proof.
  intros Hx. split.
  - set (vm0 := with_heap vm (<[x := Array k (self vm) (items ++ [v])]> (heap vm))
                  (next vm)).
    set (vm1 := with_stack vm0
                  (if Nat.eqb (length (stack vm0)) (stack_cap vm0)
                   then (2 * stack_cap vm0)%nat else stack_cap vm0)
                  (LISP_UNDEF :: stack vm0)).
    exists vm1. split.
    { unfold array_push. cbn [CAR].
      rewrite (bind_step _ _ vm (Ref x) vm eq_refl).
      rewrite (bind_step _ _ _ _ _ (array_parts_of _ _ _ _ _ Hx)).
      rewrite (bind_step _ _ _ _ _ (vm_check_own vm)).
      reflexivity. }
    split; [reflexivity|]. split; [reflexivity|].
    intros b2 rest2.
    assert (Hx1 : heap vm1 !! x = Some (Array k (self vm1) (items ++ [v])))
      by apply lookup_insert_eq.
    unfold array_pop. cbn [CAR].
    rewrite (bind_step _ _ vm1 (Ref x) vm1 eq_refl).
    rewrite (bind_step _ _ _ _ _ (array_parts_of _ _ _ _ _ Hx1)).
    rewrite (bind_step _ _ _ _ _ (vm_check_own vm1)).
    rewrite length_app. cbn [length].
    replace (1 <=? length items + 1)%nat with true
      by (symmetry; apply Nat.leb_le; lia).
    cbn [assert]. rewrite (bind_step _ _ vm1 tt vm1 eq_refl).
    rewrite last_snoc, removelast_last.
    eexists. split; [reflexivity|]. split; [reflexivity|].
    cbn. apply insert_insert_eq.
  - intros -> b2 rest2. unfold array_pop. cbn [CAR].
    rewrite (bind_step _ _ vm (Ref x) vm eq_refl).
    rewrite (bind_step _ _ _ _ _ (array_parts_of _ _ _ _ _ Hx)).
    rewrite (bind_step _ _ _ _ _ (vm_check_own vm)).
    reflexivity.
Qed.

(** The literal [#(1 2 3)] of [example_vm], object 8. *)
Lemma literal_array :
  heap example_vm !! 8%positive
  = Some (Array true (self example_vm) [Number 1; Number 2; Number 3]).
Proof. vm_compute. reflexivity. Qed.

Lemma array_set_then_get_witness :
  exists vm' vm2,
    array_set (mklist [Ref 8; Number 1; String "b"]) example_vm = Done tt vm' /\
    array_get (mklist [Ref 8; Number 1]) vm' = Done tt vm2 /\
    stack vm2 = [String "b"; LISP_UNDEF].
Proof.
  destruct (array_set_then_get
              {| is_list := true; tail_call := false; is_return := false |}
              {| is_list := true; tail_call := false; is_return := false |}
              plain NIL 8%positive true _ 1%float 1%Z (String "b") example_vm
              literal_array eq_refl ltac:(simpl; lia))
    as (vm' & items' & H1 & Hs & _ & _ & _ & Hget & _).
  destruct (Hget {| is_list := true; tail_call := false; is_return := false |}
              plain NIL) as (vm2 & H2 & Hs2 & _).
  exists vm', vm2. split; [exact H1|]. split; [exact H2|].
  rewrite Hs2, Hs. reflexivity.
Defined.

Lemma array_index_out_of_bound_witness :
  exists vm',
    array_get (mklist [Ref 8; Number 3]) example_vm = Jumped 1 vm' /\
    messages vm' = ["array-get: out of bound"].
Proof.
  destruct (array_index_out_of_bound
              {| is_list := true; tail_call := false; is_return := false |}
              plain NIL 8%positive true _ 3%float 3%Z example_vm
              literal_array eq_refl ltac:(simpl; lia) eq_refl)
    as ((vm' & H1 & _ & _ & Hm) & _).
  exists vm'. split; [exact H1 | exact Hm].
Defined.

Lemma array_push_then_pop_witness :
  exists vm1 vm2,
    array_push (mklist [Ref 8; String "b"]) example_vm = Done tt vm1 /\
    array_pop (mklist [Ref 8]) vm1 = Done tt vm2 /\
    stack vm2 = [String "b"; LISP_UNDEF] /\
    heap vm2 !! 8%positive = heap example_vm !! 8%positive.
Proof.
  destruct (array_push_then_pop
              {| is_list := true; tail_call := false; is_return := false |}
              plain NIL 8%positive true _ (String "b") example_vm literal_array)
    as ((vm1 & H1 & _ & Hs1 & Hpop) & _).
  destruct (Hpop plain NIL) as (vm2 & H2 & Hs2 & Hh2).
  exists vm1, vm2. split; [exact H1|]. split; [exact H2|].
  split; [rewrite Hs2, Hs1; reflexivity|].
  rewrite Hh2, lookup_insert_eq. symmetry. exact literal_array.
Defined.
End Arrays.

(** * Output ports

    [lisp_port_putc], [lisp_port_puts] and [lisp_port_flush] on an
    output port that has a stream: what has been written to the port is
    what the stream has received followed by what waits in the buffer. *)

Module Ports.

Import Evaluator.

(** An output port with a stream: the addresses of the port, of its
    buffer and of its stream, and the fields that writing leaves alone. *)
Record port_ids := {
  port : addr; iobuf : addr; stream : addr;
  owner : positive; buf_owner : positive; stream_owner : positive;
  closed : bool; no_buf : bool
}.

(** The port in the heap, with the capacity of its buffer, the bytes
    that wait in it and the bytes that its stream has received. *)
Definition out_port (vm : Lisp_VM) (ids : port_ids) (cap : nat)
    (bytes written : list Z) : Prop :=
  heap vm !! port ids
  = Some (Port (owner ids) true (closed ids) (no_buf ids) (iobuf ids)
               (Some (stream ids))) /\
  heap vm !! iobuf ids = Some (Buffer false (buf_owner ids) cap bytes) /\
  heap vm !! stream ids = Some (Stream (stream_owner ids) written).

(** Nothing but the buffer and the stream is written. *)
Definition only_io (ids : port_ids) (vm vm' : Lisp_VM) : Prop :=
  (self vm' = self vm /\ eval_level vm' = eval_level vm /\ env vm' = env vm /\
   stack_cap vm' = stack_cap vm /\ stack vm' = stack vm /\
   catch vm' = catch vm /\ output vm' = output vm /\ next vm' = next vm /\
   messages vm' = messages vm) /\
  forall a, a <> iobuf ids -> a <> stream ids -> heap vm' !! a = heap vm !! a.

Lemma only_io_refl ids vm : only_io ids vm vm.
Proof. split; [repeat split | reflexivity]. Qed.

Lemma only_io_trans ids vm1 vm2 vm3 :
  only_io ids vm1 vm2 -> only_io ids vm2 vm3 -> only_io ids vm1 vm3.
Proof.
  intros [E1 H1] [E2 H2]. split.
  - destruct E1 as (?&?&?&?&?&?&?&?&?), E2 as (?&?&?&?&?&?&?&?&?).
    repeat split; congruence.
  - intros a Ha Hb. rewrite H2, H1 by assumption. reflexivity.
Qed.

Lemma out_port_distinct vm ids cap bytes written :
  out_port vm ids cap bytes written ->
  port ids <> iobuf ids /\ port ids <> stream ids /\ iobuf ids <> stream ids.
Proof.
  intros (Hp & Hb & Hs). repeat split; intros E; rewrite E in *; congruence.
Qed.

Lemma port_parts_run vm ids cap bytes written :
  out_port vm ids cap bytes written ->
  port_parts (port ids) vm
  = Done (owner ids, true, closed ids, no_buf ids, iobuf ids, Some (stream ids)) vm.
Proof. intros (Hp & _). unfold port_parts, bind, deref. rewrite Hp. reflexivity. Qed.

Lemma buffer_parts_run vm ids cap bytes written :
  out_port vm ids cap bytes written ->
  buffer_parts (iobuf ids) vm = Done (false, buf_owner ids, cap, bytes) vm.
Proof.
  intros (_ & Hb & _). unfold buffer_parts, bind, deref. rewrite Hb. reflexivity.
Qed.

(** [lisp_port_flush]: the stream receives the bytes that wait, in their
    order, and the buffer is empty. *)
Lemma lisp_port_flush_run vm ids cap bytes written :
  out_port vm ids cap bytes written ->
  exists vm',
    lisp_port_flush (port ids) vm = Done tt vm' /\
    out_port vm' ids cap [] (written ++ bytes) /\ only_io ids vm vm'.
Proof.
  intros Hop. pose proof (out_port_distinct _ _ _ _ _ Hop) as (D1 & D2 & D3).
  unfold lisp_port_flush.
  rewrite (bind_step _ _ _ _ _ (port_parts_run _ _ _ _ _ Hop)).
  cbn [assert]. rewrite (bind_step _ _ vm tt vm eq_refl).
  rewrite (bind_step _ _ _ _ _ (buffer_parts_run _ _ _ _ _ Hop)).
  destruct Hop as (Hp & Hb & Hs).
  destruct bytes as [|c bytes].
  - exists vm. split; [reflexivity|]. rewrite app_nil_r.
    split; [repeat split; assumption | apply only_io_refl].
  - unfold bind, deref, store. rewrite Hs.
    eexists. split; [reflexivity|]. split; [|split].
    + unfold out_port. cbn [heap with_heap]. repeat split.
      * rewrite !lookup_insert_ne by congruence. exact Hp.
      * apply lookup_insert_eq.
      * rewrite lookup_insert_ne by congruence. apply lookup_insert_eq.
    + repeat split.
    + intros a Ha Hb'. cbn [heap with_heap]. rewrite !lookup_insert_ne by congruence. reflexivity.
Qed.

(** [lisp_buffer_add] on the buffer of the port: the capacity doubles
    when one more byte reaches it. *)
Lemma lisp_buffer_add_run vm ids cap bytes written c :
  out_port vm ids cap bytes written -> (length bytes < cap)%nat ->
  exists vm' cap',
    lisp_buffer_add (iobuf ids) c vm = Done tt vm' /\
    out_port vm' ids cap' (bytes ++ [c]) written /\
    (length (bytes ++ [c]) < cap')%nat /\ (cap <= cap')%nat /\
    only_io ids vm vm'.
Proof.
  intros Hop Hlen. pose proof (out_port_distinct _ _ _ _ _ Hop) as (D1 & D2 & D3).
  unfold lisp_buffer_add.
  rewrite (bind_step _ _ _ _ _ (buffer_parts_run _ _ _ _ _ Hop)).
  cbn [negb assert]. rewrite (bind_step _ _ vm tt vm eq_refl).
  destruct Hop as (Hp & Hb & Hs).
  set (cap' := if (cap <=? length bytes + 1)%nat then (2 * cap)%nat else cap).
  assert (Hc : (length bytes + 1 < cap')%nat /\ (cap <= cap')%nat).
  { subst cap'. destruct (cap <=? length bytes + 1)%nat eqn:E.
    - apply Nat.leb_le in E. lia.
    - apply Nat.leb_gt in E. lia. }
  replace (length bytes <? cap')%nat with true
    by (symmetry; apply Nat.ltb_lt; lia).
  cbn [assert]. rewrite (bind_step _ _ vm tt vm eq_refl).
  eexists _, cap'. split; [reflexivity|]. split; [|split; [|split; [|split]]].
  - unfold out_port. cbn [heap with_heap]. repeat split.
    + rewrite lookup_insert_ne by congruence. exact Hp.
    + apply lookup_insert_eq.
    + rewrite lookup_insert_ne by congruence. exact Hs.
  - rewrite length_app. simpl. lia.
  - lia.
  - repeat split.
  - intros a Ha Hb'. cbn [heap with_heap]. rewrite lookup_insert_ne by congruence. reflexivity.
Qed.

Lemma buffer_full_run vm ids cap bytes written :
  out_port vm ids cap bytes written ->
  buffer_full (iobuf ids) vm = Done (Nat.eqb cap (length bytes)) vm.
Proof.
  intros Hop. unfold buffer_full.
  rewrite (bind_step _ _ _ _ _ (buffer_parts_run _ _ _ _ _ Hop)). reflexivity.
Qed.

(** The loop of [lisp_port_puts] on a buffer that is not full: no byte
    goes to the stream, since [lisp_buffer_add] doubles the capacity
    before the buffer fills. *)
Lemma puts_loop_run ids s : forall vm cap bytes written flag,
  out_port vm ids cap bytes written -> (length bytes < cap)%nat ->
  exists vm' cap',
    puts_loop (port ids) (iobuf ids) s flag vm
    = Done (flag || bool_decide (10 ∈ s)) vm' /\
    out_port vm' ids cap' (bytes ++ s) written /\
    (length (bytes ++ s) < cap')%nat /\ (cap <= cap')%nat /\
    only_io ids vm vm'.
Proof.
  induction s as [|c s IH]; intros vm cap bytes written flag Hop Hlen.
  - exists vm, cap. cbn [puts_loop]. rewrite app_nil_r.
    rewrite bool_decide_eq_false_2 by (intros H; inversion H).
    rewrite orb_false_r.
    split; [reflexivity|]. split; [exact Hop|]. split; [exact Hlen|].
    split; [lia | apply only_io_refl].
  - cbn [puts_loop].
    rewrite (bind_step _ _ _ _ _ (buffer_full_run _ _ _ _ _ Hop)).
    replace (Nat.eqb cap (length bytes)) with false
      by (symmetry; apply Nat.eqb_neq; lia).
    rewrite (bind_step _ _ vm flag vm eq_refl).
    destruct (lisp_buffer_add_run vm ids cap bytes written c Hop Hlen)
      as (vm1 & cap1 & Hadd & Hop1 & Hlen1 & Hcap1 & Hio1).
    rewrite (bind_step _ _ _ _ _ Hadd).
    destruct (IH vm1 cap1 (bytes ++ [c]) written
                (if (c =? 10)%Z then true else flag) Hop1 Hlen1)
      as (vm2 & cap2 & Hloop & Hop2 & Hlen2 & Hcap2 & Hio2).
    exists vm2, cap2. rewrite <- app_assoc in Hop2, Hlen2. cbn [app] in Hop2, Hlen2.
    split; [|split; [exact Hop2|split; [exact Hlen2|split;
              [lia | eapply only_io_trans; eauto]]]].
    rewrite Hloop. f_equal.
    destruct (Z.eqb_spec c 10) as [->|Hne].
    + rewrite (bool_decide_eq_true_2 (10 ∈ 10 :: s)) by left.
      rewrite orb_true_r. reflexivity.
    + destruct (bool_decide (10 ∈ s)) eqn:E.
      * apply bool_decide_eq_true in E.
        rewrite (bool_decide_eq_true_2 (10 ∈ c :: s)) by (right; exact E).
        reflexivity.
      * apply bool_decide_eq_false in E.
        rewrite (bool_decide_eq_false_2 (10 ∈ c :: s)); [reflexivity|].
        intros H. apply elem_of_cons in H as [H|H]; [congruence | contradiction].
Qed.



(** The console of [example_vm]: port 3, buffer 4, stream 5. *)
Definition console : port_ids :=
  {| port := 3; iobuf := 4; stream := 5; owner := 1; buf_owner := 1;
     stream_owner := 1; closed := false; no_buf := false |}.

Lemma console_port : out_port example_vm console 256 [] [].
Proof. repeat split; vm_compute; reflexivity. Qed.


End Ports.

(** * What a call of the evaluator leaves behind *)

Module Evaluation.

Import Evaluator.
Local Open Scope string_scope.

Lemma eval_expr_top gas rec p at_tail vm r vm' :
  eval_expr gas rec p at_tail vm = Done r vm' -> hd_error (stack vm') = Some r.
Proof.
  unfold eval_expr. intros H.
  do 11 (apply bind_done in H as (? & ? & _ & H)).
  apply bind_done in H as (r0 & vm1 & _ & H).
  apply bind_done in H as ([] & vm2 & H2 & H).
  apply lisp_push_done in H2 as (Hs & _).
  apply bind_done in H as (vm3 & vm4 & H3 & H).
  injection H3 as E3 E4. subst vm3 vm4.
  apply bind_done in H as ([] & vm5 & H5 & H).
  injection H5 as <-. injection H as <- <-.
  cbn [stack with_eval_level]. rewrite Hs. reflexivity.
Qed.

Lemma lisp_eval_core_top gas depth at_tail vm r vm' :
  lisp_eval_core gas depth at_tail vm = Done r vm' ->
  hd_error (stack vm') = Some r.
Proof.
  destruct depth as [|d]; [discriminate|]. cbn [lisp_eval_core].
  unfold lisp_eval_core_step. intros H.
  apply bind_done in H as (vm0 & vm1 & H0 & H).
  injection H0 as E0 E1. subst vm0 vm1.
  apply bind_done in H as (obj & vm1 & H1 & H).
  pose proof H1 as Htop. apply pure_lisp_top in H1 as ->.
  apply bind_done in H as (k & vm1 & H1 & H).
  apply pure_obj_is_const in H1 as ->.
  destruct k.
  - injection H as <- <-. unfold lisp_top in Htop.
    destruct (stack vm) as [|o s]; [discriminate|]. cbn in Htop |- *.
    injection Htop as ->. reflexivity.
  - apply bind_done in H as (t & vm1 & H1 & H).
    apply pure_type_of in H1 as ->.
    apply bind_done in H as (r0 & vm2 & Hr & H).
    apply bind_done in H as (vm3 & vm4 & H3 & H).
    injection H3 as E3 E4. subst vm3 vm4.
    apply bind_done in H as ([] & vm4 & H4 & H).
    unfold assert in H4. destruct (Nat.eqb _ _); [|discriminate H4].
    injection H4 as <-. injection H as <- <-.
    destruct obj as [x|x|x| |b a dd|a].
    + exfalso. eapply Environments.lisp_err_not_done. exact Hr.
    + exfalso. eapply Environments.lisp_err_not_done. exact Hr.
    + apply bind_done in Hr as (v & vm5 & _ & Hr).
      apply bind_done in Hr as (? & vm6 & _ & Hr).
      apply bind_done in Hr as ([] & vm7 & H7 & Hr).
      apply lisp_push_done in H7 as (Hs & _).
      injection Hr as <- <-. rewrite Hs. reflexivity.
    + exfalso. eapply Environments.lisp_err_not_done. exact Hr.
    + eapply eval_expr_top. exact Hr.
    + exfalso. eapply Environments.lisp_err_not_done. exact Hr.
Qed.


Lemma lisp_err_level {A} msg vm v vm' :
  @lisp_err A msg vm = Jumped v vm' -> eval_level vm' = eval_level vm.
Proof.
  unfold lisp_err, throw_error, bind, message, modify, get, assert, lisp_push,
    lisp_cons, longjmp. cbn.
  destruct (catch vm); cbn; [|discriminate].
  intros [= _ <-]. reflexivity.
Qed.

(** X16.  The limit on the depth of evaluation.  With [eval_level] at
    [MAX_DEPTH] or above, the evaluation of any application ends in the
    error [exceeding max depth] before its operator is looked at: no
    object is written, and [eval_level] has been counted up once. *)
Theorem eval_beyond_max_depth gas depth at_tail b a d rest vm :
  stack vm = Pair b a d :: rest ->
  (MAX_DEPTH <= eval_level vm)%nat -> catch vm = true ->
  exists vm',
    lisp_eval_core gas (S depth) at_tail vm = Jumped 1 vm' /\
    heap vm' = heap vm /\ env vm' = env vm /\
    eval_level vm' = S (eval_level vm) /\
    stack vm' = Pair plain (Symbol "error") NIL :: stack vm /\
    messages vm' = (messages vm ++ ["exceeding max depth: 1000"])%list.
Proof.
  intros Hs Hd Hc. cbn [lisp_eval_core]. unfold lisp_eval_core_step.
  rewrite (bind_step get _ vm vm vm eq_refl).
  assert (Htop : lisp_top 0 vm = Done (Pair b a d) vm)
    by (unfold lisp_top; rewrite Hs; reflexivity).
  rewrite (bind_step _ _ _ _ _ Htop).
  cbn [obj_is_const]. rewrite (bind_step _ _ vm false vm eq_refl).
  cbn [type_of]. rewrite (bind_step _ _ vm O_PAIR vm eq_refl).
  unfold eval_expr.
  set (vm1 := with_eval_level vm (S (eval_level vm))).
  destruct (@lisp_err_jumps unit "exceeding max depth: 1000" vm1 Hc)
    as (vm' & E & Hst & Hh & He & Hm).
  exists vm'. split.
  - unfold bind at 1. rewrite (bind_step get _ vm vm vm eq_refl).
    rewrite (bind_step (set_eval_level _) _ vm tt vm1 eq_refl).
    replace (MAX_DEPTH <? S (eval_level vm))%nat with true
      by (symmetry; apply Nat.ltb_lt; lia).
    unfold bind at 1. rewrite E. reflexivity.
  - split; [exact Hh|]. split; [exact He|].
    split; [|split; [exact Hst | exact Hm]].
    apply lisp_err_level in E. exact E.
Qed.

(** An application to evaluate at level 1000. *)
Definition deep_vm : Lisp_VM :=
  with_stack (with_eval_level example_vm 1000) 512
    [mklist [Symbol "+"; Number 1; Number 2]].

Lemma eval_beyond_max_depth_witness :
  exists vm',
    lisp_eval_core 10 10 false deep_vm = Jumped 1 vm' /\
    messages vm' = ["exceeding max depth: 1000"].
Proof.
  destruct (eval_beyond_max_depth 10 9 false _ _ _ _ deep_vm eq_refl
              ltac:(vm_compute; lia) eq_refl)
    as (vm' & H1 & _ & _ & _ & _ & H2).
  exists vm'. split; [exact H1 | exact H2].
Defined.
End Evaluation.

(** * Binding the arguments of a call *)

Module Procedures.

Import Evaluator.
Local Open Scope string_scope.

(** A list of the heap of values, whatever the bits of its pairs. *)
Inductive list_of : Lisp_Object -> list Lisp_Object -> Prop :=
| list_of_nil : list_of NIL []
| list_of_cons b a d l : list_of d l -> list_of (Pair b a d) (a :: l).

Definition bindings (names : list string) (vs : list Lisp_Object)
  : list binding :=
  zip_with var names vs.

Lemma bind_name_run name v vm no_def d parent k o items :
  heap vm !! env vm = Some (Env no_def d parent) ->
  heap vm !! d = Some (Dict k o items) ->
  bind_name name v vm
  = Done tt (with_heap vm (<[d := Dict k o (items ++ [var name v])]> (heap vm))
               (next vm)).
Proof.
  intros He Hd.
  unfold bind_name, env_bindings, lisp_dict_add, bind, get, deref, store.
  rewrite He. cbn [ret]. rewrite Hd. reflexivity.
Qed.

(** The loop of [bind_args] over formal arguments that carry no
    modifier: a value is bound to every name while there are values. *)
Lemma bind_loop_plain c pn no_def d parent k o names :
  forall formals values vs vm items,
  list_of formals (Symbol <$> names) ->
  Forall (fun n => is_modifier n = false) names ->
  list_of values vs ->
  heap vm !! env vm = Some (Env no_def d parent) ->
  heap vm !! d = Some (Dict k o items) ->
  let vm1 :=
    with_heap vm
      (<[d := Dict k o (items ++ bindings names vs)]> (heap vm)) (next vm) in
  if (length names <=? length vs)%nat then
    exists rest,
      bind_loop c formals None values pn vm = Done (None, rest, pn) vm1 /\
      list_of rest (drop (length names) vs)
  else
    bind_loop c formals None values pn vm
    = lisp_err (pn +:+ ": missing arguments") vm1.
Proof.
  induction names as [|n names IH];
    intros formals values vs vm items Hf Hm Hv He Hd vm1.
  - inversion Hf; subst. cbn [length Nat.leb bind_loop].
    exists values. split; [|rewrite drop_0; exact Hv].
    unfold ret. f_equal. subst vm1. unfold bindings. cbn [zip_with].
    rewrite app_nil_r. rewrite insert_id by exact Hd. destruct vm; reflexivity.
  - inversion Hf as [|b a f' l' Hf']; subst.
    inversion Hm as [|? ? Hn Hm']; subst.
    cbn [bind_loop]. rewrite Hn.
    inversion Hv as [|bv v values' vs' Hv']; subst.
    + cbn [is_nil length Nat.leb]. subst vm1. unfold bindings.
      rewrite zip_with_nil_r, app_nil_r, insert_id by exact Hd.
      destruct vm; reflexivity.
    + cbn [is_nil CAR CDR].
      rewrite (bind_step _ _ vm v vm eq_refl).
      rewrite (bind_step _ _ _ _ _
                 (bind_name_run n v vm no_def d parent k o items He Hd)).
      set (vm0 := with_heap vm _ _).
      rewrite (bind_step _ _ vm0 values' vm0 eq_refl).
      assert (He0 : heap vm0 !! env vm0 = Some (Env no_def d parent)).
      { subst vm0. cbn [heap env with_heap].
        rewrite lookup_insert_ne by (intros ->; congruence). exact He. }
      assert (Hd0 : heap vm0 !! d = Some (Dict k o (items ++ [var n v])))
        by apply lookup_insert_eq.
      specialize (IH f' values' vs' vm0 _ Hf' Hm' Hv' He0 Hd0).
      cbv zeta in IH. cbn [length Nat.leb drop].
      assert (Evm : with_heap vm0
                (<[d := Dict k o ((items ++ [var n v]) ++ bindings names vs')]>
                   (heap vm0)) (next vm0) = vm1).
      { subst vm1 vm0. cbn [heap next with_heap].
        rewrite insert_insert_eq. unfold bindings. cbn [zip_with].
        rewrite <- app_assoc. reflexivity. }
      rewrite Evm in IH. exact IH.
Qed.

Lemma bind_same {A B} (m m' : M A) (k : A -> M B) vm vm' :
  m vm = m' vm' -> bind m k vm = bind m' k vm'.
Proof. intros H. unfold bind. rewrite H. reflexivity. Qed.

Lemma bind_loop_label c b1 b2 f rest values pn :
  is_modifier f = false ->
  bind_loop c (Pair b1 (Symbol "&label") (Pair b2 (Symbol f) rest)) None values pn
  = (let* _ := bind_name f (Ref c) in bind_loop c rest None values f).
Proof.
  intros H. cbn [bind_loop]. change (is_modifier "&label") with true.
  cbn iota. cbn [bind_loop]. rewrite H. reflexivity.
Qed.

(** The formal arguments that [define] puts in front: [&label name]. *)
Definition label_formals (label : option string) : list Lisp_Object :=
  match label with
  | Some f => [Symbol "&label"; Symbol f]
  | None => []
  end.

Definition label_binding (c : addr) (label : option string) : list binding :=
  match label with
  | Some f => [var f (Ref c)]
  | None => []
  end.

(** X17.  [bind_args] checks the number of arguments of a procedure
    whose formal arguments carry no modifier (but for the [&label name]
    that [define] puts in front).  It first empties the dictionary of
    [vm->env].  With as many values as names it binds them in order, and
    nothing else is written; with fewer it raises [missing arguments],
    with more [too many arguments], under the name of the procedure, or
    [<unknown-procedure>] for a lambda. *)
Theorem bind_args_checks_arity c e b0 formals body label names values vs vm
    no_def d parent k o items :
  heap vm !! c = Some (Proc e (Pair b0 formals body)) ->
  list_of formals (label_formals label ++ (Symbol <$> names)) ->
  Forall (fun n => is_modifier n = false) (option_list label ++ names) ->
  list_of values vs ->
  heap vm !! env vm = Some (Env no_def d parent) ->
  heap vm !! d = Some (Dict k o items) ->
  catch vm = true ->
  let pn := default "<unknown-procedure>" label in
  let vm1 :=
    with_heap vm
      (<[d := Dict k o (label_binding c label ++ bindings names vs)]> (heap vm))
      (next vm) in
  match Nat.compare (length vs) (length names) with
  | Eq => bind_args c values vm = Done tt vm1
  | Lt =>
      exists vm',
        bind_args c values vm = Jumped 1 vm' /\ heap vm' = heap vm1 /\
        messages vm' = (messages vm ++ [pn +:+ ": missing arguments"])%list
  | Gt =>
      exists vm',
        bind_args c values vm = Jumped 1 vm' /\ heap vm' = heap vm1 /\
        messages vm' = (messages vm ++ [pn +:+ ": too many arguments"])%list
  end.
Proof.
  intros Hc Hf Hm Hv He Hd Hcatch pn vm1.
  assert (Hcd : c <> d) by (intros ->; congruence).
  assert (Hed : env vm <> d) by (intros E; rewrite E in He; congruence).
  set (vm0 := with_heap vm (<[d := Dict k o []]> (heap vm)) (next vm)).
  assert (Hclear : clear_env vm = Done tt vm0).
  { unfold clear_env, env_bindings, lisp_dict_clear, bind, get, deref, store.
    rewrite He. cbn [ret]. rewrite Hd. reflexivity. }
  assert (Hc0 : heap vm0 !! c = Some (Proc e (Pair b0 formals body))).
  { subst vm0. cbn [heap with_heap]. rewrite lookup_insert_ne by congruence.
    exact Hc. }
  assert (He0 : heap vm0 !! env vm0 = Some (Env no_def d parent)).
  { subst vm0. cbn [heap env with_heap]. rewrite lookup_insert_ne by congruence.
    exact He. }
  assert (Hd0 : heap vm0 !! d = Some (Dict k o [])) by apply lookup_insert_eq.
  unfold bind_args. rewrite (bind_step _ _ _ _ _ Hclear).
  assert (Hparts : proc_parts c vm0 = Done (e, Pair b0 formals body) vm0).
  { unfold proc_parts, bind, deref. rewrite Hc0. reflexivity. }
  rewrite (bind_step _ _ _ _ _ Hparts). cbn [snd CAR].
  rewrite (bind_step _ _ vm0 formals vm0 eq_refl).
  (* the label, when there is one *)
  assert (Hloop : exists formals' vm2,
    bind_loop c formals None values "<unknown-procedure>" vm0
    = bind_loop c formals' None values pn vm2 /\
    list_of formals' (Symbol <$> names) /\
    Forall (fun n => is_modifier n = false) names /\
    heap vm2 !! env vm2 = Some (Env no_def d parent) /\
    heap vm2 !! d = Some (Dict k o (label_binding c label)) /\
    heap vm2 = <[d := Dict k o (label_binding c label)]> (heap vm) /\
    next vm2 = next vm /\ catch vm2 = true /\ messages vm2 = messages vm /\
    vm1 = with_heap vm2
            (<[d := Dict k o (label_binding c label ++ bindings names vs)]>
               (heap vm2)) (next vm2)).
  { destruct label as [f|]; cbn [label_formals label_binding option_list app] in *.
    - inversion Hf as [|b1 a1 d1 l1 Hf1]; subst.
      inversion Hf1 as [|b2 a2 d2 l2 Hf2]; subst.
      inversion Hm as [|? ? Hmf Hm']; subst.
      rewrite (bind_loop_label _ _ _ _ _ _ _ Hmf).
      rewrite (bind_step _ _ _ _ _
                 (bind_name_run f (Ref c) vm0 no_def d parent k o [] He0 Hd0)).
      eexists d2, _. split; [reflexivity|]. split; [exact Hf2|].
      split; [exact Hm'|]. cbn [heap env with_heap next catch messages app].
      subst vm0. cbn [heap env with_heap next].
      rewrite !insert_insert_eq.
      split; [rewrite lookup_insert_ne by congruence; exact He|].
      split; [apply lookup_insert_eq|]. split; [reflexivity|].
      split; [reflexivity|]. split; [exact Hcatch|]. split; [reflexivity|].
      subst vm1. cbn [with_heap heap next self eval_level env stack_cap stack
                        catch output messages app].
      rewrite ?insert_insert_eq. reflexivity.
    - exists formals, vm0. split; [reflexivity|]. split; [exact Hf|].
      split; [exact Hm|]. split; [exact He0|]. split; [exact Hd0|].
      split; [reflexivity|]. split; [reflexivity|]. split; [exact Hcatch|].
      split; [reflexivity|].
      subst vm1 vm0. cbn [with_heap heap next]. rewrite insert_insert_eq.
      reflexivity. }
  destruct Hloop as (formals' & vm2 & Hl & Hf' & Hm' & He2 & Hd2 & Hh2 & Hn2 &
                     Hc2 & Hmsg2 & Evm1).
  rewrite (bind_same _ _ _ _ _ Hl).
  pose proof (bind_loop_plain c pn no_def d parent k o names formals' values vs
                vm2 _ Hf' Hm' Hv He2 Hd2) as Hrun.
  cbv zeta in Hrun. rewrite <- Evm1 in Hrun.
  assert (Hc1 : catch vm1 = true) by (subst vm1; exact Hcatch).
  destruct (Nat.compare_spec (length vs) (length names)) as [E|E|E].
  - rewrite (proj2 (Nat.leb_le _ _)) in Hrun by lia.
    destruct Hrun as (rest & Hrun & Hrest).
    rewrite (bind_step _ _ _ _ _ Hrun).
    rewrite <- E, drop_all in Hrest. inversion Hrest; subst. reflexivity.
  - rewrite (proj2 (Nat.leb_gt _ _)) in Hrun by lia.
    destruct (@lisp_err_jumps (option string * Lisp_Object * string)
                (pn +:+ ": missing arguments") vm1 Hc1)
      as (vm' & E' & _ & Hh & _ & Hmsg).
    exists vm'. unfold bind. rewrite Hrun, E'.
    split; [reflexivity|]. split; [exact Hh|]. rewrite Hmsg. reflexivity.
  - rewrite (proj2 (Nat.leb_le _ _)) in Hrun by lia.
    destruct Hrun as (rest & Hrun & Hrest).
    rewrite (bind_step _ _ _ _ _ Hrun).
    assert (Hnn : is_nil rest = false).
    { destruct (drop (length names) vs) as [|x xs] eqn:Ed.
      - apply (f_equal length) in Ed. rewrite length_drop in Ed. simpl in Ed. lia.
      - inversion Hrest; reflexivity. }
    rewrite Hnn.
    destruct (@lisp_err_jumps unit (pn +:+ ": too many arguments") vm1 Hc1)
      as (vm' & E' & _ & Hh & _ & Hmsg).
    exists vm'. split; [exact E'|]. split; [exact Hh|]. rewrite Hmsg. reflexivity.
Qed.

(** The procedure [(lambda (x y) x)] as object 40 of [example_vm]. *)
Definition lambda_xy : Lisp_Object :=
  Pair plain (mklist [Symbol "x"; Symbol "y"]) (mklist [Symbol "x"]).

Definition proc_vm : Lisp_VM :=
  with_heap example_vm (<[40%positive := Proc 1 lambda_xy]> example_heap) 100.

Lemma bind_args_checks_arity_witness :
  (exists vm',
     bind_args 40 (mklist [Number 1]) proc_vm = Jumped 1 vm' /\
     messages vm' = ["<unknown-procedure>: missing arguments"]) /\
  (exists vm',
     bind_args 40 (mklist [Number 1; Number 2]) proc_vm = Done tt vm' /\
     heap vm' !! 2%positive
     = Some (Dict false 1 [var "x" (Number 1); var "y" (Number 2)])).
Proof.
  assert (Hf : list_of (mklist [Symbol "x"; Symbol "y"])
                 (label_formals None ++ (Symbol <$> ["x"; "y"])))
    by repeat constructor.
  assert (Hm : Forall (fun n => is_modifier n = false)
                 (option_list None ++ ["x"; "y"]))
    by (repeat constructor).
  split.
  - destruct (bind_args_checks_arity 40 1 plain _ _ None ["x"; "y"]
                (mklist [Number 1]) [Number 1] proc_vm false 2 None false 1 _
                ltac:(vm_compute; reflexivity) Hf Hm ltac:(repeat constructor)
                ltac:(vm_compute; reflexivity) ltac:(vm_compute; reflexivity)
                eq_refl)
      as (vm' & H1 & _ & H2).
    exists vm'. split; [exact H1 | exact H2].
  - pose proof (bind_args_checks_arity 40 1 plain _ _ None ["x"; "y"]
                  (mklist [Number 1; Number 2]) [Number 1; Number 2] proc_vm
                  false 2 None false 1 _
                  ltac:(vm_compute; reflexivity) Hf Hm ltac:(repeat constructor)
                  ltac:(vm_compute; reflexivity) ltac:(vm_compute; reflexivity)
                  eq_refl) as H.
    cbv zeta in H. cbn [length Nat.compare] in H.
    eexists. split; [exact H|]. cbn [heap with_heap]. apply lookup_insert_eq.
Defined.
End Procedures.

(** * The reader and the printer

    [lisp_read] with its tokenizer, for lists, symbols and the quote
    characters, and [lisp_port_print], for strings, symbols and pairs.
    The input port is the list of the bytes that are left to read; what
    the printer sends to its port is a list of bytes.  The tokens and
    objects that are left out (numbers, strings, arrays, dictionaries,
    buffers, the colon forms) end in [NotModelled]. *)

Module Reader.

Local Open Scope string_scope.

Abbreviation Lisp_Object := Evaluator.Lisp_Object (only parsing).
Abbreviation NIL := Evaluator.NIL (only parsing).

Inductive Token_Type :=
| T_EOF | T_INVALID | T_QUOTE | T_QUASIQUOTE | T_UNQUOTE | T_UNQUOTE_SPLICING
| T_DOT | T_LPAREN | T_RPAREN | T_LBRACKET | T_RBRACKET | T_LBRACE | T_RBRACE
| T_STRING | T_SYMBOL | T_NUMBER | T_CIRCUMFLEX | T_BUFFER | T_ARRAY_BEGIN
| T_DICT_BEGIN | T_COLON | T_STRING_PART | T_COLON_COMPONENT.

Definition token_eqb (a b : Token_Type) : bool :=
  match a, b with
  | T_EOF, T_EOF | T_INVALID, T_INVALID | T_QUOTE, T_QUOTE
  | T_QUASIQUOTE, T_QUASIQUOTE | T_UNQUOTE, T_UNQUOTE
  | T_UNQUOTE_SPLICING, T_UNQUOTE_SPLICING | T_DOT, T_DOT
  | T_LPAREN, T_LPAREN | T_RPAREN, T_RPAREN | T_LBRACKET, T_LBRACKET
  | T_RBRACKET, T_RBRACKET | T_LBRACE, T_LBRACE | T_RBRACE, T_RBRACE
  | T_STRING, T_STRING | T_SYMBOL, T_SYMBOL | T_NUMBER, T_NUMBER
  | T_CIRCUMFLEX, T_CIRCUMFLEX | T_BUFFER, T_BUFFER
  | T_ARRAY_BEGIN, T_ARRAY_BEGIN | T_DICT_BEGIN, T_DICT_BEGIN
  | T_COLON, T_COLON | T_STRING_PART, T_STRING_PART
  | T_COLON_COMPONENT, T_COLON_COMPONENT => true
  | _, _ => false
  end.

(** The part of [Lisp_VM] that the reader uses: the bytes of
    [vm->input] from [input_pos] on, the token buffer, and the stack (top
    first). *)
Record Lisp_VM := {
  input : list Z;
  token : list Z;
  token_type : Token_Type;
  utf8_remain : nat;
  stack : list Lisp_Object
}.

Inductive outcome (A : Type) : Type :=
| Done (x : A) (vm : Lisp_VM)
| Failed (msg : string)
| Aborted
| OutOfFuel
| NotModelled.
Arguments Done {A} x vm.
Arguments Failed {A} msg.
Arguments Aborted {A}.
Arguments OutOfFuel {A}.
Arguments NotModelled {A}.

Definition M (A : Type) : Type := Lisp_VM -> outcome A.

Definition ret {A} (x : A) : M A := fun vm => Done x vm.

Definition bind {A B} (m : M A) (k : A -> M B) : M B :=
  fun vm =>
    match m vm with
    | Done x vm' => k x vm'
    | Failed msg => Failed msg
    | Aborted => Aborted
    | OutOfFuel => OutOfFuel
    | NotModelled => NotModelled
    end.

Notation "'let*' x := m 'in' k" := (bind m (fun x => k))
  (at level 10, x name, m at level 100, k at level 200).

Definition get : M Lisp_VM := fun vm => Done vm vm.
Definition lisp_err {A} (msg : string) : M A := fun _ => Failed msg.
Definition abort {A} : M A := fun _ => Aborted.
Definition not_modelled {A} : M A := fun _ => NotModelled.

Definition set_input (i : list Z) : M unit :=
  fun vm => Done tt {| input := i; token := token vm; token_type := token_type vm;
                       utf8_remain := utf8_remain vm; stack := stack vm |}.
Definition set_token (t : list Z) : M unit :=
  fun vm => Done tt {| input := input vm; token := t; token_type := token_type vm;
                       utf8_remain := utf8_remain vm; stack := stack vm |}.
Definition set_token_type (t : Token_Type) : M unit :=
  fun vm => Done tt {| input := input vm; token := token vm; token_type := t;
                       utf8_remain := utf8_remain vm; stack := stack vm |}.
Definition set_utf8_remain (n : nat) : M unit :=
  fun vm => Done tt {| input := input vm; token := token vm;
                       token_type := token_type vm; utf8_remain := n;
                       stack := stack vm |}.
Definition set_stack (s : list Lisp_Object) : M unit :=
  fun vm => Done tt {| input := input vm; token := token vm;
                       token_type := token_type vm;
                       utf8_remain := utf8_remain vm; stack := s |}.

Definition EOF : Z := -1.

Definition lisp_port_getc : M Z :=
  let* vm := get in
  match input vm with
  | [] => ret EOF
  | c :: rest => let* _ := set_input rest in ret c
  end.

Definition lisp_port_unget (c : Z) : M unit :=
  if (c =? EOF)%Z then ret tt
  else let* vm := get in set_input (c :: input vm).

Definition lisp_port_peekc : M Z :=
  let* c := lisp_port_getc in
  let* _ := lisp_port_unget c in
  ret c.

Definition lisp_push (o : Lisp_Object) : M unit :=
  let* vm := get in set_stack (o :: stack vm).

Definition lisp_buffer_add (c : Z) : M unit :=
  let* vm := get in set_token (token vm ++ [c]).

(** ** Classes of characters *)

Definition among (c : Z) (l : list Z) : bool := existsb (Z.eqb c) l.

Definition isspace (c : Z) : bool := among c [32; 9; 10; 11; 12; 13].

Definition isdigit (c : Z) : bool := ((48 <=? c) && (c <=? 57))%Z.

Definition isalnum (c : Z) : bool :=
  (isdigit c || ((65 <=? c) && (c <=? 90)) || ((97 <=? c) && (c <=? 122)))%Z.

(** [' ' '\t' '\n' '\r' '(' ')' '{' '}' '[' ']' ';' EOF] *)
Definition isdelim (c : Z) : bool :=
  among c [32; 9; 10; 13; 40; 41; 123; 125; 91; 93; 59; EOF].

(** ['+' '-' '*' '/' '?' '!' '<' '=' '>' '&' '_'], letters, digits, and
    the bytes above 127 *)
Definition issym (c : Z) : bool :=
  among c [43; 45; 42; 47; 63; 33; 60; 61; 62; 38; 95] || isalnum c
  || (127 <? c)%Z.

(** ** The tokenizer *)

Definition append_utf8_byte (c : Z) : M unit :=
  let* vm := get in
  let* _ :=
    if (0 <? utf8_remain vm)%nat then
      if (Z.land c (Z.lnot 63) =? 128)%Z
      then set_utf8_remain (pred (utf8_remain vm))
      else lisp_err "invalid utf8 sequence"
    else if (Z.shiftr c 7 =? 0)%Z then set_utf8_remain 0
    else if (Z.shiftr c 6 =? 2)%Z then lisp_err "invalid utf8 first byte"
    else if (Z.shiftr c 5 =? 6)%Z then set_utf8_remain 1
    else if (Z.shiftr c 4 =? 14)%Z then set_utf8_remain 2
    else if (Z.shiftr c 3 =? 30)%Z then set_utf8_remain 3
    else lisp_err "invalid utf8 first byte" in
  lisp_buffer_add c.

Definition MAX_SYMBOL_LENGTH : nat := 127.

(** The loop of [symtok]; every turn adds a byte to the token. *)
Fixpoint symtok_loop (turns : nat) : M unit :=
  match turns with
  | O => fun _ => OutOfFuel
  | S turns' =>
      let* vm := get in
      if (length (token vm) <=? MAX_SYMBOL_LENGTH)%nat then
        let* c := lisp_port_getc in
        if issym c then
          let* _ := append_utf8_byte c in
          symtok_loop turns'
        else if (c =? 58)%Z then
          let* _ := append_utf8_byte 0 in
          set_token_type T_COLON_COMPONENT
        else if isdelim c then
          let* _ := append_utf8_byte 0 in
          let* _ := set_token_type T_SYMBOL in
          lisp_port_unget c
        else lisp_err "invalid symbol char"
      else ret tt
  end.

Definition symtok : M unit :=
  let* _ := symtok_loop (MAX_SYMBOL_LENGTH + 3) in
  let* vm := get in
  if (MAX_SYMBOL_LENGTH <? length (token vm))%nat
  then lisp_err "Invalid symbol: too long"
  else ret tt.

(** [do c = getc(); while (isspace(c))]; the input gets shorter. *)
Fixpoint skip_spaces (turns : nat) : M Z :=
  match turns with
  | O => fun _ => OutOfFuel
  | S turns' =>
      let* c := lisp_port_getc in
      if isspace c then skip_spaces turns' else ret c
  end.

(** [do c = getc(); while (c != '\n' && c != '\r' && c != EOF)] *)
Fixpoint skip_comment (turns : nat) : M unit :=
  match turns with
  | O => fun _ => OutOfFuel
  | S turns' =>
      let* c := lisp_port_getc in
      if among c [10; 13; EOF] then ret tt else skip_comment turns'
  end.

(** [next_token] from its label [Retry] on. *)
Fixpoint next_token_retry (turns : nat) : M unit :=
  match turns with
  | O => fun _ => OutOfFuel
  | S turns' =>
      let* vm := get in
      let* c := skip_spaces (S (length (input vm))) in
      if (c =? 40)%Z then set_token_type T_LPAREN
      else if (c =? 41)%Z then set_token_type T_RPAREN
      else if (c =? 91)%Z then set_token_type T_LBRACKET
      else if (c =? 93)%Z then set_token_type T_RBRACKET
      else if (c =? 123)%Z then set_token_type T_LBRACE
      else if (c =? 125)%Z then set_token_type T_RBRACE
      else if (c =? 94)%Z then set_token_type T_CIRCUMFLEX
      else if (c =? 39)%Z then set_token_type T_QUOTE
      else if (c =? 96)%Z then set_token_type T_QUASIQUOTE
      else if (c =? 58)%Z then set_token_type T_COLON
      else if (c =? EOF)%Z then set_token_type T_EOF
      else if (c =? 59)%Z then
        let* vm := get in
        let* _ := skip_comment (S (length (input vm))) in
        next_token_retry turns'
      else if (c =? 46)%Z then
        let* c := lisp_port_getc in
        if isdelim c then
          let* _ := lisp_port_unget c in
          set_token_type T_DOT
        else lisp_err ("do not begin "
                       +:+ (if isdigit c then "number" else "symbol")
                       +:+ " with `.'")
      else if (c =? 44)%Z then
        let* c := lisp_port_getc in
        if (c =? 64)%Z then set_token_type T_UNQUOTE_SPLICING
        else
          let* _ := lisp_port_unget c in
          set_token_type T_UNQUOTE
      else if (c =? 34)%Z then not_modelled
      else if (c =? 35)%Z then not_modelled
      else
        let* _ := append_utf8_byte c in
        if isdigit c then not_modelled
        else if (c =? 43)%Z || (c =? 45)%Z then
          let* nextc := lisp_port_peekc in
          if isdigit nextc || (nextc =? 46)%Z then not_modelled
          else symtok
        else if issym c then symtok
        else lisp_err "Invalid character"
  end.

Definition next_token : M unit :=
  let* _ := set_token [] in
  let* _ := set_token_type T_INVALID in
  let* vm := get in
  next_token_retry (S (length (input vm))).

(** ** The parser *)

Definition LISP_MARK : Lisp_Object := Evaluator.Symbol "*mark*".
Definition LISP_DOT : Lisp_Object := Evaluator.Symbol "*dot*".
Definition LISP_EOF : Lisp_Object := Evaluator.Symbol "*eof*".
Definition LISP_QUOTE : Lisp_Object := Evaluator.Symbol "quote".
Definition LISP_QUASIQUOTE : Lisp_Object := Evaluator.Symbol "quasiquote".
Definition LISP_UNQUOTE : Lisp_Object := Evaluator.Symbol "unquote".
Definition LISP_UNQUOTE_SPLICING : Lisp_Object := Evaluator.Symbol "unquote-splicing".

(** The bytes of a C string: up to the first [NUL]. *)
Fixpoint cstr (l : list Z) : list Z :=
  match l with
  | [] => []
  | c :: rest => if (c =? 0)%Z then [] else c :: cstr rest
  end.

Definition string_of_bytes (l : list Z) : string :=
  String.string_of_list_ascii
    ((fun c => Ascii.ascii_of_nat (Z.to_nat c)) <$> l).

(** [lisp_make_symbol]: the symbol of the table or of [vm->symbols] with
    this name, or a new one; in each case the one symbol of that name. *)
Definition lisp_make_symbol (name : list Z) : M unit :=
  lisp_push (Evaluator.Symbol (string_of_bytes (cstr name))).

Definition lisp_cons : M unit :=
  let* vm := get in
  match stack vm with
  | t1 :: t0 :: rest => set_stack (Evaluator.Pair Evaluator.plain t0 t1 :: rest)
  | _ => abort
  end.

Fixpoint make_pairs (n : nat) : M unit :=
  match n with
  | O => ret tt
  | S n' => let* _ := lisp_cons in make_pairs n'
  end.

Definition lisp_make_list (n : nat) : M unit :=
  let* _ := lisp_push NIL in
  make_pairs n.

(** The loop of [mklist], from the object under [top] down to the
    mark. *)
Fixpoint mklist_loop (is_list : bool) (top0 : Lisp_Object)
    (below : list Lisp_Object) : M unit :=
  match below with
  | [] => abort
  | o :: rest =>
      if Evaluator.same_obj o LISP_DOT then mklist_loop is_list top0 rest
      else if Evaluator.same_obj o LISP_MARK then set_stack (top0 :: rest)
      else
        mklist_loop is_list
          (Evaluator.Pair {| Evaluator.is_list := is_list; Evaluator.tail_call := false;
                        Evaluator.is_return := false |} o top0)
          rest
  end.

Definition mklist : M unit :=
  let* vm := get in
  match stack vm with
  | top0 :: below =>
      if Evaluator.same_obj top0 LISP_MARK then set_stack (NIL :: below)
      else
        match below with
        | under :: _ =>
            if Evaluator.same_obj under LISP_DOT
            then mklist_loop false top0 below
            else mklist_loop true (Evaluator.Pair Evaluator.plain top0 NIL) below
        | [] => abort
        end
  | [] => abort
  end.

(** The message of the source also names the two tokens. *)
Definition expect_token (type : Token_Type) : M unit :=
  let* vm := get in
  if token_eqb (token_type vm) type then ret tt
  else lisp_err "expect token".

Section Parser.

Variable sexp_rec : M bool.

Definition quoted (q : Lisp_Object) (name : string) : M unit :=
  let* _ := lisp_push q in
  let* _ := next_token in
  let* ok := sexp_rec in
  if ok then lisp_make_list 2
  else lisp_err ("expect valid sexp for " +:+ name).

(** The loop of [sexps]; every turn reads a token. *)
Fixpoint sexps_loop (turns : nat) : M unit :=
  match turns with
  | O => fun _ => OutOfFuel
  | S turns' =>
      let* _ := next_token in
      let* vm := get in
      if token_eqb (token_type vm) T_DOT then
        let* _ := lisp_push LISP_DOT in
        let* _ := next_token in
        let* ok := sexp_rec in
        if ok then sexps_loop turns' else lisp_err "invalid sexps"
      else
        let* ok := sexp_rec in
        if ok then sexps_loop turns' else ret tt
  end.

Definition sexps : M unit :=
  let* _ := next_token in
  let* ok := sexp_rec in
  if ok then
    let* vm := get in
    sexps_loop (S (length (input vm)))
  else ret tt.

(** [sexp], for an input port that has no source file, so that the
    mappings from expressions to source positions are not made. *)
Definition sexp_step : M bool :=
  let* vm := get in
  let tt_ := token_type vm in
  match tt_ with
  | T_LPAREN | T_LBRACKET | T_LBRACE =>
      let* _ := lisp_push LISP_MARK in
      let* _ := sexps in
      let* _ := expect_token
                  match tt_ with
                  | T_LPAREN => T_RPAREN
                  | T_LBRACKET => T_RBRACKET
                  | _ => T_RBRACE
                  end in
      let* _ := mklist in
      ret true
  | T_SYMBOL =>
      let* _ := lisp_make_symbol (token vm) in
      ret true
  | T_QUOTE => let* _ := quoted LISP_QUOTE "quote" in ret true
  | T_QUASIQUOTE => let* _ := quoted LISP_QUASIQUOTE "quasiquote" in ret true
  | T_UNQUOTE => let* _ := quoted LISP_UNQUOTE "unquote" in ret true
  | T_UNQUOTE_SPLICING =>
      let* _ := quoted LISP_UNQUOTE_SPLICING "unquote-splicing" in ret true
  | T_ARRAY_BEGIN | T_DICT_BEGIN | T_BUFFER | T_COLON_COMPONENT | T_STRING
  | T_STRING_PART | T_NUMBER | T_CIRCUMFLEX | T_COLON => not_modelled
  | _ => ret false
  end.

End Parser.

Fixpoint sexp (fuel : nat) : M bool :=
  match fuel with
  | O => fun _ => OutOfFuel
  | S fuel' => sexp_step (sexp fuel')
  end.

(** [lisp_read]: the object read is left on top of the stack. *)
Definition lisp_read (fuel : nat) : M Lisp_Object :=
  let* _ := next_token in
  let* vm := get in
  let* _ :=
    if token_eqb (token_type vm) T_EOF then lisp_push LISP_EOF
    else
      let* ok := sexp fuel in
      if ok then ret tt else lisp_err "unexpected token" in
  let* vm := get in
  match stack vm with
  | top :: _ => ret top
  | [] => abort
  end.

(** Reading from a port that holds the bytes [l]. *)
Definition read_bytes (l : list Z) : outcome Lisp_Object :=
  lisp_read (S (length l))
    {| input := l; token := []; token_type := T_INVALID;
       utf8_remain := 0; stack := [] |}.

Definition read_string (s : string) : outcome Lisp_Object :=
  read_bytes (Evaluator.bytes_of s).

Definition read_result (o : outcome Lisp_Object) : option Lisp_Object :=
  match o with
  | Done x _ => Some x
  | _ => None
  end.

(** ** The printer *)

Inductive printed : Type :=
| Printed (bytes : list Z)
| PrintOutOfFuel
| PrintNotModelled.

(** What two calls send to the port, one after the other. *)
Definition then_print (a b : printed) : printed :=
  match a, b with
  | Printed x, Printed y => Printed (x ++ y)
  | Printed _, other => other
  | other, _ => other
  end.

Definition puts (s : string) : printed := Printed (Evaluator.bytes_of s).

(** The loop of [print_string]. *)
Fixpoint print_string_loop (p : list Z) : list Z :=
  match p with
  | [] => []
  | c :: rest =>
      (if (c =? 34)%Z then [92; 34]
       else if (c =? 92)%Z then [92; 92]
       else if (c =? 10)%Z then [92; 110]
       else if (c =? 13)%Z then [92; 114]
       else if (c =? 9)%Z then [92; 116]
       else [c]) ++ print_string_loop rest
  end.

Definition print_string (s : string) : printed :=
  Printed ([34] ++ print_string_loop (cstr (Evaluator.bytes_of s)) ++ [34]).

(** [print_symbol], for a port that is no terminal. *)
Definition print_symbol (s : string) : printed := puts s.

(** [o->type == O_PAIR], [CAR(o)] and [CDR(o)], on values. *)
Definition is_pair (o : Lisp_Object) : bool :=
  match o with
  | Evaluator.NIL | Evaluator.Pair _ _ _ => true
  | _ => false
  end.

Definition car (o : Lisp_Object) : Lisp_Object :=
  match o with
  | Evaluator.Pair _ a _ => a
  | _ => Evaluator.LISP_UNDEF
  end.

Definition cdr (o : Lisp_Object) : Lisp_Object :=
  match o with
  | Evaluator.Pair _ _ d => d
  | _ => Evaluator.NIL
  end.

Definition is_nil (o : Lisp_Object) : bool :=
  match o with
  | Evaluator.NIL => true
  | _ => false
  end.

Section Printer.

Variable print_rec : Lisp_Object -> printed.

Definition print_quoted (prefix : string) (o : Lisp_Object) : printed :=
  then_print (puts prefix) (print_rec o).

(** The loop of [print_pair]. *)
Fixpoint print_items (p : Lisp_Object) : printed :=
  match p with
  | Evaluator.Pair _ a d =>
      then_print (print_rec a)
        (if negb (is_pair d) then then_print (puts " . ") (print_rec d)
         else then_print (if is_nil d then Printed [] else puts " ")
                         (print_items d))
  | _ => Printed []
  end.

Definition print_list (p : Lisp_Object) : printed :=
  then_print (puts "(") (then_print (print_items p) (puts ")")).

Definition print_pair (p : Lisp_Object) : printed :=
  match car p with
  | Evaluator.Symbol s =>
      if is_pair (cdr p) && is_nil (cdr (cdr p)) then
        let o := car (cdr p) in
        if String.eqb s "quote" then print_quoted "'" o
        else if String.eqb s "unquote" then print_quoted "," o
        else if String.eqb s "quasiquote" then print_quoted "`" o
        else if String.eqb s "unquote-splicing" then print_quoted ",@" o
        else print_list p
      else print_list p
  | _ => print_list p
  end.

Definition lisp_port_print_step (obj : Lisp_Object) : printed :=
  match obj with
  | Evaluator.String s => print_string s
  | Evaluator.Symbol s => print_symbol s
  | Evaluator.NIL | Evaluator.Pair _ _ _ => print_pair obj
  | Evaluator.Number _ | Evaluator.Ref _ => PrintNotModelled
  end.

End Printer.

Fixpoint lisp_port_print (fuel : nat) (obj : Lisp_Object) : printed :=
  match fuel with
  | O => PrintOutOfFuel
  | S fuel' => lisp_port_print_step (lisp_port_print fuel') obj
  end.

(** ** Equality of values

    As the data model has it: strings by content, symbols by identity
    (which is the name, symbols being interned), pairs by their parts,
    numbers by value. *)
Fixpoint data_equal (a b : Lisp_Object) : bool :=
  match a, b with
  | Evaluator.Number x, Evaluator.Number y => PrimFloat.eqb x y
  | Evaluator.String x, Evaluator.String y => String.eqb x y
  | Evaluator.Symbol x, Evaluator.Symbol y => String.eqb x y
  | Evaluator.NIL, Evaluator.NIL => true
  | Evaluator.Pair _ a1 d1, Evaluator.Pair _ a2 d2 =>
      data_equal a1 a2 && data_equal d1 d2
  | _, _ => false
  end.

(** The list of the objects of [l]. *)
Definition list_of (l : list Lisp_Object) : Lisp_Object :=
  foldr (Evaluator.Pair Evaluator.plain) NIL l.

(** [read(print(v))] for the object that [s] reads as, with the bytes
    that were printed. *)
Definition read_print_read (fuel : nat) (s : string)
  : option (Lisp_Object * list Z * option Lisp_Object) :=
  match read_result (read_string s) with
  | Some v =>
      match lisp_port_print fuel v with
      | Printed out => Some (v, out, read_result (read_bytes out))
      | _ => None
      end
  | None => None
  end.

Definition round_trips (fuel : nat) (s : string) : bool :=
  match read_print_read fuel s with
  | Some (v, _, Some v') => data_equal v' v
  | _ => false
  end.

(** ** The printer on a list that holds one of the quote symbols alone *)

(** The test for a quote form looks at the pair after the symbol; with
    nothing after the symbol that pair is [NIL], whose [cdr] is [NIL]
    and whose [car] is [undefined]. *)
Lemma print_pair_of_symbol_alone (print_rec : Lisp_Object -> printed)
    (b : Evaluator.pair_bits) (s prefix : string) :
  In (s, prefix) [("quote", "'"); ("unquote", ","); ("quasiquote", "`");
                  ("unquote-splicing", ",@")] ->
  print_pair print_rec (Evaluator.Pair b (Evaluator.Symbol s) NIL)
  = print_quoted print_rec prefix Evaluator.LISP_UNDEF.
Proof.
  intros H. repeat (destruct H as [H | H]; [injection H as <- <-; reflexivity |]).
  destruct H.
Qed.

Lemma lisp_port_print_of_symbol_alone (fuel : nat) (b : Evaluator.pair_bits)
    (s prefix : string) :
  In (s, prefix) [("quote", "'"); ("unquote", ","); ("quasiquote", "`");
                  ("unquote-splicing", ",@")] ->
  lisp_port_print (S (S fuel)) (Evaluator.Pair b (Evaluator.Symbol s) NIL)
  = Printed (Evaluator.bytes_of (prefix +:+ "undefined")).
Proof.
  intros H. change (lisp_port_print (S (S fuel)) ?o)
    with (print_pair (lisp_port_print (S fuel)) o).
  rewrite (print_pair_of_symbol_alone _ _ _ _ H).
  repeat (destruct H as [H | H]; [injection H as <- <-; reflexivity |]).
  destruct H.
Qed.

(** C1. The round trip fails on the list [(quote)]: the reader makes of
    it the pair of the symbol [quote] and [NIL]; the printer sends
    ['undefined] for that pair; and the reader makes of ['undefined] the
    list [(quote undefined)], of two elements, which is not equal to the
    list of one element that was printed. *)
Example read_print_read_of_quote_alone :
  read_result (read_string "(quote)")
  = Some (list_of [Evaluator.Symbol "quote"]) /\
  lisp_port_print 2 (list_of [Evaluator.Symbol "quote"])
  = Printed (Evaluator.bytes_of "'undefined") /\
  read_result (read_bytes (Evaluator.bytes_of "'undefined"))
  = Some (list_of [Evaluator.Symbol "quote"; Evaluator.Symbol "undefined"]) /\
  data_equal (list_of [Evaluator.Symbol "quote"; Evaluator.Symbol "undefined"])
             (list_of [Evaluator.Symbol "quote"]) = false /\
  round_trips 2 "(quote)" = false.
Proof. repeat split; vm_compute; reflexivity. Qed.

(** The other three quote symbols, alone in a list, go the same way. *)
Example read_print_read_of_unquote_alone :
  read_print_read 2 "(unquote)"
  = Some (list_of [Evaluator.Symbol "unquote"],
          Evaluator.bytes_of ",undefined",
          Some (list_of [Evaluator.Symbol "unquote"; Evaluator.Symbol "undefined"]))
  /\ round_trips 2 "(unquote)" = false
  /\ round_trips 2 "(quasiquote)" = false
  /\ round_trips 2 "(unquote-splicing)" = false
  /\ round_trips 3 "(a (quote) b)" = false.
Proof. repeat split; vm_compute; reflexivity. Qed.

(** Lists of symbols, dotted pairs and quote forms that have their
    argument are read back as they were. *)
Example round_trip_of_lists :
  round_trips 4 "(a (b . c) ,@d `e)" = true /\
  round_trips 4 "'undefined" = true /\
  round_trips 4 "()" = true /\
  round_trips 4 "(quote a b)" = true /\
  round_trips 4 "(quote . a)" = true /\
  round_trips 4 "(a quote)" = true /\
  round_trips 4 "; a comment
 (define (f x) (cons 'x x))" = true.
Proof. repeat split; vm_compute; reflexivity. Qed.

End Reader.
